(** * The formula editor and the collaborator tables of nc-gui

    A shallow embedding of the script parts of three Vue components:
    the column formula editor (cursor-context scanning, suggestion lists,
    validation) and the two collaborator tables (workspace and base).

    Strings are sequences of UTF-16 code units, as in the JavaScript
    runtime; indices and offsets are integers. *)

From Stdlib Require Import String Ascii.
From Stdlib Require Import List NArith ZArith Bool Lia.
From Stdlib Require Import Permutation Sorted.
Import ListNotations.

Set Implicit Arguments.

(** ** The JavaScript runtime the components rely on *)

Module JS.

(** A string value: its UTF-16 code units. *)
Definition text := list N.

(** The code units of an ASCII literal. *)
Definition lit (s : string) : text := map N_of_ascii (list_ascii_of_string s).

Definition LPAREN : N := 40.
Definition RPAREN : N := 41.
Definition COMMA : N := 44.
Definition LBRACE : N := 123.
Definition RBRACE : N := 125.
Definition DQUOTE : N := 34.
Definition SQUOTE : N := 39.
Definition BACKSLASH : N := 92.

(** [text[i]]: [undefined] outside the string. *)
Definition charAt (t : text) (i : Z) : option N :=
  if (i <? 0)%Z then None else nth_error t (Z.to_nat i).

(** [char === c], false for [undefined]. *)
Definition is_char (char : option N) (c : N) : bool :=
  match char with
  | Some d => N.eqb d c
  | None => false
  end.

(** [[a, b, ...].includes(char)] for a list of one-character strings. *)
Definition one_of (cs : list N) (char : option N) : bool :=
  existsb (is_char char) cs.

Definition text_length (t : text) : Z := Z.of_nat (length t).

(** [t.substring(a, b)]: both indices are clamped to [0, length] and
    swapped when the first exceeds the second. *)
Definition clamp (t : text) (i : Z) : nat :=
  Z.to_nat (Z.min (Z.max 0 i) (text_length t)).

Definition substring (t : text) (a b : Z) : text :=
  let a' := clamp t a in
  let b' := clamp t b in
  let lo := Nat.min a' b' in
  let hi := Nat.max a' b' in
  firstn (hi - lo) (skipn lo t).

(** The class [\w] of a regular expression without the unicode flag. *)
Definition isWordChar (c : N) : bool :=
  ((48 <=? c) && (c <=? 57) || (65 <=? c) && (c <=? 90)
   || (97 <=? c) && (c <=? 122) || (c =? 95))%N.

(** The class [\s]; also the characters [trim] strips: white space and
    line terminators. *)
Definition isSpace (c : N) : bool :=
  ((9 <=? c) && (c <=? 13) || (c =? 32) || (c =? 160) || (c =? 5760)
   || (8192 <=? c) && (c <=? 8202) || (c =? 8232) || (c =? 8233)
   || (c =? 8239) || (c =? 8287) || (c =? 12288) || (c =? 65279))%N.

Fixpoint takeWhile (p : N -> bool) (t : text) : text :=
  match t with
  | c :: t' => if p c then c :: takeWhile p t' else []
  | [] => []
  end.

Fixpoint dropWhile (p : N -> bool) (t : text) : text :=
  match t with
  | c :: t' => if p c then dropWhile p t' else t
  | [] => []
  end.

(** [t.trim()] *)
Definition trim (t : text) : text :=
  rev (dropWhile isSpace (rev (dropWhile isSpace t))).

(** [hay.startsWith(needle)] *)
Fixpoint startsWith (hay needle : text) : bool :=
  match needle, hay with
  | [], _ => true
  | _ :: _, [] => false
  | n :: needle', h :: hay' => N.eqb h n && startsWith hay' needle'
  end.

(** [hay.includes(needle)] *)
Fixpoint includes (hay needle : text) : bool :=
  startsWith hay needle ||
  match hay with
  | [] => false
  | _ :: hay' => includes hay' needle
  end.

(** A string is truthy when it is not empty. *)
Definition truthy (t : text) : bool :=
  match t with [] => false | _ :: _ => true end.

(** [Array.prototype.sort(comparefn)] for a consistent comparator, one
    that compares keys: the language then fixes the result, the sorted
    list in which the elements of each key keep their order.  It is
    computed here by insertion.  For a comparator that is not consistent
    the language leaves the order to the engine; such a call goes to the
    engine's own sort, [Array_sort] below. *)
Section Sort.
Variable A : Type.
Variable comparefn : A -> A -> Z.

Fixpoint sort_insert (x : A) (l : list A) : list A :=
  match l with
  | [] => [x]
  | y :: l' =>
      if (comparefn x y <=? 0)%Z then x :: l else y :: sort_insert x l'
  end.

Fixpoint sort (l : list A) : list A :=
  match l with
  | [] => []
  | x :: l' => sort_insert x (sort l')
  end.
End Sort.

End JS.

Import JS.

(** ** The Monaco editor, as far as the component reads it *)

Record Position := { lineNumber : Z; column : Z }.

Record Range := {
  startLineNumber : Z; startColumn : Z; endLineNumber : Z; endColumn : Z
}.

(** A text model: the calls the component makes on it. *)
Record Model := {
  getValue : text;
  getOffsetAt : Position -> Z;
  getLineContent : Z -> text;
  getWordAtPosition : Position -> option text
}.

(** An edit handed to [executeEdits]. *)
Record Edit := { range : Range; edit_text : text; forceMoveMarkers : bool }.

(** The editor instance: its model, its cursor and the edits it was asked
    to execute, most recent first. *)
Record Editor := {
  getModel : option Model;
  getPosition : option Position;
  executed : list Edit
}.

(** ** Cursor context: strings *)

Record QuoteScan := {
  inSingleQuoteString : bool;
  inDoubleQuoteString : bool;
  escapeNextChar : bool
}.

Definition quote_init : QuoteScan :=
  {| inSingleQuoteString := false; inDoubleQuoteString := false;
     escapeNextChar := false |}.

(** One iteration of the loop of [isCursorInsideString] on [char = text[i]]. *)
Definition quote_step (st : QuoteScan) (char : option N) : QuoteScan :=
  if escapeNextChar st then
    {| inSingleQuoteString := inSingleQuoteString st;
       inDoubleQuoteString := inDoubleQuoteString st;
       escapeNextChar := false |}
  else if is_char char BACKSLASH then
    {| inSingleQuoteString := inSingleQuoteString st;
       inDoubleQuoteString := inDoubleQuoteString st;
       escapeNextChar := true |}
  else if is_char char SQUOTE && negb (inDoubleQuoteString st) then
    {| inSingleQuoteString := negb (inSingleQuoteString st);
       inDoubleQuoteString := inDoubleQuoteString st;
       escapeNextChar := escapeNextChar st |}
  else if is_char char DQUOTE && negb (inSingleQuoteString st) then
    {| inSingleQuoteString := inSingleQuoteString st;
       inDoubleQuoteString := negb (inDoubleQuoteString st);
       escapeNextChar := escapeNextChar st |}
  else st.

(** [for (let i = i0; i < offset; i++)], with [n] iterations left. *)
Fixpoint quote_loop (t : text) (i : Z) (n : nat) (st : QuoteScan) : QuoteScan :=
  match n with
  | O => st
  | S n' => quote_loop t (i + 1) n' (quote_step st (charAt t i))
  end.

Definition isCursorInsideString (t : text) (offset : Z) : bool :=
  let st := quote_loop t 0 (Z.to_nat offset) quote_init in
  inDoubleQuoteString st || inSingleQuoteString st.

(** The scan read as a lexer over the prefix, with three states, in which
    a backslash swallows the character after it. *)
Inductive Lex := Code | SingleQuoted | DoubleQuoted.

Definition lex_quote (s : Lex) (c : N) : Lex :=
  match s with
  | Code => if N.eqb c SQUOTE then SingleQuoted
            else if N.eqb c DQUOTE then DoubleQuoted else Code
  | SingleQuoted => if N.eqb c SQUOTE then Code else SingleQuoted
  | DoubleQuoted => if N.eqb c DQUOTE then Code else DoubleQuoted
  end.

Fixpoint lex (s : Lex) (t : text) : Lex :=
  match t with
  | [] => s
  | c :: t' =>
      if N.eqb c BACKSLASH then
        match t' with
        | [] => s
        | _ :: t'' => lex s t''
        end
      else lex (lex_quote s c) t'
  end.

Definition unterminated (s : Lex) : bool :=
  match s with Code => false | _ => true end.

(** The prefix of the text before the offset. *)
Definition prefix_before (t : text) (offset : Z) : text :=
  firstn (Z.to_nat offset) t.

(** The lexer state the flags of the loop stand for. *)
Definition lex_of (st : QuoteScan) : Lex :=
  if inSingleQuoteString st then SingleQuoted
  else if inDoubleQuoteString st then DoubleQuoted
  else Code.

(** The two flags are never set together. *)
Definition quote_wf (st : QuoteScan) : Prop :=
  inSingleQuoteString st && inDoubleQuoteString st = false.

(** ** Cursor context: parentheses *)

(** [s.match(/c/g)] for a one-character pattern: the list of matches, or
    [null] when there is none. *)
Definition match_all (c : N) (s : text) : option (list N) :=
  match filter (N.eqb c) s with
  | [] => None
  | m => Some m
  end.

(** [x || []] *)
Definition or_empty (A : Type) (x : option (list A)) : list A :=
  match x with
  | Some l => l
  | None => []
  end.

Definition isCursorBetweenParenthesis (editor : option Editor) : bool :=
  match editor with
  | None => false
  | Some ed =>
      match getPosition ed with
      | None => false
      | Some cursorPosition =>
          match getModel ed with
          | None => false
          | Some model =>
              let line := getLineContent model (lineNumber cursorPosition) in
              if negb (truthy line) then false
              else
                let cursorLine := substring line 0 (column cursorPosition - 1) in
                let openParenthesis :=
                  Z.of_nat (length (or_empty (match_all LPAREN cursorLine))) in
                let closeParenthesis :=
                  Z.of_nat (length (or_empty (match_all RPAREN cursorLine))) in
                (openParenthesis >? closeParenthesis)%Z
          end
      end
  end.

(** ** Suggestions *)

Inductive SuggestionType := type_function | type_column | type_op.

Definition SuggestionType_eqb (a b : SuggestionType) : bool :=
  match a, b with
  | type_function, type_function
  | type_column, type_column
  | type_op, type_op => true
  | _, _ => false
  end.

Definition sortOrder (ty : SuggestionType) : Z :=
  match ty with
  | type_column => 0
  | type_function => 1
  | type_op => 2
  end.

Inductive UITypes :=
| QrCode | Barcode | LinkToAnotherRecord | OtherUIType (name : text).

Definition UITypes_eqb (a b : UITypes) : bool :=
  match a, b with
  | QrCode, QrCode | Barcode, Barcode
  | LinkToAnotherRecord, LinkToAnotherRecord => true
  | OtherUIType x, OtherUIType y =>
      if list_eq_dec N.eq_dec x y then true else false
  | _, _ => false
  end.

(** The entry of a function in the SDK's [formulas] table. *)
Record FormulaDoc := {
  description : text; syntax : text; examples : list text;
  docsUrl : option text
}.

(** An entry of the suggestion list.  [unsupported] is only set on
    functions; a missing field reads as false.  The icon of a column
    entry, which only the template shows, is left out. *)
Record Suggestion := {
  sug_text : text;
  sug_type : SuggestionType;
  doc : option FormulaDoc;
  uidt : option UITypes;
  unsupported : bool
}.

Record Column := {
  col_id : option text;
  col_title : text;
  col_uidt : UITypes;
  col_system : bool
}.

Definition text_eqb (a b : text) : bool :=
  if list_eq_dec N.eq_dec a b then true else false.

(** [a === b] on values that may be [undefined]. *)
Definition opt_text_eqb (a b : option text) : bool :=
  match a, b with
  | Some x, Some y => text_eqb x y
  | None, None => true
  | _, _ => false
  end.

(** The SQL dialect helper of the SDK, as far as the component calls it. *)
Record SqlUi := { getUnsupportedFnList : list text }.

(** What the component receives from its stores, the SDK and the helper
    classes that are not part of it. *)
Class Deps := {
  (** [formulaList], the names of all formula functions *)
  availableFunctions : list text;
  formulas : text -> FormulaDoc;
  sqlUi : SqlUi;
  (** [meta?.value?.columns] *)
  meta_columns : option (list Column);
  isHiddenCol : Column -> bool;
  (** [column.value], the column being edited *)
  column_value : option Column;
  (** [NcAutocompleteTree]: the completions of a word in the tree that
      holds the given suggestions *)
  complete : list Suggestion -> text -> option (list Suggestion);
  (** the effect of an executed edit on the model and on the cursor *)
  monaco_edit : Editor -> Edit -> option Model * option Position;
  (** [Array.prototype.sort] as the engine implements it, for the call
      whose comparator is not consistent *)
  Array_sort :
    (Suggestion -> Suggestion -> Z) -> list Suggestion -> list Suggestion
}.

Definition uiTypesNotSupportedInFormulas : list UITypes := [QrCode; Barcode].

Definition availableBinOps : list text :=
  map lit ["+"; "-"; "*"; "/"; ">"; "<"; "=="; "<="; ">="; "!="; "&"]%string.

Definition supportedColumns `{Deps} : list Column :=
  match meta_columns with
  | Some columns =>
      filter (fun col =>
                if existsb (UITypes_eqb (col_uidt col)) uiTypesNotSupportedInFormulas
                then false
                else if isHiddenCol col then false
                else true) columns
  | None => []
  end.

(** The comparator that moves unsupported functions to the end. *)
Definition unsupported_last (a b : Suggestion) : Z :=
  if unsupported a && negb (unsupported b) then 1
  else if negb (unsupported a) && unsupported b then -1
  else 0.

(** The array literal of [suggestionsList], before it is sorted. *)
Definition suggestionsList_unsorted `{Deps} : list Suggestion :=
  let unsupportedFnList := getUnsupportedFnList sqlUi in
  map (fun fn =>
         {| sug_text := fn ++ lit "()";
            sug_type := type_function;
            doc := Some (formulas fn);
            uidt := None;
            unsupported := existsb (text_eqb fn) unsupportedFnList |})
      availableFunctions
  ++ map (fun c =>
            {| sug_text := col_title c;
               sug_type := type_column;
               doc := None;
               uidt := Some (col_uidt c);
               unsupported := false |})
         (filter (fun c =>
                    if UITypes_eqb (col_uidt c) LinkToAnotherRecord && col_system c
                    then false
                    else negb (opt_text_eqb
                                 (match column_value with
                                  | Some cv => col_id cv
                                  | None => None
                                  end)
                                 (col_id c)))
                 supportedColumns)
  ++ map (fun o =>
            {| sug_text := o;
               sug_type := type_op;
               doc := None;
               uidt := None;
               unsupported := false |})
         availableBinOps.

Definition suggestionsList `{Deps} : list Suggestion :=
  sort unsupported_last suggestionsList_unsorted.

(** ** The state of the formula editor component *)

Record State := {
  editor : option Editor;
  autocomplete : bool;
  suggestion : option (list Suggestion);
  selected : Z;
  priority : Z;
  wordToComplete : text;
  showFunctionList : bool
}.

(** A call either returns or throws a [TypeError] (a property read on
    [undefined]); both leave a state behind. *)
Inductive Outcome :=
| Returned (st : State)
| TypeError (st : State).

Definition state_of (o : Outcome) : State :=
  match o with Returned st | TypeError st => st end.

Definition set_autocomplete (v : bool) (st : State) : State :=
  {| editor := editor st; autocomplete := v; suggestion := suggestion st;
     selected := selected st; priority := priority st;
     wordToComplete := wordToComplete st;
     showFunctionList := showFunctionList st |}.

Definition set_suggestion (v : option (list Suggestion)) (st : State) : State :=
  {| editor := editor st; autocomplete := autocomplete st; suggestion := v;
     selected := selected st; priority := priority st;
     wordToComplete := wordToComplete st;
     showFunctionList := showFunctionList st |}.

Definition set_selected (v : Z) (st : State) : State :=
  {| editor := editor st; autocomplete := autocomplete st;
     suggestion := suggestion st; selected := v; priority := priority st;
     wordToComplete := wordToComplete st;
     showFunctionList := showFunctionList st |}.

Definition set_priority (v : Z) (st : State) : State :=
  {| editor := editor st; autocomplete := autocomplete st;
     suggestion := suggestion st; selected := selected st; priority := v;
     wordToComplete := wordToComplete st;
     showFunctionList := showFunctionList st |}.

Definition set_wordToComplete (v : text) (st : State) : State :=
  {| editor := editor st; autocomplete := autocomplete st;
     suggestion := suggestion st; selected := selected st;
     priority := priority st; wordToComplete := v;
     showFunctionList := showFunctionList st |}.

Definition set_showFunctionList (v : bool) (st : State) : State :=
  {| editor := editor st; autocomplete := autocomplete st;
     suggestion := suggestion st; selected := selected st;
     priority := priority st; wordToComplete := wordToComplete st;
     showFunctionList := v |}.

Definition set_editor (v : option Editor) (st : State) : State :=
  {| editor := v; autocomplete := autocomplete st;
     suggestion := suggestion st; selected := selected st;
     priority := priority st; wordToComplete := wordToComplete st;
     showFunctionList := showFunctionList st |}.

Definition getCurrentKeyword (ed : Editor) : option text :=
  match getModel ed, getPosition ed with
  | Some model, Some position => getWordAtPosition model position
  | _, _ => None
  end.

(** The kinds of suggestions. *)
Definition is_column (s : Suggestion) : bool :=
  match sug_type s with type_column => true | _ => false end.

Definition is_function (s : Suggestion) : bool :=
  match sug_type s with type_function => true | _ => false end.

Definition is_op (s : Suggestion) : bool :=
  match sug_type s with type_op => true | _ => false end.

(** [query.split(/\W+/)]: [cur] is the piece being read, in reverse, and
    [insep] tells that the previous character was part of a separator. *)
Fixpoint split_nonword (cur : text) (insep : bool) (query : text) : list text :=
  match query with
  | [] => [rev cur]
  | c :: query' =>
      if isWordChar c then split_nonword (c :: cur) false query'
      else if insep then split_nonword cur true query'
      else rev cur :: split_nonword [] true query'
  end.

(** [parts.pop() || ''] *)
Definition pop_or_empty (parts : list text) : text := last parts [].

(** The comparators of [handleInput].  The first compares keys.  The
    second does not: it answers -1 for two columns in either order, so the
    order it leaves among the columns is the engine's choice. *)
Definition by_sortOrder (x y : Suggestion) : Z :=
  sortOrder (sug_type x) - sortOrder (sug_type y).

Definition columns_first (a b : Suggestion) : Z :=
  if SuggestionType_eqb (sug_type a) type_column then -1
  else if SuggestionType_eqb (sug_type b) type_column then 1
  else 0.

(** The order a comparator sorts by when it compares keys. *)
Definition key_le (A : Type) (key : A -> Z) (x y : A) : Prop :=
  (key x <= key y)%Z.

(** The key the comparator of [suggestionsList] compares. *)
Definition unsupported_key (s : Suggestion) : Z :=
  if unsupported s then 1 else 0.

(** The two classes the second comparator of [handleInput] tells apart:
    the columns and the rest. *)
Definition column_class (s : Suggestion) : Z :=
  if is_column s then 0 else 1.

Definition handleInput `{Deps} (st : State) : Outcome :=
  match editor st with
  | None => Returned st
  | Some ed =>
      match getModel ed, getPosition ed with
      | Some model, Some position =>
          let text := getValue model in
          let offset := getOffsetAt model position in
          if isCursorInsideString text offset then
            Returned (set_suggestion (Some []) (set_autocomplete false st))
          else
            let st :=
              if negb (isCursorBetweenParenthesis (editor st))
              then set_priority 1 st else st in
            let st := set_suggestion (Some []) (set_selected 0 st) in
            let query :=
              match getCurrentKeyword ed with Some w => w | None => [] end in
            let parts := split_nonword [] false query in
            let st := set_wordToComplete (pop_or_empty parts) st in
            let st :=
              set_suggestion
                (option_map (sort by_sortOrder)
                            (complete suggestionsList (wordToComplete st))) st in
            let after_sort :=
              if isCursorBetweenParenthesis (editor st) then
                match suggestion st with
                | None => TypeError st
                | Some l =>
                    let st :=
                      set_suggestion (Some (Array_sort columns_first l)) st in
                    Returned (set_priority (-1) (set_selected 0 st))
                end
              else if negb (showFunctionList st)
                   then Returned (set_showFunctionList true st)
                   else Returned st in
            match after_sort with
            | TypeError st => TypeError st
            | Returned st =>
                match suggestion st with
                | None => TypeError st
                | Some l =>
                    Returned (set_autocomplete (negb (length l =? 0)%nat) st)
                end
            end
      | _, _ => Returned st
      end
  end.

(** What is expected of the sort of the engine, whatever the comparator.
    The result is a rearrangement of the array. *)
Definition sort_rearranges `{Deps} : Prop :=
  forall (comparefn : Suggestion -> Suggestion -> Z) (l : list Suggestion),
    Permutation l (Array_sort comparefn l).

(** And where the comparator tells classes of elements apart, answering
    alike in both directions for two elements of different classes, the
    result has the classes in their order, and a class whose elements all
    tie keeps its order.  The order within another class is left open. *)
Definition sort_respects_classes `{Deps} : Prop :=
  forall (comparefn : Suggestion -> Suggestion -> Z) (class : Suggestion -> Z)
         (l : list Suggestion),
    (forall x y, (class x < class y)%Z ->
                 (comparefn x y < 0)%Z /\ (comparefn y x > 0)%Z) ->
    StronglySorted (key_le class) (Array_sort comparefn l) /\
    (forall k,
        (forall x y, class x = k -> class y = k -> comparefn x y = 0%Z) ->
        filter (fun a => class a =? k)%Z (Array_sort comparefn l) =
        filter (fun a => class a =? k)%Z l).

(** ** Inserting a suggestion *)

Definition executeEdits `{Deps} (ed : Editor) (e : Edit) : Editor :=
  {| getModel := fst (monaco_edit ed e);
     getPosition := snd (monaco_edit ed e);
     executed := e :: executed ed |}.

Definition setPosition (ed : Editor) (p : Position) : Editor :=
  {| getModel := getModel ed; getPosition := Some p; executed := executed ed |}.

Definition insertStringAtPosition `{Deps}
  (ed : Editor) (text : text) (skipCursorMove : bool) : Editor :=
  match getPosition ed with
  | None => ed
  | Some position =>
      let range :=
        {| startLineNumber := lineNumber position;
           startColumn := column position;
           endLineNumber := lineNumber position;
           endColumn := column position |} in
      let ed :=
        executeEdits ed
          {| range := range; edit_text := text; forceMoveMarkers := true |} in
      if negb skipCursorMove then
        setPosition ed
          {| lineNumber := lineNumber position;
             column := column position + text_length text - 1 |}
      else ed
  end.

Definition appendText `{Deps} (item : option Suggestion) (st : State) : Outcome :=
  let len := text_length (wordToComplete st) in
  match item with
  | None => Returned st
  | Some item =>
      if negb (truthy (sug_text item)) then Returned st
      else
        let text := sug_text item in
        match editor st with
        | None => TypeError st
        | Some ed =>
            match getPosition ed with
            | None => Returned st
            | Some position =>
                let newColumn := Z.max 1 (column position - len) in
                let range :=
                  {| startLineNumber := lineNumber position;
                     startColumn := newColumn;
                     endLineNumber := lineNumber position;
                     endColumn := column position |} in
                let ed :=
                  executeEdits ed
                    {| range := range; edit_text := [];
                       forceMoveMarkers := true |} in
                let ed :=
                  match sug_type item with
                  | type_function => insertStringAtPosition ed text false
                  | type_column =>
                      insertStringAtPosition ed (lit "{" ++ text ++ lit "}") true
                  | type_op => insertStringAtPosition ed text true
                  end in
                let st := set_editor (Some ed) st in
                let st := set_wordToComplete [] (set_autocomplete false st) in
                match sug_type item with
                | type_function | type_op =>
                    Returned
                      (set_suggestion
                         (Some (filter
                                  (fun f => SuggestionType_eqb (sug_type f) type_column)
                                  suggestionsList)) st)
                | type_column =>
                    Returned (set_suggestion (Some suggestionsList) st)
                end
            end
        end
  end.

Definition suggestedFormulas (suggestion : list Suggestion) : list Suggestion :=
  filter (fun s => negb (SuggestionType_eqb (sug_type s) type_column)) suggestion.

Definition variableList (suggestion : list Suggestion) : list Suggestion :=
  filter (fun s => SuggestionType_eqb (sug_type s) type_column) suggestion.

(** [arr[i]] *)
Definition at_index (A : Type) (arr : list A) (i : Z) : option A :=
  if (i <? 0)%Z then None else nth_error arr (Z.to_nat i).

(** Run [k] on the state a call returned; a throw is passed on. *)
Definition and_then (o : Outcome) (k : State -> Outcome) : Outcome :=
  match o with
  | Returned st => k st
  | TypeError st => TypeError st
  end.

Definition selectText `{Deps} (st : State) : Outcome :=
  match suggestion st with
  | Some sugg =>
      if (selected st >? -1)%Z
         && (selected st <? Z.of_nat (length suggestionsList))%Z
      then
        if (selected st <? Z.of_nat (length (suggestedFormulas sugg)))%Z then
          match at_index (suggestedFormulas sugg) (selected st) with
          | None => TypeError st
          | Some item =>
              if unsupported item then Returned st
              else and_then (appendText (Some item) st)
                            (fun st => Returned (set_selected 0 st))
          end
        else
          and_then
            (appendText
               (at_index (variableList sugg)
                         (selected st + Z.of_nat (length (suggestedFormulas sugg))))
               st)
            (fun st => Returned (set_selected 0 st))
      else Returned (set_selected 0 st)
  | None => Returned (set_selected 0 st)
  end.

(** ** Validation through the SDK *)

Record Extra := { key : option text; extra_fields : list (text * text) }.

(** What a call may throw. *)
Inductive Thrown :=
| FormulaError (extra : option Extra) (message : text)
| OtherError (message : text).

Inductive FormulaDataTypes :=
| NUMERIC | STRING | DATE | LOGICAL | COND_EXP | NULL | BOOLEAN | INTERVAL
| UNKNOWN.

(** A parsed tree: its data type and, for a tree the SDK built, the rest of
    its properties. *)
Record ParsedTree := {
  dataType : FormulaDataTypes;
  sdk_properties : option (list (text * text))
}.

Inductive ClientOrSqlUi :=
| SqlUiObject (ui : SqlUi)
| SourceType (ty : option text).

Record ValidateArgs := {
  arg_column : option Column;
  arg_formula : option text;
  arg_columns : list Column;
  arg_clientOrSqlUi : ClientOrSqlUi
}.

(** The SDK's validator and the i18n function [t]. *)
Class Sdk := {
  validateFormulaAndExtractTreeWithType : ValidateArgs -> ParsedTree + Thrown;
  t_i18n : text -> Extra -> text
}.

(** The outcome of an asynchronous validator: the promise resolves, or it
    rejects with [new Error(message)]. *)
Inductive Validation :=
| Resolved
| Rejected (message : text).

Definition message_of (e : Thrown) : text :=
  match e with
  | FormulaError _ m | OtherError m => m
  end.

(** [validators.formula_raw[0].validator(_, formula)] *)
Definition formula_raw_validator `{Deps} `{Sdk} (formula : option text) : Validation :=
  match formula with
  | None => Rejected (lit "Required")
  | Some f =>
      if negb (truthy (trim f)) then Rejected (lit "Required")
      else
        match validateFormulaAndExtractTreeWithType
                {| arg_column := column_value;
                   arg_formula := Some f;
                   arg_columns := supportedColumns;
                   arg_clientOrSqlUi := SqlUiObject sqlUi |} with
        | inl _ => Resolved
        | inr e =>
            match e with
            | FormulaError (Some extra) _ =>
                match key extra with
                | Some k =>
                    if truthy k then Rejected (t_i18n k extra)
                    else Rejected (message_of e)
                | None => Rejected (message_of e)
                end
            | _ => Rejected (message_of e)
            end
        end
  end.

(** The model value of the component: [vModel.value]. *)
Record VModel := { formula : option text; formula_raw : option text }.

(** [a || b] on strings that may be [undefined]. *)
Definition or_else (a b : option text) : option text :=
  match a with
  | Some x => if truthy x then a else b
  | None => b
  end.

Definition parsedTree `{Deps} `{Sdk} (source_type : option text) (vModel : VModel)
  : ParsedTree :=
  match validateFormulaAndExtractTreeWithType
          {| arg_column := column_value;
             arg_formula := or_else (formula vModel) (formula_raw vModel);
             arg_columns := or_empty meta_columns;
             arg_clientOrSqlUi := SourceType source_type |} with
  | inl parsed => parsed
  | inr _ => {| dataType := UNKNOWN; sdk_properties := None |}
  end.

(** The arguments the validator hands to the SDK. *)
Definition validator_args `{Deps} (f : text) : ValidateArgs :=
  {| arg_column := column_value;
     arg_formula := Some f;
     arg_columns := supportedColumns;
     arg_clientOrSqlUi := SqlUiObject sqlUi |}.

(** The arguments [parsedTree] hands to the SDK. *)
Definition parsedTree_args `{Deps} (source_type : option text) (vModel : VModel)
  : ValidateArgs :=
  {| arg_column := column_value;
     arg_formula := or_else (formula vModel) (formula_raw vModel);
     arg_columns := or_empty meta_columns;
     arg_clientOrSqlUi := SourceType source_type |}.

(** ** The collaborator tables *)

(** A roles object: role names with their flags. *)
Definition Roles := list (text * bool).

Definition Object_keys (r : Roles) : list text := map fst r.

(** [arr.includes(x)] *)
Definition array_includes (arr : list text) (x : text) : bool :=
  existsb (text_eqb x) arr.

(** [roles?.[name]], read as a condition. *)
Definition has_flag (roles : option Roles) (name : text) : bool :=
  match roles with
  | None => false
  | Some r =>
      match find (fun kv => text_eqb (fst kv) name) r with
      | Some kv => snd kv
      | None => false
      end
  end.

Fixpoint findIndex_from (A : Type) (p : A -> bool) (arr : list A) (i : Z) : Z :=
  match arr with
  | [] => -1
  | x :: arr' => if p x then i else findIndex_from p arr' (i + 1)
  end.

(** [arr.findIndex(p)] *)
Definition findIndex (A : Type) (p : A -> bool) (arr : list A) : Z :=
  findIndex_from p arr 0.

(** [arr.slice(start)] *)
Definition slice (A : Type) (arr : list A) (start : Z) : list A :=
  let len := Z.of_nat (length arr) in
  let k := if (start <? 0)%Z then Z.max (len + start) 0 else Z.min start len in
  skipn (Z.to_nat k) arr.

(** The index of the current user's role in an ordered role list: the
    first role that is a key of the user's roles object. *)
Definition currentRoleIndex (ordered : list text) (roles : option Roles) : Z :=
  findIndex (fun role =>
               match roles with
               | Some r => array_includes (Object_keys r) role
               | None => false
               end) ordered.

(** [s?.toLowerCase().includes(search.toLowerCase())], read as a
    condition: false when [s] is missing. *)
Definition opt_includes_lower
  (toLowerCase : text -> text) (s : option text) (search : text) : bool :=
  match s with
  | Some s => includes (toLowerCase s) (toLowerCase search)
  | None => false
  end.

(** The workspace collaborators list. *)
Module WorkspaceCollaborators.

Record Collaborator := {
  id : text;
  display_name : option text;
  email : option text;
  roles : option text
}.

Definition filterCollaborators (toLowerCase : text -> text)
  (userSearchText : text) (collaborators : option (list Collaborator))
  : list Collaborator :=
  if negb (truthy userSearchText) then or_empty collaborators
  else
    match collaborators with
    | None => []
    | Some cs =>
        filter (fun collab =>
                  opt_includes_lower toLowerCase (display_name collab) userSearchText
                  || opt_includes_lower toLowerCase (email collab) userSearchText)
               cs
    end.

Definition accessibleRoles
  (OrderedWorkspaceRoles : list text) (workspaceRoles : option Roles) : list text :=
  let currentRoleIndex := currentRoleIndex OrderedWorkspaceRoles workspaceRoles in
  if (currentRoleIndex =? -1)%Z then []
  else filter truthy (slice OrderedWorkspaceRoles (currentRoleIndex + 1)).

End WorkspaceCollaborators.

(** The access settings of a base. *)
Module AccessSettings.

Record Collaborators := {
  id : text;
  email : text;
  display_name : option text;
  roles : text
}.

Definition filteredCollaborators (toLowerCase : text -> text)
  (userSearchText : text) (collaborators : list Collaborators)
  : list Collaborators :=
  filter (fun collab =>
            opt_includes_lower toLowerCase (display_name collab) userSearchText
            || includes (toLowerCase (email collab)) (toLowerCase userSearchText))
         collaborators.

Definition isSuper (SUPER_ADMIN : text) (orgRoles : option Roles) : bool :=
  has_flag orgRoles SUPER_ADMIN.

(** The value of [accessibleRoles] once [onMounted] has run; the ref
    starts as the empty list. *)
Definition accessibleRoles
  (OrderedProjectRoles : list text) (isSuper : bool) (baseRoles : option Roles)
  : list text :=
  let initial : list text := [] in
  let currentRoleIndex := currentRoleIndex OrderedProjectRoles baseRoles in
  if isSuper then slice OrderedProjectRoles 1
  else if negb (currentRoleIndex =? -1)%Z
       then slice OrderedProjectRoles (currentRoleIndex + 1)
       else initial.

End AccessSettings.

(** ** Cursor context: the enclosing function *)

(** A match of a global regular expression: where it starts, its first
    group and the [lastIndex] it leaves behind. *)
Record RegExpMatch := { index : Z; group1 : text; lastIndex : Z }.

(** The expression of [formulaRegex] tried at one position: a word
    boundary that does not follow a single or a double quote, a run of
    word characters (the first group), optional white space and an
    opening parenthesis.  [prev] is the character before the position and
    [rest] the text from it on.  The result is the name and the length of
    the whole match.  The classes of word characters and of white space
    and the parenthesis exclude each other, so the greedy choices are the
    only ones. *)
Definition formulaRegex_here (prev : option N) (rest : text) : option (text * Z) :=
  match rest with
  | [] => None
  | c :: _ =>
      let word_boundary :=
        negb (Bool.eqb (match prev with Some p => isWordChar p | None => false end)
                       (isWordChar c)) in
      let not_after_quote := negb (one_of [SQUOTE; DQUOTE] prev) in
      if word_boundary && not_after_quote && isWordChar c then
        let name := takeWhile isWordChar rest in
        let spaces := takeWhile isSpace (dropWhile isWordChar rest) in
        match dropWhile isSpace (dropWhile isWordChar rest) with
        | p :: _ =>
            if N.eqb p LPAREN
            then Some (name, text_length name + text_length spaces + 1)%Z
            else None
        | [] => None
        end
      else None
  end.

(** The search of [exec]: the first position from [pos] on where the
    expression matches. *)
Fixpoint formulaRegex_search (prev : option N) (rest : text) (pos : Z)
  : option RegExpMatch :=
  match formulaRegex_here prev rest with
  | Some (name, len) =>
      Some {| index := pos; group1 := name; lastIndex := (pos + len)%Z |}
  | None =>
      match rest with
      | [] => None
      | c :: rest' => formulaRegex_search (Some c) rest' (pos + 1)
      end
  end.

(** [formulaRegex.exec(text)] with the expression's [lastIndex] at [from]. *)
Definition formulaRegex_exec (t : text) (from : Z) : option RegExpMatch :=
  formulaRegex_search (charAt t (from - 1)) (skipn (Z.to_nat from) t) from.

(** The loop
    [while ((quoteMatch = quoteRegex.exec(text)) !== null
            && quoteMatch.index < match.index) inQuote = !inQuote]
    read from the position [pos] the quote expression stopped at, [rest]
    being the text from there.  It yields [inQuote] and the [lastIndex] of
    the quote expression: 0 after a failed search, the position after the
    quote found otherwise, also when that quote ends the loop. *)
Fixpoint quote_while (rest : text) (pos : Z) (matchIndex : Z) (inQuote : bool)
  : bool * Z :=
  match rest with
  | [] => (inQuote, 0%Z)
  | c :: rest' =>
      if N.eqb c DQUOTE then
        if (pos <? matchIndex)%Z
        then quote_while rest' (pos + 1) matchIndex (negb inQuote)
        else (inQuote, (pos + 1)%Z)
      else quote_while rest' (pos + 1) matchIndex inQuote
  end.

Record FunctionData := { name : text; start : Z; end_ : Z }.

Definition set_end (e : Z) (fd : FunctionData) : FunctionData :=
  {| name := name fd; start := start fd; end_ := e |}.

(** The variables of the scan after the opening parenthesis. *)
Record Scan := {
  functionData : FunctionData;
  parenBalance : Z;
  childValueStart : Z;
  childValueEnd : Z
}.

(** How the scan ends: by [break] or at the end of the text, having
    pushed [functionData] on the stack inside the loop or not, or by
    returning the nested function. *)
Inductive ScanExit :=
| Break (s : Scan) (pushed : bool)
| ReturnNested (nestedFunction : text).

(** The child value handling of one iteration. *)
Definition child_value (char : option N) (i : Z) (s : Scan) : Scan :=
  if (childValueStart s =? -1)%Z && one_of [LPAREN; COMMA; LBRACE] char then
    {| functionData := functionData s; parenBalance := parenBalance s;
       childValueStart := i; childValueEnd := childValueEnd s |}
  else if negb (childValueStart s =? -1)%Z && one_of [LPAREN; COMMA; LBRACE] char then
    {| functionData := functionData s; parenBalance := parenBalance s;
       childValueStart := i; childValueEnd := childValueEnd s |}
  else if negb (childValueStart s =? -1)%Z && one_of [RBRACE; COMMA; RPAREN] char then
    {| functionData := functionData s; parenBalance := parenBalance s;
       childValueStart := -1; childValueEnd := i |}
  else s.

Definition set_balance (b : Z) (s : Scan) : Scan :=
  {| functionData := functionData s; parenBalance := b;
     childValueStart := childValueStart s; childValueEnd := childValueEnd s |}.

Definition set_scan_end (e : Z) (s : Scan) : Scan :=
  {| functionData := set_end e (functionData s); parenBalance := parenBalance s;
     childValueStart := childValueStart s; childValueEnd := childValueEnd s |}.

(** The result of a call of [findEnclosingFunction]: a name or [null]. *)
Definition Enclosing := option text.

(** [for (let i = formulaRegex.lastIndex; i < text.length; i++)]: [rest]
    is the text from [i] on.  [self] is [findEnclosingFunction] itself,
    for the nested call; it may fail to answer within its fuel. *)
Fixpoint scan_arguments
  (self : text -> Z -> option Enclosing) (t : text) (offset : Z)
  (match1_length : Z) (rest : text) (i : Z) (s : Scan) : option ScanExit :=
  match rest with
  | [] => Some (Break s false)
  | c :: rest' =>
      let char := Some c in
      let after_paren :=
        if is_char char LPAREN then inr (set_balance (parenBalance s + 1) s)
        else if is_char char RPAREN then
          let s := set_balance (parenBalance s - 1) s in
          if (parenBalance s =? 0)%Z then inl (set_scan_end (i + 1) s)
          else inr s
        else inr s in
      match after_paren with
      | inl s => Some (Break s false)
      | inr s =>
          let s := child_value char i s in
          if (i >=? offset)%Z then
            if (parenBalance s >? 0)%Z then
              Some (Break (set_scan_end (i + 1) s) false)
            else
              match self
                      (substring t (start (functionData s) + match1_length + 1) i)
                      (offset - start (functionData s) - match1_length - 1)%Z with
              | None => None
              | Some (Some nestedFunction) =>
                  if truthy nestedFunction
                  then Some (ReturnNested nestedFunction)
                  else Some (Break s true)
              | Some None => Some (Break s true)
              end
          else scan_arguments self t offset match1_length rest' (i + 1) s
      end
  end.

(** The state of the [while] loop over the matches. *)
Record Matching := {
  functionStack : list FunctionData;
  inQuote : bool;
  formulaRegex_lastIndex : Z;
  quoteRegex_lastIndex : Z
}.

(** The part after the loop: the last function on the stack whose span
    holds the offset. *)
Definition enclosing_of (functionStack : list FunctionData) (offset : Z) : Enclosing :=
  let enclosingFunctions :=
    filter (fun func => (start func <=? offset)%Z && (end_ func >=? offset)%Z)
           functionStack in
  match rev enclosingFunctions with
  | [] => None
  | func :: _ => Some (name func)
  end.

(** The [while] loop over the matches of the formula expression; [fuel]
    bounds the number of matches it may still read. *)
Fixpoint while_matches
  (self : text -> Z -> option Enclosing) (t : text) (offset : Z)
  (fuel : nat) (m : Matching) : option Enclosing :=
  match fuel with
  | O => None
  | S fuel' =>
      match formulaRegex_exec t (formulaRegex_lastIndex m) with
      | None => Some (enclosing_of (functionStack m) offset)
      | Some match_ =>
          if (index match_ >? offset)%Z
          then Some (enclosing_of (functionStack m) offset)
          else
            let quotes stack :=
              let (q, ql) :=
                quote_while (skipn (Z.to_nat (quoteRegex_lastIndex m)) t)
                            (quoteRegex_lastIndex m) (index match_) (inQuote m) in
              {| functionStack := stack; inQuote := q;
                 formulaRegex_lastIndex := lastIndex match_;
                 quoteRegex_lastIndex := ql |} in
            if negb (inQuote m) then
              let fresh :=
                {| name := group1 match_; start := index match_;
                   end_ := lastIndex match_ |} in
              match scan_arguments self t offset (text_length (group1 match_))
                      (skipn (Z.to_nat (lastIndex match_)) t) (lastIndex match_)
                      {| functionData := fresh; parenBalance := 1;
                         childValueStart := -1; childValueEnd := -1 |} with
              | None => None
              | Some (ReturnNested nestedFunction) => Some (Some nestedFunction)
              | Some (Break s pushed) =>
                  let s :=
                    if negb (childValueEnd s =? -1)%Z && (childValueEnd s <? offset)%Z
                    then set_scan_end (childValueEnd s + 1) s else s in
                  let stack :=
                    functionStack m
                    ++ (if pushed then [functionData s] else [])
                    ++ [functionData s] in
                  while_matches self t offset fuel' (quotes stack)
              end
            else while_matches self t offset fuel' (quotes (functionStack m))
      end
  end.

(** One call of [findEnclosingFunction], its nested calls going to [self]. *)
Definition findEnclosingFunction_body
  (self : text -> Z -> option Enclosing) (t : text) (offset : Z)
  : option Enclosing :=
  while_matches self t offset (S (length t))
    {| functionStack := []; inQuote := false;
       formulaRegex_lastIndex := 0; quoteRegex_lastIndex := 0 |}.

(** [findEnclosingFunction] with a bound on the depth of nested calls. *)
Fixpoint findEnclosingFunction_depth (depth : nat) (t : text) (offset : Z)
  : option Enclosing :=
  match depth with
  | O => None
  | S depth' => findEnclosingFunction_body (findEnclosingFunction_depth depth') t offset
  end.

(** A nested call reads a shorter text, so the length of the text bounds
    the depth. *)
Definition findEnclosingFunction (t : text) (offset : Z) : option Enclosing :=
  findEnclosingFunction_depth (S (length t)) t offset.

(** ** The enclosing function, position by position

    A second reading of the scan, in terms of the positions of the text,
    against which [findEnclosingFunction] is checked. *)

(** Every match of the formula expression in a text: [prev] is the
    character before [rest], which starts at [pos]. *)
Fixpoint calls_in (prev : option N) (rest : text) (pos : Z) : list RegExpMatch :=
  match rest with
  | [] => []
  | c :: rest' =>
      match formulaRegex_here prev rest with
      | Some (name, len) =>
          [{| index := pos; group1 := name; lastIndex := (pos + len)%Z |}]
      | None => []
      end ++ calls_in (Some c) rest' (pos + 1)
  end.

(** The function calls of a text, in the order of their positions. *)
Definition calls (t : text) : list RegExpMatch := calls_in None t 0.

Definition is_opener (c : N) : bool :=
  N.eqb c LPAREN || N.eqb c COMMA || N.eqb c LBRACE.

Definition is_closer (c : N) : bool := N.eqb c RBRACE || N.eqb c RPAREN.

Definition is_delimiter (c : N) : bool := is_opener c || is_closer c.

(** The parentheses a piece of text opens and does not close. *)
Definition depth (piece : text) : Z :=
  Z.of_nat (count_occ N.eq_dec piece LPAREN)
  - Z.of_nat (count_occ N.eq_dec piece RPAREN).

(** In the arguments of a call, the character at [j] is a closing
    parenthesis that nothing before it has opened: it closes the call. *)
Definition closes_at (args : text) (j : nat) : bool :=
  is_char (nth_error args j) RPAREN && (depth (firstn j args) =? 0)%Z.


(** The nearest delimiter before the end of a piece of text is an opening
    parenthesis, a comma or an opening brace. *)
Definition after_opener (piece : text) : bool :=
  match find is_delimiter (rev piece) with
  | Some d => is_opener d
  | None => false
  end.

(** A child value ends at [j]: a closing parenthesis or brace whose
    nearest delimiter before it, within the arguments, is an opening one. *)
Definition child_ends_at (args : text) (j : nat) : bool :=
  match nth_error args j with
  | Some c => is_closer c && after_opener (firstn j args)
  | None => false
  end.

(** The last position before [handled] where a child value ends. *)
Definition last_child_end (args : text) (handled : nat) : option nat :=
  find (child_ends_at args) (rev (seq 0 handled)).

(** The scan of the arguments halts at the first position that closes the
    call or has reached the offset; [from] is the position of the
    arguments in the text. *)
Definition halt (args : text) (from offset : Z) : option nat :=
  find (fun j => closes_at args j || (offset <=? from + Z.of_nat j)%Z)
       (seq 0 (length args)).



(** The matches from a position of a text on. *)
Definition calls_from (t : text) (from : Z) : list RegExpMatch :=
  calls_in (charAt t (from - 1)) (skipn (Z.to_nat from) t) from.

(** The value of [childValueEnd] for a last child end. *)
Definition childValueEnd_of (from : Z) (p : option nat) : Z :=
  match p with
  | Some p => (from + Z.of_nat p)%Z
  | None => (-1)%Z
  end.

(** What the variables of the scan hold when the positions of [done], the
    start of the arguments, have been handled. *)
Definition scan_invariant (args : text) (from : Z) (done : text) (s : Scan) : Prop :=
  (parenBalance s = 1 + depth done)%Z /\
  (0 <= depth done)%Z /\
  (negb (childValueStart s =? -1)%Z = after_opener done) /\
  (childValueEnd s = childValueEnd_of from (last_child_end args (length done))).



(** The positions of the double quotes of a text; [rest] is the text from
    [pos] on. *)
Fixpoint quotes_in (rest : text) (pos : Z) : list Z :=
  match rest with
  | [] => []
  | c :: rest' =>
      (if N.eqb c DQUOTE then [pos] else []) ++ quotes_in rest' (pos + 1)
  end.

Definition quotes (t : text) : list Z := quotes_in t 0.

(** The quote tracking: whether it takes the scan to be inside a quote,
    and the position from which it goes on looking for double quotes. *)
Record Tracking := { inside : bool; resume : Z }.

(** The tracking after a call that starts at [call] has been read.  Of the
    double quotes from [resume] on, each one before the start of the call
    flips the tracking; the first one after the start of the call is
    passed without a flip, and the tracking resumes after it.  When there
    is none, the tracking resumes at the start of the text. *)
Definition track (t : text) (call : Z) (s : Tracking) : Tracking :=
  let ahead := filter (fun q => (resume s <=? q)%Z) (quotes t) in
  {| inside :=
       xorb (inside s)
            (Nat.odd (length (filter (fun q => (q <? call)%Z) ahead)));
     resume :=
       match filter (fun q => (call <=? q)%Z) ahead with
       | q :: _ => (q + 1)%Z
       | [] => 0%Z
       end |}.

(** The calls pushed on the stack among the calls read: those read while
    the tracking is not inside a quote. *)
Fixpoint pushed (t : text) (s : Tracking) (read : list RegExpMatch)
  : list RegExpMatch :=
  match read with
  | [] => []
  | m :: read' =>
      (if inside s then [] else [m]) ++ pushed t (track t (index m) s) read'
  end.


(** *** The innermost enclosing call

    The plain reading: a call is an identifier directly followed by its
    parenthesis, outside double-quoted strings; it encloses the offset
    from its identifier to its balancing parenthesis, or as long as it is
    open. *)





(** The search text occurs in a string, letter case set aside. *)
Definition contains_ci (toLowerCase : text -> text) (s search : text) : Prop :=
  exists pre post, toLowerCase s = pre ++ toLowerCase search ++ post.

(** ** Sample data

    A one-line model, an editor on it and small instances of the
    dependencies, used to run the definitions on concrete inputs. *)

Module Sample.

(** A model holding one line; the offset of a position is its column
    minus one. *)
Definition one_line (value : text) (word : option text) : Model :=
  {| getValue := value;
     getOffsetAt := fun p => (column p - 1)%Z;
     getLineContent := fun _ => value;
     getWordAtPosition := fun _ => word |}.

Definition editor_at (value : text) (word : option text) (col : Z) : Editor :=
  {| getModel := Some (one_line value word);
     getPosition := Some {| lineNumber := 1; column := col |};
     executed := [] |}.

Definition no_doc : FormulaDoc :=
  {| description := []; syntax := []; examples := []; docsUrl := None |}.

Definition title_column : Column :=
  {| col_id := Some (lit "c1"); col_title := lit "Title";
     col_uidt := OtherUIType (lit "SingleLineText"); col_system := false |}.

Definition links_column : Column :=
  {| col_id := Some (lit "c2"); col_title := lit "Links";
     col_uidt := LinkToAnotherRecord; col_system := true |}.

Definition code_column : Column :=
  {| col_id := Some (lit "c3"); col_title := lit "Code";
     col_uidt := QrCode; col_system := false |}.

(** The sort of the V8 engine on an array of fewer than 64 elements, the
    length from which it starts to merge runs.  [CountAndMakeRun] finds
    the run the array starts with, ascending or strictly descending, and
    reverses a descending one; [BinaryInsertionSort] then inserts the
    elements after the run one by one, each at the place a binary search
    finds in the sorted part. *)
Section TimSort.

Variable A : Type.
Variable comparefn : A -> A -> Z.

(** The loop of [CountAndMakeRun] after the first two elements: the
    number of further elements on the run. *)
Fixpoint run_tail (isDescending : bool) (previousElement : A) (rest : list A)
  : nat :=
  match rest with
  | [] => 0
  | currentElement :: rest' =>
      let order := comparefn currentElement previousElement in
      if (if isDescending then (order >=? 0)%Z else (order <? 0)%Z) then 0
      else S (run_tail isDescending currentElement rest')
  end.

(** The run, made ascending, and the elements after it. *)
Definition CountAndMakeRun (workArray : list A) : list A * list A :=
  match workArray with
  | elementHigh :: elementLow :: rest =>
      let isDescending := (comparefn elementLow elementHigh <? 0)%Z in
      let runLength := (2 + run_tail isDescending elementLow rest)%nat in
      let run := firstn runLength workArray in
      (if isDescending then rev run else run, skipn runLength workArray)
  | _ => (workArray, [])
  end.

(** The search for the place of the pivot between [left] and [right]. *)
Fixpoint insertion_point
  (pivot : A) (sorted : list A) (fuel : nat) (left right : nat) : nat :=
  match fuel with
  | O => left
  | S fuel' =>
      if (left <? right)%nat then
        let mid := (left + (right - left) / 2)%nat in
        match nth_error sorted mid with
        | Some element =>
            if (comparefn pivot element <? 0)%Z
            then insertion_point pivot sorted fuel' left mid
            else insertion_point pivot sorted fuel' (mid + 1) right
        | None => left
        end
      else left
  end.

Fixpoint BinaryInsertionSort (sorted rest : list A) : list A :=
  match rest with
  | [] => sorted
  | pivot :: rest' =>
      let left :=
        insertion_point pivot sorted (length sorted) 0 (length sorted) in
      BinaryInsertionSort (firstn left sorted ++ pivot :: skipn left sorted) rest'
  end.

Definition ArrayTimSort (workArray : list A) : list A :=
  let (run, rest) := CountAndMakeRun workArray in
  BinaryInsertionSort run rest.

End TimSort.

(** Completion by prefix, in the order of the suggestions. *)
Definition complete_prefix (sugs : list Suggestion) (word : text)
  : option (list Suggestion) :=
  Some (filter (fun s => startsWith (sug_text s) word) sugs).

#[export] Instance deps : Deps :=
  {| availableFunctions := [lit "AVG"; lit "SUM"; lit "TRIM"];
     formulas := fun _ => no_doc;
     sqlUi := {| getUnsupportedFnList := [lit "AVG"] |};
     meta_columns := Some [title_column; links_column; code_column];
     isHiddenCol := fun _ => false;
     column_value := None;
     complete := complete_prefix;
     monaco_edit := fun ed _ => (getModel ed, getPosition ed);
     Array_sort := @ArrayTimSort Suggestion |}.

Definition total_column : Column :=
  {| col_id := Some (lit "c4"); col_title := lit "Total";
     col_uidt := OtherUIType (lit "Number"); col_system := false |}.

(** The same table with a second column to offer. *)
Definition deps_two_columns : Deps :=
  {| availableFunctions := [lit "AVG"; lit "SUM"; lit "TRIM"];
     formulas := fun _ => no_doc;
     sqlUi := {| getUnsupportedFnList := [lit "AVG"] |};
     meta_columns := Some [title_column; total_column];
     isHiddenCol := fun _ => false;
     column_value := None;
     complete := complete_prefix;
     monaco_edit := fun ed _ => (getModel ed, getPosition ed);
     Array_sort := @ArrayTimSort Suggestion |}.

Definition state_at `{Deps} (value : text) (word : option text) (col : Z) : State :=
  {| editor := Some (editor_at value word col);
     autocomplete := true;
     suggestion := Some suggestionsList;
     selected := 0;
     priority := 0;
     wordToComplete := [];
     showFunctionList := true |}.

(** An SDK that accepts formulas starting with a letter S. *)
#[export] Instance sdk : Sdk :=
  {| validateFormulaAndExtractTreeWithType := fun args =>
       match arg_formula args with
       | Some (83%N :: _) =>
           inl {| dataType := NUMERIC; sdk_properties := Some [] |}
       | _ =>
           inr (FormulaError
                  (Some {| key := Some (lit "msg.formula.invalid");
                           extra_fields := [] |})
                  (lit "Invalid formula"))
       end;
     t_i18n := fun k _ => lit "translated: " ++ k |}.

(** Lower case on the letters A to Z. *)
Definition ascii_lower (s : text) : text :=
  map (fun c => if ((65 <=? c) && (c <=? 90))%N then (c + 32)%N else c) s.

Definition OrderedProjectRoles : list text :=
  map lit ["owner"; "creator"; "editor"; "commenter"; "viewer"; "no-access"]%string.

Definition OrderedWorkspaceRoles : list text :=
  map (fun r => lit "workspace-level-" ++ r) OrderedProjectRoles.

End Sample.

(** ** The formula editor: moving through the suggestions *)




(** The row the template highlights: the formula at the selected index,
    or the field at the selected index less the number of formulas. *)
Definition highlighted (sugg : list Suggestion) (selected : Z) : option Suggestion :=
  if (selected <? Z.of_nat (length (suggestedFormulas sugg)))%Z
  then at_index (suggestedFormulas sugg) selected
  else at_index (variableList sugg)
                (selected - Z.of_nat (length (suggestedFormulas sugg))).

(** The longest suffix of a string made of word characters. *)
Definition word_suffix (query : text) : text :=
  rev (takeWhile isWordChar (rev query)).

(** The columns the suggestion list offers. *)
Definition offered_column `{Deps} (c : Column) : Prop :=
  col_uidt c <> QrCode /\ col_uidt c <> Barcode /\
  isHiddenCol c = false /\
  ~ (col_uidt c = LinkToAnotherRecord /\ col_system c = true) /\
  col_id c <> match column_value with Some cv => col_id cv | None => None end.

Definition function_entry `{Deps} (fn : text) : Suggestion :=
  {| sug_text := fn ++ lit "()"; sug_type := type_function;
     doc := Some (formulas fn); uidt := None;
     unsupported := existsb (text_eqb fn) (getUnsupportedFnList sqlUi) |}.

Definition column_entry (c : Column) : Suggestion :=
  {| sug_text := col_title c; sug_type := type_column; doc := None;
     uidt := Some (col_uidt c); unsupported := false |}.

Definition op_entry (o : text) : Suggestion :=
  {| sug_text := o; sug_type := type_op; doc := None; uidt := None;
     unsupported := false |}.

(** ** The formula editor: when the cursor moves *)



(** ** The tables: the selection of rows *)

(** The reactive object [selected]: keys with their flags, each key once. *)
Definition Selection (K : Type) := list (K * bool).

(** [selected[k] = value] *)
Fixpoint selection_set (K : Type) (eqb : K -> K -> bool)
  (k : K) (value : bool) (selected : Selection K) : Selection K :=
  match selected with
  | [] => [(k, value)]
  | (k', v') :: rest =>
      if eqb k' k then (k', value) :: rest
      else (k', v') :: selection_set eqb k value rest
  end.

(** [selected[k]], [undefined] for a key that was never set *)
Definition selection_get (K : Type) (eqb : K -> K -> bool)
  (k : K) (selected : Selection K) : option bool :=
  option_map snd (find (fun kv => eqb (fst kv) k) selected).

(** The getter of [selectAll], [n] being the length of the list the
    table compares with. *)
Definition selectAll_get (K : Type) (selected : Selection K) (n : nat) : bool :=
  forallb (fun v => v) (map snd selected)
  && (0 <? length (map fst selected))%nat
  && (length (map snd selected) =? n)%nat.

Definition base_toggleSelectAll (value : bool)
  (filteredCollaborators : list AccessSettings.Collaborators)
  (selected : Selection text) : Selection text :=
  fold_left (fun sel c => selection_set text_eqb (AccessSettings.id c) value sel)
            filteredCollaborators selected.

Definition workspace_toggleSelectAll (value : bool)
  (filterCollaborators : list WorkspaceCollaborators.Collaborator)
  (selected : Selection nat) : Selection nat :=
  fold_left (fun sel i => selection_set Nat.eqb i value sel)
            (seq 0 (length filterCollaborators)) selected.

(** ** The tables: the name shown for a collaborator *)

Fixpoint indexOf_from (c : N) (s : text) (i : Z) : Z :=
  match s with
  | [] => -1
  | x :: s' => if N.eqb x c then i else indexOf_from c s' (i + 1)
  end.

(** [s.indexOf(c)] for a one-character string [c] *)
Definition indexOf (s : text) (c : N) : Z := indexOf_from c s 0.

(** [s.slice(0, end)]: a negative end counts from the end of the string. *)
Definition slice_to (s : text) (end_ : Z) : text :=
  let len := text_length s in
  let k := if (end_ <? 0)%Z then Z.max (len + end_) 0 else Z.min end_ len in
  firstn (Z.to_nat k) s.

Definition AT_SIGN : N := 64.

(** [record.display_name || record.email.slice(0, record.email.indexOf('@'))] *)
Definition display_label (record : AccessSettings.Collaborators) : text :=
  match AccessSettings.display_name record with
  | Some (c :: n) => c :: n
  | _ =>
      slice_to (AccessSettings.email record)
               (indexOf (AccessSettings.email record) AT_SIGN)
  end.

(** ** The base settings: loading members and changing a role *)

Module BaseMembers.

(** A user as [getBaseUsers] returns it. *)
Record User := {
  user_id : text;
  user_roles : option text;
  user_workspace_roles : option text;
  user_deleted : bool
}.

(** A collaborator with the fields that loading and the change of a role
    read and write. *)
Record Member := {
  id : text;
  roles : text;
  base_roles : option text;
  workspace_roles : option text
}.

(** The constants of the SDK the component uses. *)
Class Constants := {
  NO_ACCESS : text;
  WorkspaceRolesToProjectRoles : text -> option text;
  isEeUI : bool
}.

(** [s ? a : b] on a string that may be missing *)
Definition truthy_opt (s : option text) : bool :=
  match s with Some s => truthy s | None => false end.

(** The role inherited from the workspace:
    [workspace_roles ? WorkspaceRolesToProjectRoles[workspace_roles] ?? NO_ACCESS : NO_ACCESS] *)
Definition inherited `{Constants} (workspace_roles : option text) : text :=
  match workspace_roles with
  | Some w =>
      if truthy w then
        match WorkspaceRolesToProjectRoles w with
        | Some r => r
        | None => NO_ACCESS
        end
      else NO_ACCESS
  | None => NO_ACCESS
  end.

(** The members [loadCollaborators] stores for the users it received. *)
Definition loaded `{Constants} (users : list User) : list Member :=
  map (fun user =>
         {| id := user_id user;
            roles := match user_roles user with
                     | Some r => r
                     | None => inherited (user_workspace_roles user)
                     end;
            base_roles := user_roles user;
            workspace_roles := user_workspace_roles user |})
      (filter (fun u => negb (user_deleted u)) users).

(** [loadCollaborators]: nothing without a current base, and nothing when
    the request fails. *)
Definition loadCollaborators `{Constants}
  (currentBase : bool) (getBaseUsers : option (list User))
  (collaborators : list Member) : list Member :=
  if negb currentBase then collaborators
  else
    match getBaseUsers with
    | Some users => loaded users
    | None => collaborators
    end.

Inductive ApiCall :=
| removeProjectUser (user : Member)
| updateProjectUser (user : Member)
| createProjectUser (user : Member).

(** The workspace role of the member maps to the chosen role, in the
    enterprise UI. *)
Definition same_as_inherited `{Constants} (cur : Member) (role : text) : bool :=
  truthy_opt (workspace_roles cur)
  && match workspace_roles cur with
     | Some w =>
         match WorkspaceRolesToProjectRoles w with
         | Some r => text_eqb r role
         | None => false
         end
     | None => false
     end
  && isEeUI.

Definition set_roles (r : text) (m : Member) : Member :=
  {| id := id m; roles := r; base_roles := base_roles m;
     workspace_roles := workspace_roles m |}.

Definition set_base_roles (r : option text) (m : Member) : Member :=
  {| id := id m; roles := roles m; base_roles := r;
     workspace_roles := workspace_roles m |}.

(** [WorkspaceRolesToProjectRoles[cur.workspace_roles]], as it is assigned
    to [roles]; the empty string stands for a missing entry, which the
    condition before the assignment excludes. *)
Definition mapped_role `{Constants} (cur : Member) : text :=
  match workspace_roles cur with
  | Some w =>
      match WorkspaceRolesToProjectRoles w with
      | Some r => r
      | None => []
      end
  | None => []
  end.

(** The body of the [try] of [updateCollaborator] on the member found,
    up to the call it awaits: the member as it is left, the call made and
    whether the call resolved.  [api] tells whether a call resolves; the
    chosen role is the parameter [roles] of the source. *)
Definition change_role `{Constants} (api : ApiCall -> bool)
  (cur : Member) (role : text) : Member * ApiCall * bool :=
  if negb (truthy role)
     || (text_eqb role NO_ACCESS && negb isEeUI)
     || same_as_inherited cur role
  then
    if api (removeProjectUser cur) then
      let cur' :=
        if same_as_inherited cur role
        then set_roles (mapped_role cur) cur
        else set_roles NO_ACCESS cur in
      (set_base_roles None cur', removeProjectUser cur, true)
    else (cur, removeProjectUser cur, false)
  else if truthy_opt (base_roles cur) then
    let cur := set_roles role cur in
    (cur, updateProjectUser cur, api (updateProjectUser cur))
  else
    let cur := set_base_roles (Some role) (set_roles role cur) in
    (cur, createProjectUser cur, api (createProjectUser cur)).

(** Replace the first member with the given id; [find] returns that one. *)
Fixpoint replace_first (i : text) (m' : Member) (l : list Member) : list Member :=
  match l with
  | [] => []
  | m :: l' => if text_eqb (id m) i then m' :: l' else m :: replace_first i m' l'
  end.

(** What [updateCollaborator] leaves. *)
Record Updated := {
  collaborators : list Member;
  (** the users of the base kept by the store, [basesUser.get(base)] *)
  baseUsers : option (list Member);
  call : ApiCall;
  (** [loadCollaborators()] was called in the [catch] *)
  reloads : bool
}.

(** [updateCollaborator(collab, roles)].  The member is looked up by the
    id of [collab]; the source asserts that it is found, and the result
    is [None] when it is not. *)
Definition updateCollaborator `{Constants} (api : ApiCall -> bool)
  (collab_id : text) (role : text)
  (members : list Member) (users : option (list Member))
  : option Updated :=
  match find (fun coll => text_eqb (id coll) collab_id) members with
  | None => None
  | Some currentCollaborator =>
      let '(cur, made, ok) := change_role api currentCollaborator role in
      let members := replace_first collab_id cur members in
      if ok then
        let users :=
          match users with
          | Some (u :: us) =>
              Some (map (fun user =>
                           if text_eqb (id user) (id cur)
                           then set_roles (roles cur) user else user)
                        (u :: us))
          | other => other
          end in
        Some {| collaborators := members; baseUsers := users;
                call := made; reloads := false |}
      else
        Some {| collaborators := members; baseUsers := users;
                call := made; reloads := true |}
  end.

(** Sample data: the role constants of the community edition, and a
    member who has the role of a viewer from the workspace. *)
Definition sample_constants : Constants :=
  {| NO_ACCESS := lit "no-access";
     WorkspaceRolesToProjectRoles := fun w =>
       option_map snd
         (find (fun kv => text_eqb (fst kv) w)
               (map (fun r => (lit "workspace-level-" ++ lit r, lit r))
                    ["owner"; "creator"; "editor"; "commenter"; "viewer";
                     "no-access"]%string));
     isEeUI := false |}.

Definition sample_member : Member :=
  {| id := lit "u1"; roles := lit "viewer"; base_roles := None;
     workspace_roles := Some (lit "workspace-level-viewer") |}.

End BaseMembers.

(** * Properties *)

Unset Implicit Arguments.

(** ** Lists *)

Lemma filter_none (A : Type) (f : A -> bool) (l : list A) :
  (forall a, In a l -> f a = false) -> filter f l = [].
Proof.
  intros Hf. induction l as [| a l IH]; simpl; auto.
  rewrite (Hf a) by now left. apply IH. intros b Hb. apply Hf. now right.
Qed.

Lemma filter_every (A : Type) (f : A -> bool) (l : list A) :
  (forall a, In a l -> f a = true) -> filter f l = l.
Proof.
  intros Hf. induction l as [| a l IH]; simpl; auto.
  rewrite (Hf a) by now left. f_equal. apply IH. intros b Hb. apply Hf. now right.
Qed.

(** ** Strings *)

Lemma quote_step_undefined st :
  inSingleQuoteString (quote_step st None) = inSingleQuoteString st /\
  inDoubleQuoteString (quote_step st None) = inDoubleQuoteString st.
Proof.
  unfold quote_step. destruct (escapeNextChar st); simpl; auto.
Qed.

Lemma charAt_of_nat (t : text) (k : nat) :
  charAt t (Z.of_nat k) = nth_error t k.
Proof.
  unfold charAt. destruct (Z.ltb_spec (Z.of_nat k) 0); [lia |].
  now rewrite Nat2Z.id.
Qed.

Lemma skipn_nth_error (A : Type) (l : list A) (k : nat) :
  skipn k l = match nth_error l k with
              | Some c => c :: skipn (S k) l
              | None => []
              end.
Proof.
  revert k; induction l as [| a l IH]; intros [| k]; simpl; auto.
Qed.

Lemma quote_step_escaped st char :
  escapeNextChar st = true ->
  lex_of (quote_step st char) = lex_of st /\
  escapeNextChar (quote_step st char) = false /\
  (quote_wf st -> quote_wf (quote_step st char)).
Proof.
  intros E. unfold quote_step, lex_of, quote_wf. rewrite E. simpl. auto.
Qed.

Lemma quote_step_backslash st :
  escapeNextChar st = false ->
  lex_of (quote_step st (Some BACKSLASH)) = lex_of st /\
  escapeNextChar (quote_step st (Some BACKSLASH)) = true /\
  (quote_wf st -> quote_wf (quote_step st (Some BACKSLASH))).
Proof.
  intros E. unfold quote_step, lex_of, quote_wf. rewrite E. simpl. auto.
Qed.

Lemma quote_step_plain st c :
  escapeNextChar st = false -> N.eqb c BACKSLASH = false -> quote_wf st ->
  lex_of (quote_step st (Some c)) = lex_quote (lex_of st) c /\
  escapeNextChar (quote_step st (Some c)) = false /\
  quote_wf (quote_step st (Some c)).
Proof.
  intros E B W. unfold quote_step, lex_of, quote_wf, lex_quote in *.
  rewrite E. simpl. rewrite B.
  destruct st as [s d e]; simpl in *; subst e.
  destruct (N.eqb_spec c SQUOTE) as [-> | Hs];
    destruct s, d; simpl in *; try discriminate; auto;
    destruct (N.eqb_spec c DQUOTE); simpl; auto.
Qed.

(** The loop over indices agrees with the lexer over the characters it
    visits; a pending escape swallows the first of them. *)
Lemma quote_loop_lex (t : text) (n : nat) :
  forall (k : nat) (st : QuoteScan),
    quote_wf st ->
    lex_of (quote_loop t (Z.of_nat k) n st) =
    if escapeNextChar st
    then lex (lex_of st) (tl (firstn n (skipn k t)))
    else lex (lex_of st) (firstn n (skipn k t)).
Proof.
  induction n as [| n IH]; intros k st W.
  - simpl. now destruct (escapeNextChar st).
  - cbn [quote_loop]. replace (Z.of_nat k + 1)%Z with (Z.of_nat (S k)) by lia.
    rewrite charAt_of_nat, (skipn_nth_error _ t k).
    destruct (nth_error t k) as [c |] eqn:Hc.
    + cbn [firstn tl].
      destruct (escapeNextChar st) eqn:E.
      * destruct (quote_step_escaped st (Some c) E) as (L & E' & W').
        rewrite IH by auto. now rewrite E', L.
      * destruct (N.eqb_spec c BACKSLASH) as [-> | Hb].
        -- destruct (quote_step_backslash st E) as (L & E' & W').
           rewrite IH by auto. rewrite E', L. cbn [lex].
           rewrite N.eqb_refl.
           now destruct (firstn n (skipn (S k) t)).
        -- apply N.eqb_neq in Hb.
           destruct (quote_step_plain st c E Hb W) as (L & E' & W').
           rewrite IH by auto. rewrite E', L. cbn [lex]. now rewrite Hb.
    + assert (Hnil : skipn (S k) t = []).
      { apply skipn_all2. apply nth_error_None in Hc. lia. }
      rewrite IH.
      * rewrite Hnil, firstn_nil. simpl.
        destruct (quote_step_undefined st) as [Hs Hd].
        unfold lex_of. rewrite Hs, Hd.
        now destruct (escapeNextChar (quote_step st None)), (escapeNextChar st).
      * unfold quote_wf. destruct (quote_step_undefined st) as [-> ->]. exact W.
Qed.

Lemma isCursorInsideString_lex (t : text) (offset : Z) :
  isCursorInsideString t offset = unterminated (lex Code (prefix_before t offset)).
Proof.
  unfold isCursorInsideString, prefix_before.
  pose proof (quote_loop_lex t (Z.to_nat offset) 0 quote_init eq_refl) as H.
  change (Z.of_nat 0) with 0%Z in H.
  change (escapeNextChar quote_init) with false in H.
  change (lex_of quote_init) with Code in H.
  change (skipn 0 t) with t in H.
  rewrite <- H. unfold lex_of.
  set (st := quote_loop t 0 (Z.to_nat offset) quote_init).
  destruct (inSingleQuoteString st), (inDoubleQuoteString st); reflexivity.
Qed.

(** C2. [isCursorInsideString] is true exactly when the lexer that reads
    the prefix of the text before the offset, with a backslash swallowing
    the next character and each kind of quote inert inside a string of the
    other kind, ends inside a string; and when it is true [handleInput]
    returns with autocomplete off and an empty suggestion list, having
    computed no completions: the selected index, the priority, the word to
    complete and the editor are as they were. *)
Theorem isCursorInsideString_correct
  `{Deps} (st : State) (ed : Editor) (model : Model) (position : Position) :
  editor st = Some ed ->
  getModel ed = Some model ->
  getPosition ed = Some position ->
  (forall (t : text) (offset : Z),
      isCursorInsideString t offset = true <->
      lex Code (prefix_before t offset) <> Code) /\
  (forall (s : Lex) (c : N) (t : text), lex s (BACKSLASH :: c :: t) = lex s t) /\
  lex_quote DoubleQuoted SQUOTE = DoubleQuoted /\
  lex_quote SingleQuoted DQUOTE = SingleQuoted /\
  (isCursorInsideString (getValue model) (getOffsetAt model position) = true ->
   exists st',
     handleInput st = Returned st' /\
     autocomplete st' = false /\
     suggestion st' = Some [] /\
     editor st' = editor st /\
     selected st' = selected st /\
     priority st' = priority st /\
     wordToComplete st' = wordToComplete st /\
     showFunctionList st' = showFunctionList st).
Proof.
  intros He Hm Hp. repeat split.
  - rewrite isCursorInsideString_lex.
    destruct (lex Code (prefix_before t offset)); simpl; congruence.
  - rewrite isCursorInsideString_lex.
    destruct (lex Code (prefix_before t offset)); simpl; congruence.
  - intros Hin. unfold handleInput. rewrite He, Hm, Hp, Hin.
    eexists. split; [reflexivity |]. cbn. repeat split; congruence.
Qed.

Lemma isCursorInsideString_correct_witness :
  let st := @Sample.state_at Sample.deps (lit "CONCAT('a") None 10 in
  exists st',
    @handleInput Sample.deps st = Returned st' /\
    autocomplete st' = false /\
    suggestion st' = Some [] /\
    editor st' = editor st /\
    selected st' = selected st /\
    priority st' = priority st /\
    wordToComplete st' = wordToComplete st /\
    showFunctionList st' = showFunctionList st.
Proof.
  intros st.
  apply (@isCursorInsideString_correct Sample.deps st (Sample.editor_at (lit "CONCAT('a") None 10)
           (Sample.one_line (lit "CONCAT('a") None)
           {| lineNumber := 1; column := 10 |} eq_refl eq_refl eq_refl).
  vm_compute. reflexivity.
Defined.

(** ** Parentheses *)

Lemma firstn_min_length (A : Type) (l : list A) (k : nat) :
  firstn (Nat.min k (length l)) l = firstn k l.
Proof.
  destruct (Nat.le_ge_cases k (length l)).
  - now rewrite Nat.min_l.
  - rewrite Nat.min_r by auto. now rewrite firstn_all, firstn_all2.
Qed.

Lemma substring_from_start (t : text) (b : Z) :
  substring t 0 b = firstn (Z.to_nat b) t.
Proof.
  unfold substring, clamp, text_length.
  replace (Z.to_nat (Z.min (Z.max 0 0) (Z.of_nat (length t)))) with 0%nat by lia.
  rewrite Nat.min_0_l, Nat.max_0_l, Nat.sub_0_r. cbn [skipn].
  replace (Z.to_nat (Z.min (Z.max 0 b) (Z.of_nat (length t))))
    with (Nat.min (Z.to_nat b) (length t)) by lia.
  apply firstn_min_length.
Qed.

Lemma match_all_count (c : N) (s : text) :
  length (or_empty (match_all c s)) = count_occ N.eq_dec s c.
Proof.
  assert (H : length (filter (N.eqb c) s) = count_occ N.eq_dec s c).
  { induction s as [| a s IH]; simpl; auto.
    destruct (N.eq_dec a c) as [E | E].
    - subst a. rewrite N.eqb_refl. simpl. congruence.
    - destruct (N.eqb_spec c a); [congruence | exact IH]. }
  unfold match_all. destruct (filter (N.eqb c) s); simpl in *; auto.
Qed.

(** C4. With a cursor position and a line at hand,
    [isCursorBetweenParenthesis] is true exactly when the line, cut just
    before the cursor column, holds more opening than closing parentheses,
    whatever surrounds them; without an editor, a position or a model it is
    false. *)
Theorem isCursorBetweenParenthesis_correct
  (ed : Editor) (cursorPosition : Position) (model : Model) :
  getPosition ed = Some cursorPosition ->
  getModel ed = Some model ->
  let cursorLine :=
    firstn (Z.to_nat (column cursorPosition - 1))
           (getLineContent model (lineNumber cursorPosition)) in
  (isCursorBetweenParenthesis (Some ed) = true <->
   count_occ N.eq_dec cursorLine LPAREN > count_occ N.eq_dec cursorLine RPAREN) /\
  isCursorBetweenParenthesis None = false /\
  (forall ed', getPosition ed' = None ->
               isCursorBetweenParenthesis (Some ed') = false) /\
  (forall ed', getModel ed' = None ->
               isCursorBetweenParenthesis (Some ed') = false).
Proof.
  intros Hp Hm cursorLine. repeat split.
  - unfold isCursorBetweenParenthesis. rewrite Hp, Hm.
    rewrite substring_from_start, !match_all_count. fold cursorLine.
    destruct (getLineContent model (lineNumber cursorPosition)) eqn:Hl.
    + simpl. discriminate.
    + simpl negb. cbv iota. intros Hgt. apply Z.gtb_lt in Hgt. lia.
  - unfold isCursorBetweenParenthesis. rewrite Hp, Hm.
    rewrite substring_from_start, !match_all_count. fold cursorLine.
    destruct (getLineContent model (lineNumber cursorPosition)) eqn:Hl.
    + subst cursorLine. rewrite firstn_nil. simpl. lia.
    + simpl negb. cbv iota. intros Hgt. apply Z.gtb_lt. lia.
  - intros ed' Hn. unfold isCursorBetweenParenthesis. now rewrite Hn.
  - intros ed' Hn. unfold isCursorBetweenParenthesis. rewrite Hn.
    now destruct (getPosition ed').
Qed.

Lemma isCursorBetweenParenthesis_correct_witness :
  isCursorBetweenParenthesis (Some (Sample.editor_at (lit "IF(SUM(1), ") None 12)) = true.
Proof.
  apply (isCursorBetweenParenthesis_correct
           (Sample.editor_at (lit "IF(SUM(1), ") None 12)
           {| lineNumber := 1; column := 12 |}
           (Sample.one_line (lit "IF(SUM(1), ") None) eq_refl eq_refl).
  vm_compute. lia.
Defined.

(** ** The enclosing function *)

(** *** The matches of the formula expression *)

Lemma space_not_word (c : N) : isSpace c = true -> isWordChar c = false.
Proof.
  unfold isSpace, isWordChar. intros Hs.
  repeat rewrite ?orb_true_iff, ?andb_true_iff, ?N.leb_le, ?N.eqb_eq in Hs.
  apply not_true_iff_false. intros Hw.
  repeat rewrite ?orb_true_iff, ?andb_true_iff, ?N.leb_le, ?N.eqb_eq in Hw.
  lia.
Qed.

Lemma takeWhile_dropWhile (p : N -> bool) (s : text) :
  s = takeWhile p s ++ dropWhile p s.
Proof.
  induction s as [| c s IH]; simpl; auto.
  destruct (p c); simpl; congruence.
Qed.

Lemma takeWhile_all (p : N -> bool) (s : text) : forallb p (takeWhile p s) = true.
Proof.
  induction s as [| c s IH]; simpl; auto.
  destruct (p c) eqn:Hc; simpl; auto. now rewrite Hc.
Qed.

(** The shape of a match: a name, white space and the parenthesis. *)
Lemma formulaRegex_here_shape (prev : option N) (rest name : text) (len : Z) :
  formulaRegex_here prev rest = Some (name, len) ->
  exists c name' spaces post,
    name = c :: name' /\
    rest = name ++ spaces ++ LPAREN :: post /\
    forallb isWordChar name = true /\
    forallb isSpace spaces = true /\
    len = (text_length name + text_length spaces + 1)%Z.
Proof.
  unfold formulaRegex_here. destruct rest as [| c rest]; [discriminate |].
  destruct (_ && _ && isWordChar c) eqn:Hcond; [| discriminate].
  apply andb_true_iff in Hcond as [_ Hc].
  remember (c :: rest) as r eqn:Hr.
  destruct (dropWhile isSpace (dropWhile isWordChar r)) as [| p post] eqn:Hd;
    [discriminate |].
  destruct (N.eqb_spec p LPAREN) as [-> | _]; [| discriminate].
  intros E. injection E as <- <-.
  exists c, (takeWhile isWordChar rest), (takeWhile isSpace (dropWhile isWordChar r)), post.
  split; [| split; [| split; [| split]]].
  - subst r. simpl. now rewrite Hc.
  - rewrite <- Hd, <- takeWhile_dropWhile. apply takeWhile_dropWhile.
  - apply takeWhile_all.
  - apply takeWhile_all.
  - reflexivity.
Qed.

Lemma formulaRegex_here_inside_word (p c : N) (rest : text) :
  isWordChar p = true -> isWordChar c = true ->
  formulaRegex_here (Some p) (c :: rest) = None.
Proof.
  intros Hp Hc. unfold formulaRegex_here. now rewrite Hp, Hc.
Qed.

Lemma formulaRegex_here_nonword (prev : option N) (c : N) (rest : text) :
  isWordChar c = false -> formulaRegex_here prev (c :: rest) = None.
Proof.
  intros Hc. unfold formulaRegex_here. rewrite Hc. now rewrite andb_false_r.
Qed.

Lemma last_cons (A : Type) (w : list A) (c p : A) : last (c :: w) p = last w c.
Proof.
  revert c p. induction w as [| x w IH]; intros c p; [reflexivity |].
  change (last (c :: x :: w) p) with (last (x :: w) p).
  now rewrite (IH x p), (IH x c).
Qed.

(** No match starts inside a run of word characters. *)
Lemma calls_in_word_run (w : text) :
  forall (p : N) (rest : text) (pos : Z),
    isWordChar p = true -> forallb isWordChar w = true ->
    calls_in (Some p) (w ++ rest) pos =
    calls_in (Some (last w p)) rest (pos + text_length w).
Proof.
  induction w as [| c w IH]; intros p rest pos Hp Hw.
  - simpl. unfold text_length. simpl. now rewrite Z.add_0_r.
  - simpl in Hw. apply andb_true_iff in Hw as [Hc Hw].
    cbn [app calls_in]. rewrite (formulaRegex_here_inside_word p c _ Hp Hc).
    rewrite IH by auto. rewrite last_cons. cbn [app]. f_equal.
    unfold text_length. simpl length. lia.
Qed.

(** No match starts at a character that is not a word character. *)
Lemma calls_in_nonword_run (u : text) :
  forall (prev : option N) (c : N) (rest : text) (pos : Z),
    forallb (fun x => negb (isWordChar x)) (u ++ [c]) = true ->
    calls_in prev (u ++ c :: rest) pos =
    calls_in (Some c) rest (pos + text_length u + 1).
Proof.
  induction u as [| x u IH]; intros prev c rest pos Hu.
  - simpl in Hu. rewrite andb_true_r in Hu. apply negb_true_iff in Hu.
    cbn [app calls_in]. rewrite formulaRegex_here_nonword by auto.
    unfold text_length. simpl. now rewrite Z.add_0_r.
  - simpl in Hu. apply andb_true_iff in Hu as [Hx Hu]. apply negb_true_iff in Hx.
    cbn [app calls_in]. rewrite formulaRegex_here_nonword by auto.
    rewrite IH by auto. cbn [app]. f_equal.
    unfold text_length. simpl length. lia.
Qed.

(** A match at the head of the text, and the matches after it. *)
Lemma calls_in_match (prev : option N) (rest name : text) (len pos : Z) :
  formulaRegex_here prev rest = Some (name, len) ->
  (2 <= len <= text_length rest)%Z /\
  nth_error rest (Z.to_nat (len - 1)) = Some LPAREN /\
  calls_in prev rest pos =
  {| index := pos; group1 := name; lastIndex := (pos + len)%Z |}
    :: calls_in (Some LPAREN) (skipn (Z.to_nat len) rest) (pos + len).
Proof.
  intros Hm.
  destruct (formulaRegex_here_shape _ _ _ _ Hm)
    as (c & name' & spaces & post & Hn & Hr & Hw & Hs & Hl).
  unfold text_length in *.
  assert (Hlen : Z.to_nat len = length (name ++ spaces ++ [LPAREN])).
  { rewrite !length_app. simpl. lia. }
  assert (Hr' : rest = (name ++ spaces ++ [LPAREN]) ++ post).
  { rewrite Hr. now rewrite <- !app_assoc. }
  assert (Hname : (1 <= length name)%nat) by (subst name; simpl; lia).
  split; [| split].
  - rewrite Hr. rewrite !length_app. cbn [length]. lia.
  - rewrite Hr'. rewrite nth_error_app1 by (rewrite <- Hlen; lia).
    rewrite app_assoc. rewrite nth_error_app2 by (rewrite length_app; lia).
    replace (Z.to_nat (len - 1) - length (name ++ spaces))%nat with 0%nat;
      [reflexivity |].
    rewrite length_app. lia.
  - rewrite Hr' at 2. rewrite Hlen, skipn_app, skipn_all, Nat.sub_diag.
    cbn [skipn app].
    destruct rest as [| c0 rest0]; [subst name; discriminate |].
    cbn [calls_in]. rewrite Hm. cbn [app]. f_equal.
    assert (E : rest0 = name' ++ spaces ++ LPAREN :: post).
    { subst name. simpl in Hr. now injection Hr. }
    assert (c0 = c) by (subst name; simpl in Hr; now injection Hr). subst c0.
    subst name. simpl in Hw. apply andb_true_iff in Hw as [Hc Hw].
    rewrite E, calls_in_word_run by auto.
    rewrite calls_in_nonword_run.
    + f_equal. unfold text_length in *. cbn [length] in Hl. lia.
    + rewrite forallb_app. simpl. rewrite andb_true_r.
      apply forallb_forall. intros x Hx.
      rewrite forallb_forall in Hs. now rewrite space_not_word by auto.
Qed.



Lemma formulaRegex_search_calls (rest : text) :
  forall (prev : option N) (pos : Z),
    formulaRegex_search prev rest pos = hd_error (calls_in prev rest pos).
Proof.
  induction rest as [| c rest IH]; intros prev pos.
  - reflexivity.
  - cbn [formulaRegex_search calls_in].
    destruct (formulaRegex_here prev (c :: rest)) as [[name len] |]; [reflexivity |].
    apply IH.
Qed.

Lemma formulaRegex_exec_calls (t : text) (from : Z) :
  formulaRegex_exec t from = hd_error (calls_from t from).
Proof. apply formulaRegex_search_calls. Qed.

Lemma calls_from_start (t : text) : calls_from t 0 = calls t.
Proof. reflexivity. Qed.

Lemma charAt_nonneg (t : text) (i : Z) :
  (0 <= i)%Z -> charAt t i = nth_error t (Z.to_nat i).
Proof.
  intros Hi. unfold charAt. now destruct (Z.ltb_spec i 0); [lia |].
Qed.

(** The first match from a position on, and the matches after it: they
    are the matches from its [lastIndex] on. *)
Lemma calls_from_cons (t : text) (n : nat) :
  forall (from : Z) (m : RegExpMatch) (others : list RegExpMatch),
    (0 <= from)%Z ->
    (length t - Z.to_nat from <= n)%nat ->
    calls_from t from = m :: others ->
    (from <= index m)%Z /\
    (index m + 2 <= lastIndex m <= text_length t)%Z /\
    others = calls_from t (lastIndex m).
Proof.
  induction n as [| n IH]; intros from m others Hfrom Hn Hc.
  - unfold calls_from in Hc. rewrite skipn_all2 in Hc by lia. discriminate.
  - unfold calls_from in Hc.
    destruct (nth_error t (Z.to_nat from)) as [c |] eqn:Hnth.
    2: { apply nth_error_None in Hnth. rewrite skipn_all2 in Hc by lia.
         discriminate. }
    assert (Hlt : (Z.to_nat from < length t)%nat).
    { apply nth_error_Some. congruence. }
    assert (Hskip : skipn (Z.to_nat from) t = c :: skipn (S (Z.to_nat from)) t).
    { now rewrite (skipn_nth_error _ t (Z.to_nat from)), Hnth. }
    destruct (formulaRegex_here (charAt t (from - 1)) (skipn (Z.to_nat from) t))
      as [[name len] |] eqn:Hhere.
    + destruct (calls_in_match _ _ _ _ from Hhere) as (Hlen & Hparen & Hcalls).
      rewrite Hcalls in Hc. injection Hc as <- <-. cbn [index lastIndex].
      unfold text_length in *. rewrite length_skipn in Hlen.
      split; [lia |]. split; [lia |].
      unfold calls_from. f_equal.
      * rewrite charAt_nonneg by lia. rewrite nth_error_skipn in Hparen.
        rewrite <- Hparen. f_equal. lia.
      * rewrite skipn_skipn. f_equal. lia.
    + rewrite Hskip in Hc, Hhere.
      cbn [calls_in] in Hc. rewrite Hhere in Hc. cbn [app] in Hc.
      destruct (IH (from + 1)%Z m others) as (H1 & H2 & H3); try lia.
      * unfold calls_from. rewrite <- Hc. f_equal.
        -- rewrite charAt_nonneg by lia. rewrite <- Hnth. f_equal. lia.
        -- f_equal. lia.
      * split; [lia |]. split; auto.
Qed.



(** *** The scan of the arguments *)

Lemma depth_snoc (done : text) (c : N) :
  depth (done ++ [c]) =
  (depth done + (if N.eqb c LPAREN then 1 else if N.eqb c RPAREN then -1 else 0))%Z.
Proof.
  unfold depth. rewrite !count_occ_app. cbn [count_occ].
  destruct (N.eq_dec c LPAREN) as [-> | Hl]; [simpl; lia |].
  destruct (N.eq_dec c RPAREN) as [-> | Hr]; [simpl; lia |].
  apply N.eqb_neq in Hl, Hr. rewrite Hl, Hr. simpl. lia.
Qed.

Lemma after_opener_snoc (done : text) (c : N) :
  after_opener (done ++ [c]) =
  if is_delimiter c then is_opener c else after_opener done.
Proof.
  unfold after_opener. rewrite rev_unit. cbn [find].
  now destruct (is_delimiter c).
Qed.

Lemma last_child_end_S (args : text) (j : nat) :
  last_child_end args (S j) =
  if child_ends_at args j then Some j else last_child_end args j.
Proof.
  unfold last_child_end. rewrite seq_S, rev_unit. reflexivity.
Qed.

Lemma nth_error_middle (A : Type) (done rest : list A) (c : A) :
  nth_error (done ++ c :: rest) (length done) = Some c.
Proof.
  rewrite nth_error_app2 by lia. now rewrite Nat.sub_diag.
Qed.

Lemma firstn_middle (A : Type) (done rest : list A) :
  firstn (length done) (done ++ rest) = done.
Proof.
  rewrite firstn_app, Nat.sub_diag, firstn_all. simpl. apply app_nil_r.
Qed.

Lemma closes_at_middle (done rest : text) (c : N) :
  closes_at (done ++ c :: rest) (length done) =
  N.eqb c RPAREN && (depth done =? 0)%Z.
Proof.
  unfold closes_at. now rewrite nth_error_middle, firstn_middle.
Qed.

Lemma child_ends_at_middle (done rest : text) (c : N) :
  child_ends_at (done ++ c :: rest) (length done) =
  is_closer c && after_opener done.
Proof.
  unfold child_ends_at. now rewrite nth_error_middle, firstn_middle.
Qed.

Lemma opener_not_closer (c : N) : is_opener c = true -> is_closer c = false.
Proof.
  unfold is_opener, is_closer, LPAREN, COMMA, LBRACE, RBRACE, RPAREN.
  rewrite !orb_true_iff, !N.eqb_eq.
  intros [[-> | ->] | ->]; reflexivity.
Qed.

(** The child value handling, in terms of the flag [childValueStart !== -1]. *)
Lemma child_value_spec (c : N) (i : Z) (s : Scan) :
  (0 <= i)%Z ->
  let s' := child_value (Some c) i s in
  functionData s' = functionData s /\
  parenBalance s' = parenBalance s /\
  negb (childValueStart s' =? -1)%Z =
    (if is_delimiter c then is_opener c else negb (childValueStart s =? -1)%Z) /\
  childValueEnd s' =
    (if is_closer c && negb (childValueStart s =? -1)%Z then i else childValueEnd s).
Proof.
  intros Hi. unfold child_value.
  assert (Hop : one_of [LPAREN; COMMA; LBRACE] (Some c) = is_opener c).
  { unfold one_of, is_opener. simpl. now rewrite orb_false_r, orb_assoc. }
  assert (Hcl : is_opener c = false ->
                one_of [RBRACE; COMMA; RPAREN] (Some c) = is_closer c).
  { unfold one_of, is_opener, is_closer. simpl. rewrite orb_false_r.
    destruct (N.eqb c COMMA); [| now destruct (N.eqb c RBRACE)].
    rewrite orb_true_r. simpl. discriminate. }
  rewrite Hop. unfold is_delimiter.
  assert (Hi' : (i =? -1)%Z = false) by (apply Z.eqb_neq; lia).
  destruct (is_opener c) eqn:Ho.
  - rewrite (opener_not_closer c Ho).
    destruct (childValueStart s =? -1)%Z; simpl; rewrite Hi'; auto.
  - rewrite (Hcl eq_refl). rewrite !andb_false_r. simpl.
    destruct (is_closer c), (childValueStart s =? -1)%Z eqn:E; simpl;
      rewrite ?E; auto.
Qed.

Lemma find_seq_cons (f : nat -> bool) (k n : nat) :
  find f (seq k (S n)) = if f k then Some k else find f (seq (S k) n).
Proof. reflexivity. Qed.

(** The scan never makes the nested call: it ends by [break] or at the end
    of the text, without a push, and its variables are those of the
    position-based reading. *)
Lemma scan_arguments_spec
  (self : text -> Z -> option Enclosing) (t : text) (offset match1_length from : Z)
  (args : text) (rest : text) :
  (0 <= from)%Z ->
  forall (done : text) (s : Scan),
    args = done ++ rest ->
    scan_invariant args from done s ->
    halt args from offset =
      find (fun j => closes_at args j || (offset <=? from + Z.of_nat j)%Z)
           (seq (length done) (length rest)) ->
    exists s',
      scan_arguments self t offset match1_length rest
        (from + Z.of_nat (length done)) s = Some (Break s' false) /\
      name (functionData s') = name (functionData s) /\
      start (functionData s') = start (functionData s) /\
      match halt args from offset with
      | Some j =>
          end_ (functionData s') = (from + Z.of_nat j + 1)%Z /\
          childValueEnd s' =
            childValueEnd_of from
              (last_child_end args (if closes_at args j then j else S j))
      | None =>
          end_ (functionData s') = end_ (functionData s) /\
          childValueEnd s' =
            childValueEnd_of from (last_child_end args (length args))
      end.
Proof.
  intros Hfrom. induction rest as [| c rest IH]; intros done s Hargs Hinv Hhalt.
  - exists s. cbn [scan_arguments]. repeat split; auto.
    rewrite Hhalt. cbn [length seq find]. split; auto.
    destruct Hinv as (_ & _ & _ & Hcve). rewrite Hcve, Hargs, app_nil_r. reflexivity.
  - destruct Hinv as (Hpb & Hdepth & Hcvs & Hcve).
    cbn [length] in Hhalt. rewrite find_seq_cons in Hhalt.
    set (j := length done) in *. set (i := (from + Z.of_nat j)%Z) in *.
    assert (Hclose : closes_at args j = N.eqb c RPAREN && (depth done =? 0)%Z).
    { subst args j. apply closes_at_middle. }
    assert (Hchild : child_ends_at args j = is_closer c && after_opener done).
    { subst args j. apply child_ends_at_middle. }
    assert (Hlr : N.eqb c LPAREN = true -> N.eqb c RPAREN = false).
    { rewrite N.eqb_eq. intros ->. reflexivity. }
    cbn [scan_arguments is_char].
    destruct (closes_at args j) eqn:Hcl.
    + (* the call is closed here *)
      symmetry in Hclose. apply andb_true_iff in Hclose as [Hr Hd].
      apply Z.eqb_eq in Hd.
      destruct (N.eqb c LPAREN) eqn:Hl; [rewrite Hlr in Hr by auto; discriminate |].
      rewrite Hr. cbn [set_balance parenBalance].
      replace (parenBalance s - 1 =? 0)%Z with true
        by (symmetry; apply Z.eqb_eq; lia).
      eexists. split; [reflexivity |]. cbn. repeat split; auto.
      rewrite Hhalt. cbn [orb]. rewrite Hcl. split; [reflexivity | exact Hcve].
    + (* it is not *)
      cbn [orb] in Hhalt.
      set (s1 := if N.eqb c LPAREN then set_balance (parenBalance s + 1) s
                 else if N.eqb c RPAREN then set_balance (parenBalance s - 1) s
                 else s).
      assert (Hs1 : (if N.eqb c LPAREN
                     then inr (set_balance (parenBalance s + 1) s)
                     else if N.eqb c RPAREN
                          then if (parenBalance (set_balance (parenBalance s - 1) s) =? 0)%Z
                               then inl (set_scan_end (i + 1)
                                           (set_balance (parenBalance s - 1) s))
                               else inr (set_balance (parenBalance s - 1) s)
                          else inr s) = (inr s1 : Scan + Scan)).
      { subst s1. destruct (N.eqb c LPAREN); auto.
        destruct (N.eqb c RPAREN) eqn:Hr; auto.
        cbn [set_balance parenBalance].
        symmetry in Hclose. rewrite ?Hr in Hclose. simpl in Hclose.
        replace (parenBalance s - 1 =? 0)%Z with false; auto.
        symmetry. apply Z.eqb_neq. apply Z.eqb_neq in Hclose. lia. }
      rewrite Hs1.
      assert (Hs1f : functionData s1 = functionData s /\
                     childValueStart s1 = childValueStart s /\
                     childValueEnd s1 = childValueEnd s /\
                     parenBalance s1 = (1 + depth (done ++ [c]))%Z /\
                     (0 <= depth (done ++ [c]))%Z).
      { rewrite depth_snoc. subst s1.
        destruct (N.eqb c LPAREN) eqn:Hl;
          [cbn [set_balance functionData childValueStart childValueEnd parenBalance];
           repeat split; auto; lia |].
        destruct (N.eqb c RPAREN) eqn:Hr; [| repeat split; auto; lia].
        symmetry in Hclose. rewrite ?Hr in Hclose. simpl in Hclose.
        apply Z.eqb_neq in Hclose.
        cbn [set_balance functionData childValueStart childValueEnd parenBalance].
        repeat split; auto; lia. }
      destruct Hs1f as (Hfd1 & Hcvs1 & Hcve1 & Hpb1 & Hdepth1).
      assert (Hi : (0 <= i)%Z) by (subst i; lia).
      destruct (child_value_spec c i s1 Hi) as (Hfd2 & Hpb2 & Hcvs2 & Hcve2).
      set (s2 := child_value (Some c) i s1) in *.
      rewrite Hcvs1, Hcvs in Hcvs2. rewrite Hcvs1, Hcvs, Hcve1, Hcve in Hcve2.
      rewrite <- Hchild in Hcve2.
      assert (Hcve2' : childValueEnd s2 =
                       childValueEnd_of from (last_child_end args (S j))).
      { rewrite last_child_end_S, Hcve2.
        now destruct (child_ends_at args j). }
      destruct (Z.geb_spec i offset) as [Hge | Hlt].
      * (* the offset is reached *)
        replace (parenBalance s2 >? 0)%Z with true
          by (symmetry; apply Z.gtb_lt; lia).
        eexists. split; [reflexivity |]. cbn [set_scan_end functionData name start end_ set_end childValueEnd].
        rewrite Hfd2, Hfd1. repeat split; auto.
        rewrite Hhalt. replace (offset <=? i)%Z with true
          by (symmetry; apply Z.leb_le; lia).
        rewrite Hcl. split; [reflexivity | exact Hcve2'].
      * (* the scan goes on *)
        replace (offset <=? i)%Z with false in Hhalt
          by (symmetry; apply Z.leb_gt; lia).
        replace (i + 1)%Z with (from + Z.of_nat (length (done ++ [c])))%Z
          by (rewrite length_app; cbn [length]; subst i j; lia).
        destruct (IH (done ++ [c]) s2) as (s' & Hrun & Hn & Hst & Hres).
        -- rewrite Hargs. now rewrite <- app_assoc.
        -- unfold scan_invariant. rewrite Hpb2, Hpb1. repeat split; auto.
           ++ rewrite Hcvs2. now rewrite after_opener_snoc.
           ++ rewrite length_app. cbn [length].
              replace (length done + 1)%nat with (S j) by (subst j; lia).
              exact Hcve2'.
        -- rewrite Hhalt. rewrite length_app. cbn [length].
           replace (length done + 1)%nat with (S j) by (subst j; lia).
           reflexivity.
        -- exists s'. split; [exact Hrun |].
           rewrite Hn, Hst, Hfd2, Hfd1. repeat split; auto.
           destruct (halt args from offset); auto.
           now rewrite Hfd2, Hfd1 in Hres.
Qed.



(** *** The quote tracking *)






(** *** The loop over the matches *)


(** *** The result *)





(** The loop always comes to an end within its fuel, whatever the text,
    the offset and the state of the quote tracking. *)
Lemma while_matches_returns
  (self : text -> Z -> option Enclosing) (t : text) (offset : Z) :
  forall (fuel : nat) (m : Matching),
    (0 <= formulaRegex_lastIndex m)%Z ->
    (length t - Z.to_nat (formulaRegex_lastIndex m) < fuel)%nat ->
    while_matches self t offset fuel m <> None.
Proof.
  induction fuel as [| fuel IH]; intros m Hfrom Hfuel; [lia |].
  cbn [while_matches]. rewrite formulaRegex_exec_calls.
  destruct (calls_from t (formulaRegex_lastIndex m)) as [| match_ others] eqn:Hcalls;
    cbn [hd_error]; [discriminate |].
  destruct (calls_from_cons t (length t) _ match_ others Hfrom ltac:(lia) Hcalls)
    as (Hidx & Hlast & _).
  destruct (index match_ >? offset)%Z; [discriminate |].
  destruct (quote_while _ _ _ _) as [q ql].
  assert (Hnext : forall stack,
             while_matches self t offset fuel
               {| functionStack := stack; inQuote := q;
                  formulaRegex_lastIndex := lastIndex match_;
                  quoteRegex_lastIndex := ql |} <> None).
  { intros stack. apply IH; cbn [formulaRegex_lastIndex]; unfold text_length in *; lia. }
  destruct (negb (inQuote m)); [| apply Hnext].
  set (s0 := {| functionData := _; parenBalance := 1;
                childValueStart := -1; childValueEnd := -1 |}).
  destruct (scan_arguments_spec self t offset (text_length (group1 match_))
              (lastIndex match_) (skipn (Z.to_nat (lastIndex match_)) t)
              (skipn (Z.to_nat (lastIndex match_)) t) ltac:(lia) [] s0)
    as (s & Hrun & _).
  - reflexivity.
  - unfold scan_invariant. cbn. repeat split; reflexivity || lia.
  - reflexivity.
  - cbn [length] in Hrun. rewrite Z.add_0_r in Hrun. rewrite Hrun. apply Hnext.
Qed.

(** [findEnclosingFunction] answers on every text and offset. *)
Lemma findEnclosingFunction_returns (t : text) (offset : Z) :
  exists r : Enclosing, findEnclosingFunction t offset = Some r.
Proof.
  destruct (findEnclosingFunction t offset) as [r |] eqn:E; [now exists r |].
  exfalso. revert E. unfold findEnclosingFunction.
  cbn [findEnclosingFunction_depth]. unfold findEnclosingFunction_body.
  apply while_matches_returns; cbn; lia.
Qed.

Lemma child_value_balance (char : option N) (i : Z) (s : Scan) :
  parenBalance (child_value char i s) = parenBalance s.
Proof.
  unfold child_value.
  repeat match goal with |- context [if ?b then _ else _] => destruct b end;
    reflexivity.
Qed.

(** The nested call is never made: with a positive balance on entry, the
    scan does not depend on what [findEnclosingFunction] would answer. *)
Lemma scan_arguments_no_nested_call
  (self self' : text -> Z -> option Enclosing) (t : text)
  (offset match1_length : Z) (rest : text) :
  forall (i : Z) (s : Scan),
    (1 <= parenBalance s)%Z ->
    scan_arguments self t offset match1_length rest i s =
    scan_arguments self' t offset match1_length rest i s.
Proof.
  induction rest as [| c rest IH]; intros i s Hpb; [reflexivity |].
  cbn [scan_arguments is_char].
  destruct (N.eqb c LPAREN).
  - rewrite child_value_balance. cbn [set_balance parenBalance].
    destruct (i >=? offset)%Z.
    + now replace (parenBalance s + 1 >? 0)%Z with true
        by (symmetry; apply Z.gtb_lt; lia).
    + apply IH. rewrite child_value_balance. cbn. lia.
  - destruct (N.eqb c RPAREN).
    + cbn [set_balance parenBalance].
      destruct (Z.eqb_spec (parenBalance s - 1) 0); [reflexivity |].
      rewrite child_value_balance. cbn [set_balance parenBalance].
      destruct (i >=? offset)%Z.
      * now replace (parenBalance s - 1 >? 0)%Z with true
          by (symmetry; apply Z.gtb_lt; lia).
      * apply IH. rewrite child_value_balance. cbn. lia.
    + rewrite child_value_balance.
      destruct (i >=? offset)%Z.
      * now replace (parenBalance s >? 0)%Z with true
          by (symmetry; apply Z.gtb_lt; lia).
      * apply IH. rewrite child_value_balance. lia.
Qed.

Lemma while_matches_no_nested_call
  (self self' : text -> Z -> option Enclosing) (t : text) (offset : Z) :
  forall (fuel : nat) (m : Matching),
    while_matches self t offset fuel m = while_matches self' t offset fuel m.
Proof.
  induction fuel as [| fuel IH]; intros m; [reflexivity |].
  cbn [while_matches].
  destruct (formulaRegex_exec t (formulaRegex_lastIndex m)) as [match_ |];
    [| reflexivity].
  destruct (index match_ >? offset)%Z; [reflexivity |].
  destruct (quote_while _ _ _ _) as [q ql].
  destruct (negb (inQuote m)); [| apply IH].
  rewrite (scan_arguments_no_nested_call self self') by (cbn; lia).
  destruct (scan_arguments self' _ _ _ _ _ _) as [[s pushed | nested] |];
    auto.
Qed.

(** So one level of depth is as good as any. *)
Lemma findEnclosingFunction_depth_one (t : text) (offset : Z) :
  findEnclosingFunction t offset = findEnclosingFunction_depth 1 t offset.
Proof.
  unfold findEnclosingFunction. cbn [findEnclosingFunction_depth].
  apply while_matches_no_nested_call.
Qed.

(** *** The matches, in terms of the text *)









(** Inside a nested call, after a braced argument of which the end does
    not lie before the offset, and at the end of a closed call. *)
Example findEnclosingFunction_samples :
  findEnclosingFunction (lit "IF(SUM({a}), 1)") 9 = Some (Some (lit "SUM")) /\
  findEnclosingFunction (lit "IF({a},{b},1)") 9 = Some (Some (lit "IF")) /\
  findEnclosingFunction (lit "SUM(a)") 6 = Some (Some (lit "SUM")).
Proof. repeat split; vm_compute; reflexivity. Qed.

(** With double quotes: a name that follows a quote is no match, while a
    name further inside a double-quoted string is not always ignored.
    With the offset at the end of the text: a call left open is not found
    once an argument has been started. *)
Example findEnclosingFunction_in_string :
  findEnclosingFunction
    (lit "CONCAT(" ++ DQUOTE :: lit "SUM(" ++ DQUOTE :: lit ", a)") 14 =
  Some (Some (lit "CONCAT")) /\
  findEnclosingFunction
    (lit "CONCAT(" ++ DQUOTE :: lit "a foo(x" ++ DQUOTE :: lit ", b)") 15 =
  Some (Some (lit "foo")).
Proof. split; vm_compute; reflexivity. Qed.

Example findEnclosingFunction_at_end :
  findEnclosingFunction (lit "SUM(") 4 = Some (Some (lit "SUM")) /\
  findEnclosingFunction (lit "SUM(a") 5 = Some None.
Proof. split; vm_compute; reflexivity. Qed.

(** ** Sorting with a comparator that compares keys *)

Section KeySort.

Variable A : Type.
Variable key : A -> Z.
Variable comparefn : A -> A -> Z.
Hypothesis comparefn_key :
  forall x y, (comparefn x y <= 0)%Z <-> (key x <= key y)%Z.

Lemma sort_insert_perm (x : A) (l : list A) :
  Permutation (x :: l) (sort_insert comparefn x l).
Proof.
  induction l as [| y l IH]; simpl; auto.
  destruct (comparefn x y <=? 0)%Z; auto.
  rewrite perm_swap. now constructor.
Qed.

Lemma sort_perm (l : list A) : Permutation l (sort comparefn l).
Proof.
  induction l as [| x l IH]; simpl; auto.
  rewrite <- sort_insert_perm. now constructor.
Qed.

Lemma sort_insert_sorted (x : A) (l : list A) :
  StronglySorted (key_le key) l -> StronglySorted (key_le key) (sort_insert comparefn x l).
Proof.
  induction 1 as [| y l Hs IH Hall]; simpl.
  - repeat constructor.
  - destruct (Z.leb_spec (comparefn x y) 0) as [Hle | Hgt].
    + apply comparefn_key in Hle. constructor; [now constructor |].
      constructor; auto.
      eapply Forall_impl; [| exact Hall]. unfold key_le. intros; lia.
    + assert (key y < key x)%Z.
      { destruct (Z.le_gt_cases (key x) (key y)) as [Hc | Hc]; auto.
        apply comparefn_key in Hc. lia. }
      constructor; auto.
      eapply Permutation_Forall; [apply sort_insert_perm |].
      constructor; auto. unfold key_le. lia.
Qed.

Lemma sort_sorted (l : list A) : StronglySorted (key_le key) (sort comparefn l).
Proof.
  induction l as [| x l IH]; simpl; [constructor | now apply sort_insert_sorted].
Qed.

(** Stability: the entries of each key keep their order. *)
Lemma sort_insert_stable (k : Z) (x : A) (l : list A) :
  filter (fun a => key a =? k)%Z (sort_insert comparefn x l) =
  filter (fun a => key a =? k)%Z (x :: l).
Proof.
  induction l as [| y l IH]; simpl; auto.
  destruct (Z.leb_spec (comparefn x y) 0) as [Hle | Hgt]; [reflexivity |].
  assert (key y < key x)%Z.
  { destruct (Z.le_gt_cases (key x) (key y)) as [Hc | Hc]; auto.
    apply comparefn_key in Hc. lia. }
  simpl in *. rewrite IH.
  destruct (Z.eqb_spec (key x) k), (Z.eqb_spec (key y) k); auto; lia.
Qed.

Lemma sort_stable (k : Z) (l : list A) :
  filter (fun a => key a =? k)%Z (sort comparefn l) =
  filter (fun a => key a =? k)%Z l.
Proof.
  induction l as [| x l IH]; simpl; auto.
  rewrite sort_insert_stable. simpl. now rewrite IH.
Qed.

(** A sorted list is its entries up to a key followed by the others. *)
Lemma sorted_split (k : Z) (l : list A) :
  StronglySorted (key_le key) l ->
  l = filter (fun a => key a <=? k)%Z l ++ filter (fun a => negb (key a <=? k)%Z) l.
Proof.
  induction 1 as [| x l Hs IH Hall]; simpl; auto.
  destruct (Z.leb_spec (key x) k) as [Hle | Hgt]; simpl.
  - now rewrite <- IH.
  - assert (Hnone : filter (fun a => key a <=? k)%Z l = []).
    { clear IH Hs. induction l as [| y l IHl]; simpl; auto.
      inversion Hall as [| ? ? Hxy Hall']; subst. unfold key_le in Hxy.
      destruct (Z.leb_spec (key y) k); [lia | auto]. }
    rewrite Hnone in *. simpl in *. now rewrite <- IH.
Qed.

End KeySort.

(** ** The suggestion list *)

Lemma unsupported_last_key (a b : Suggestion) :
  (unsupported_last a b <= 0)%Z <-> (unsupported_key a <= unsupported_key b)%Z.
Proof.
  unfold unsupported_last, unsupported_key.
  destruct (unsupported a), (unsupported b); simpl; lia.
Qed.

Lemma filter_ext_eq (A : Type) (f g : A -> bool) (l : list A) :
  (forall a, f a = g a) -> filter f l = filter g l.
Proof.
  intros E. induction l as [| a l IH]; simpl; auto. now rewrite E, IH.
Qed.

Lemma sort_unsupported_last (l : list Suggestion) :
  sort unsupported_last l =
  filter (fun s => negb (unsupported s)) l ++ filter unsupported l.
Proof.
  pose proof (sort_sorted _ _ _ unsupported_last_key l) as Hs.
  rewrite (sorted_split _ unsupported_key 0 _ Hs) at 1.
  f_equal.
  - rewrite (filter_ext_eq _ _ (fun a => unsupported_key a =? 0)%Z).
    + rewrite (sort_stable _ _ _ unsupported_last_key).
      apply filter_ext_eq. intros a. unfold unsupported_key.
      now destruct (unsupported a).
    + intros a. unfold unsupported_key. now destruct (unsupported a).
  - rewrite (filter_ext_eq _ _ (fun a => unsupported_key a =? 1)%Z).
    + rewrite (sort_stable _ _ _ unsupported_last_key).
      apply filter_ext_eq. intros a. unfold unsupported_key.
      now destruct (unsupported a).
    + intros a. unfold unsupported_key. now destruct (unsupported a).
Qed.

Lemma existsb_text_eqb (x : text) (l : list text) :
  existsb (text_eqb x) l = true <-> In x l.
Proof.
  rewrite existsb_exists. unfold text_eqb. split.
  - intros (y & Hy & E). destruct (list_eq_dec N.eq_dec x y); congruence.
  - intros Hin. exists x. split; auto.
    destruct (list_eq_dec N.eq_dec x x); congruence.
Qed.

(** C6. The combined suggestion list is its entries that are not
    unsupported, in the order of the list of functions, columns and
    operators, followed by its unsupported entries in that order; the
    unsupported entries are the functions that the SQL dialect reports. *)
Theorem suggestionsList_unsupported_last `{Deps} :
  suggestionsList =
    filter (fun s => negb (unsupported s)) suggestionsList_unsorted
    ++ filter unsupported suggestionsList_unsorted /\
  (forall s, In s suggestionsList_unsorted ->
             (unsupported s = true <->
              exists fn, In fn availableFunctions /\
                         In fn (getUnsupportedFnList sqlUi) /\
                         sug_type s = type_function /\
                         sug_text s = fn ++ lit "()")).
Proof.
  split.
  - apply sort_unsupported_last.
  - intros s Hin. unfold suggestionsList_unsorted in Hin.
    rewrite !in_app_iff, !in_map_iff in Hin.
    destruct Hin as [(fn & <- & Hfn) | [(c & <- & _) | (o & <- & Ho)]]; simpl.
    + rewrite existsb_text_eqb. split.
      * intros Hu. exists fn. auto.
      * intros (fn' & _ & Hu & _ & E). apply app_inv_tail in E. now subst.
    + split; [discriminate | intros (fn & _ & _ & E & _); discriminate].
    + split; [discriminate | intros (fn & _ & _ & E & _); discriminate].
Qed.

Lemma by_sortOrder_key (x y : Suggestion) :
  (by_sortOrder x y <= 0)%Z <-> (sortOrder (sug_type x) <= sortOrder (sug_type y))%Z.
Proof. unfold by_sortOrder. lia. Qed.

Lemma filter_Permutation (A : Type) (f : A -> bool) (l l' : list A) :
  Permutation l l' -> Permutation (filter f l) (filter f l').
Proof.
  induction 1 as [| x l l' _ IH | x y l | l l' l'' _ IH1 _ IH2]; simpl.
  - constructor.
  - destruct (f x); auto.
  - destruct (f x), (f y); auto. apply perm_swap.
  - now transitivity (filter f l').
Qed.

(** A list sorted by [sortOrder] is its columns, then its functions, then
    its operators. *)
Lemma sorted_by_kind (l : list Suggestion) :
  StronglySorted (key_le (fun s => sortOrder (sug_type s))) l ->
  l = filter is_column l ++ filter is_function l ++ filter is_op l.
Proof.
  induction 1 as [| x l Hs IH Hall]; [reflexivity |].
  rewrite Forall_forall in Hall. unfold key_le in Hall.
  cbn [filter]. unfold is_column at 1, is_function at 1, is_op at 1.
  destruct (sug_type x) eqn:Hx; cbn [sortOrder] in Hall.
  - assert (Hc : filter is_column l = []).
    { apply filter_none. intros a Ha. specialize (Hall a Ha).
      unfold is_column. destruct (sug_type a); cbn in Hall; auto; lia. }
    rewrite Hc in *. cbn [app] in *. now rewrite <- IH.
  - cbn [app]. now rewrite <- IH.
  - assert (Hc : filter is_column l = []).
    { apply filter_none. intros a Ha. specialize (Hall a Ha).
      unfold is_column. destruct (sug_type a); cbn in Hall; auto; lia. }
    assert (Hf : filter is_function l = []).
    { apply filter_none. intros a Ha. specialize (Hall a Ha).
      unfold is_function. destruct (sug_type a); cbn in Hall; auto; lia. }
    rewrite Hc, Hf in *. cbn [app] in *. now rewrite <- IH.
Qed.

(** The first sort of [handleInput]: the columns, the functions and the
    operators, each kind in the order it had. *)
Lemma sort_by_sortOrder (l : list Suggestion) :
  sort by_sortOrder l =
  filter is_column l ++ filter is_function l ++ filter is_op l.
Proof.
  pose proof (sort_sorted _ _ _ by_sortOrder_key l) as Hs.
  rewrite (sorted_by_kind _ Hs) at 1.
  pose proof (sort_stable _ _ _ by_sortOrder_key) as Hst.
  f_equal; [| f_equal].
  - rewrite !(filter_ext_eq _ is_column (fun a => sortOrder (sug_type a) =? 0)%Z)
      by (intros a; unfold is_column; now destruct (sug_type a)).
    apply Hst.
  - rewrite !(filter_ext_eq _ is_function (fun a => sortOrder (sug_type a) =? 1)%Z)
      by (intros a; unfold is_function; now destruct (sug_type a)).
    apply Hst.
  - rewrite !(filter_ext_eq _ is_op (fun a => sortOrder (sug_type a) =? 2)%Z)
      by (intros a; unfold is_op; now destruct (sug_type a)).
    apply Hst.
Qed.

(** The second comparator tells the columns from the rest, and the rest
    all tie. *)
Lemma columns_first_classes (x y : Suggestion) :
  ((column_class x < column_class y)%Z ->
   (columns_first x y < 0)%Z /\ (columns_first y x > 0)%Z) /\
  (column_class x = 1%Z -> column_class y = 1%Z -> columns_first x y = 0%Z).
Proof.
  unfold column_class, columns_first, is_column.
  destruct (sug_type x), (sug_type y); cbn; split; intros; lia.
Qed.

(** A list with its columns first is its columns followed by the rest. *)
Lemma columns_then_rest (l : list Suggestion) :
  StronglySorted (key_le column_class) l ->
  l = filter is_column l ++ filter (fun s => negb (is_column s)) l.
Proof.
  intros Hs. rewrite (sorted_split _ column_class 0 _ Hs) at 1.
  f_equal; apply filter_ext_eq; intros a; unfold column_class;
    now destruct (is_column a).
Qed.

Lemma filter_filter_none (A : Type) (f g : A -> bool) (l : list A) :
  (forall a, g a = true -> f a = false) -> filter f (filter g l) = [].
Proof.
  intros Hfg. apply filter_none. intros a Ha.
  apply filter_In in Ha as [_ Ha]. auto.
Qed.

Lemma filter_filter_every (A : Type) (f g : A -> bool) (l : list A) :
  (forall a, g a = true -> f a = true) -> filter f (filter g l) = filter g l.
Proof.
  intros Hfg. apply filter_every. intros a Ha.
  apply filter_In in Ha as [_ Ha]. auto.
Qed.

Lemma split_nonword_word (q cur : text) :
  forallb isWordChar q = true ->
  split_nonword cur false q = [rev cur ++ q].
Proof.
  revert cur. induction q as [| c q IH]; intros cur Hq; simpl.
  - now rewrite app_nil_r.
  - simpl in Hq. apply andb_true_iff in Hq as [Hc Hq]. rewrite Hc.
    rewrite IH by auto. simpl. now rewrite <- app_assoc.
Qed.

(** C5. When the cursor is not inside a string and the tree has
    completions for the word at the cursor, [handleInput] returns with
    the selected index at 0 and those completions in the suggestion list.
    Outside parentheses the list is the columns, then the functions, then
    the operators, each kind in the order of the completions.  Between
    unbalanced parentheses the priority is -1 and the list has gone
    through the sort of the engine with a comparator that is not
    consistent; of an engine whose sort rearranges its array and respects
    the classes a comparator tells apart, the list has the columns at the
    top, in an order that is the engine's, followed by the functions and
    the operators as before. *)
Theorem handleInput_suggestions `{Deps}
  (st : State) (ed : Editor) (model : Model) (position : Position)
  (completions : list Suggestion) :
  editor st = Some ed ->
  getModel ed = Some model ->
  getPosition ed = Some position ->
  isCursorInsideString (getValue model) (getOffsetAt model position) = false ->
  let keyword :=
    match getWordAtPosition model position with Some w => w | None => [] end in
  let word := pop_or_empty (split_nonword [] false keyword) in
  complete suggestionsList word = Some completions ->
  (forallb isWordChar keyword = true -> word = keyword) /\
  exists st' l,
    handleInput st = Returned st' /\
    wordToComplete st' = word /\
    suggestion st' = Some l /\
    selected st' = 0%Z /\
    (isCursorBetweenParenthesis (Some ed) = false ->
     l = filter is_column completions ++ filter is_function completions
         ++ filter is_op completions) /\
    (isCursorBetweenParenthesis (Some ed) = true ->
     selected st' = 0%Z /\ priority st' = (-1)%Z /\
     (sort_rearranges -> sort_respects_classes ->
      exists columns,
        Permutation (filter is_column completions) columns /\
        l = columns ++ filter is_function completions
                    ++ filter is_op completions)) /\
    ((isCursorBetweenParenthesis (Some ed) = true -> sort_rearranges) ->
     Permutation completions l).
Proof.
  intros He Hm Hp Hstr keyword word Hc. split.
  - intros Hw. unfold word. now rewrite split_nonword_word.
  - pose proof (sort_by_sortOrder completions) as Hfirst.
    pose proof (sort_perm _ by_sortOrder completions) as Hsorted.
    rewrite Hfirst in Hsorted.
    unfold handleInput. rewrite He, Hm, Hp, Hstr.
    unfold getCurrentKeyword. rewrite Hm, Hp.
    fold keyword. cbn [set_suggestion set_selected set_priority
      set_wordToComplete editor wordToComplete suggestion showFunctionList].
    fold word.
    assert (Hed : forall b : bool, editor (if b then set_priority 1 st else st) = Some ed).
    { intros []; auto. }
    rewrite Hed, Hc. cbn [option_map]. rewrite Hfirst.
    set (sorted := filter is_column completions
                   ++ filter is_function completions ++ filter is_op completions) in *.
    destruct (isCursorBetweenParenthesis (Some ed)) eqn:Hpar.
    + set (l := Array_sort columns_first sorted).
      assert (Horder : sort_rearranges -> sort_respects_classes ->
                Permutation sorted l /\
                l = filter is_column l
                    ++ filter is_function completions
                    ++ filter is_op completions).
      { intros Hperm Hclasses.
        destruct (Hclasses columns_first column_class sorted
                    (fun x y => proj1 (columns_first_classes x y)))
          as [Hsort Hstable].
        specialize (Hstable 1%Z (fun x y => proj2 (columns_first_classes x y))).
        specialize (Hperm columns_first sorted). fold l in Hsort, Hstable, Hperm.
        split; [exact Hperm |].
        assert (Hrest : filter (fun s => negb (is_column s)) l =
                        filter is_function completions ++ filter is_op completions).
        { rewrite (filter_ext_eq _ (fun s => negb (is_column s))
                     (fun a => column_class a =? 1)%Z)
            by (intros a; unfold column_class; now destruct (is_column a)).
          rewrite Hstable.
          rewrite (filter_ext_eq _ (fun a => column_class a =? 1)%Z
                     (fun s => negb (is_column s)))
            by (intros a; unfold column_class; now destruct (is_column a)).
          unfold sorted. rewrite !filter_app.
          rewrite filter_filter_none, !filter_filter_every; auto.
          - intros a. unfold is_op, is_column. now destruct (sug_type a).
          - intros a. unfold is_function, is_column. now destruct (sug_type a).
          - intros a Ha. now rewrite Ha. }
        rewrite <- Hrest. now apply columns_then_rest. }
      eexists. exists l. split; [reflexivity |]. cbn.
      repeat split; auto; try discriminate.
      * intros Hperm Hclasses. destruct (Horder Hperm Hclasses) as [Hpl Hl].
        exists (filter is_column l). split; [| exact Hl].
        apply filter_Permutation. now transitivity sorted.
      * intros Hperm. transitivity sorted; [exact Hsorted |].
        apply (Hperm eq_refl).
    + cbn. destruct (showFunctionList st); cbn;
        (eexists; exists sorted;
         split; [reflexivity |]; cbn; repeat split; auto; discriminate).
Qed.

Lemma In_skipn_nth (A : Type) (arr : list A) (k : nat) (x : A) :
  In x (skipn k arr) -> exists j, (k <= j)%nat /\ nth_error arr j = Some x.
Proof.
  revert arr. induction k as [| k IH]; intros arr Hin.
  - apply In_nth_error in Hin as [j Hj]. exists j. split; [lia | auto].
  - destruct arr as [| a arr]; [contradiction |].
    destruct (IH arr Hin) as (j & Hj & Hn). exists (S j). split; [lia | auto].
Qed.

(** ** The sort of the sample engine

    The sample engine sorts as V8 sorts a short array.  It rearranges its
    array whatever the comparator, and it respects the classes a
    comparator tells apart. *)

Section TimSortLaws.

Variable A : Type.
Variable comparefn : A -> A -> Z.

Lemma BinaryInsertionSort_perm (rest : list A) :
  forall sorted : list A,
    Permutation (sorted ++ rest) (Sample.BinaryInsertionSort comparefn sorted rest).
Proof.
  induction rest as [| pivot rest IH]; intros sorted; cbn [Sample.BinaryInsertionSort].
  - now rewrite app_nil_r.
  - rewrite <- IH.
    set (left := Sample.insertion_point comparefn pivot sorted _ _ _).
    rewrite <- (firstn_skipn left sorted) at 1.
    rewrite <- !app_assoc. apply Permutation_app_head.
    cbn [app]. symmetry. apply Permutation_middle.
Qed.

Lemma CountAndMakeRun_perm (l : list A) :
  Permutation l (fst (Sample.CountAndMakeRun comparefn l)
                 ++ snd (Sample.CountAndMakeRun comparefn l)).
Proof.
  unfold Sample.CountAndMakeRun.
  destruct l as [| elementHigh [| elementLow rest]];
    cbn [fst snd]; rewrite ?app_nil_r; auto.
  set (n := (2 + _)%nat). set (l := elementHigh :: elementLow :: rest).
  rewrite <- (firstn_skipn n l) at 1. apply Permutation_app_tail.
  destruct (_ <? 0)%Z; [apply Permutation_rev | reflexivity].
Qed.

Lemma ArrayTimSort_perm (l : list A) :
  Permutation l (Sample.ArrayTimSort comparefn l).
Proof.
  unfold Sample.ArrayTimSort.
  pose proof (CountAndMakeRun_perm l) as Hrun.
  destruct (Sample.CountAndMakeRun comparefn l) as [run rest].
  cbn [fst snd] in Hrun. rewrite Hrun at 1. apply BinaryInsertionSort_perm.
Qed.

(** The first run is a chain of the comparator. *)
Lemma run_tail_chain (isDescending : bool) (rest : list A) :
  forall previousElement : A,
    Sorted (fun a b => if isDescending
                       then (comparefn b a < 0)%Z
                       else (0 <= comparefn b a)%Z)
           (previousElement
              :: firstn (Sample.run_tail comparefn isDescending previousElement rest)
                        rest).
Proof.
  induction rest as [| currentElement rest IH]; intros previousElement;
    cbn [Sample.run_tail firstn].
  - repeat constructor.
  - destruct isDescending.
    + destruct (Z.geb_spec (comparefn currentElement previousElement) 0);
        cbn [firstn];
        [repeat constructor | constructor; [apply IH | now constructor]].
    + destruct (Z.ltb_spec (comparefn currentElement previousElement) 0);
        cbn [firstn];
        [repeat constructor | constructor; [apply IH | now constructor]].
Qed.

Variable class : A -> Z.
Hypothesis comparefn_classes :
  forall x y, (class x < class y)%Z ->
              (comparefn x y < 0)%Z /\ (comparefn y x > 0)%Z.

Lemma below_class (x y : A) : (comparefn x y < 0)%Z -> (class x <= class y)%Z.
Proof.
  intros Hc. destruct (Z.le_gt_cases (class x) (class y)); auto.
  destruct (comparefn_classes y x); lia.
Qed.

Lemma not_below_class (x y : A) : (0 <= comparefn x y)%Z -> (class y <= class x)%Z.
Proof.
  intros Hc. destruct (Z.le_gt_cases (class y) (class x)); auto.
  destruct (comparefn_classes x y); lia.
Qed.

Lemma Sorted_weaken (R R' : A -> A -> Prop) (l : list A) :
  (forall a b, R a b -> R' a b) -> Sorted R l -> Sorted R' l.
Proof.
  intros HR. induction 1 as [| a l Hs IH Hhd]; constructor; auto.
  destruct Hhd; constructor; auto.
Qed.

Lemma StronglySorted_app (R : A -> A -> Prop) (l1 l2 : list A) :
  StronglySorted R l1 -> StronglySorted R l2 ->
  (forall a b, In a l1 -> In b l2 -> R a b) ->
  StronglySorted R (l1 ++ l2).
Proof.
  intros H1 H2 Hcross. induction H1 as [| a l1 Hs IH Hall]; cbn [app]; auto.
  constructor.
  - apply IH. intros x y Hx Hy. apply Hcross; auto. now right.
  - apply Forall_app. split; auto.
    apply Forall_forall. intros y Hy. apply Hcross; auto. now left.
Qed.

Lemma StronglySorted_app_inv (R : A -> A -> Prop) (l1 l2 : list A) :
  StronglySorted R (l1 ++ l2) ->
  StronglySorted R l1 /\ StronglySorted R l2 /\
  (forall a b, In a l1 -> In b l2 -> R a b).
Proof.
  induction l1 as [| a l1 IH]; cbn [app]; intros Hs.
  - repeat split; auto. constructor. intros a b [].
  - inversion Hs as [| ? ? Hs' Hall]; subst.
    destruct (IH Hs') as (H1 & H2 & Hcross).
    apply Forall_app in Hall as [Hall1 Hall2].
    repeat split; auto.
    + now constructor.
    + intros x y [<- | Hx] Hy; auto.
      rewrite Forall_forall in Hall2. auto.
Qed.

Lemma StronglySorted_rev (R : A -> A -> Prop) (l : list A) :
  StronglySorted (fun a b => R b a) l -> StronglySorted R (rev l).
Proof.
  induction 1 as [| a l Hs IH Hall]; cbn [rev]; [constructor |].
  apply StronglySorted_app; auto.
  - repeat constructor.
  - intros x y Hx [<- | []]. rewrite Forall_forall in Hall.
    apply Hall. now apply in_rev.
Qed.

Lemma sorted_nth (s : list A) :
  StronglySorted (key_le class) s ->
  forall (i j : nat) (a b : A),
    (i <= j)%nat -> nth_error s i = Some a -> nth_error s j = Some b ->
    (class a <= class b)%Z.
Proof.
  induction 1 as [| x s Hs IH Hall]; intros i j a b Hij Hi Hj.
  - now destruct i.
  - destruct i as [| i], j as [| j]; cbn [nth_error] in *; try lia.
    + injection Hi as <-. injection Hj as <-. lia.
    + injection Hi as <-. rewrite Forall_forall in Hall.
      apply (Hall b). eapply nth_error_In; eauto.
    + apply (IH i j); auto; lia.
Qed.

Lemma In_firstn_nth (l : list A) (k : nat) (x : A) :
  In x (firstn k l) -> exists j, (j < k)%nat /\ nth_error l j = Some x.
Proof.
  revert l. induction k as [| k IH]; intros l Hin; [contradiction |].
  destruct l as [| a l]; [contradiction |]. destruct Hin as [<- | Hin].
  - exists 0%nat. split; [lia | reflexivity].
  - destruct (IH l Hin) as (j & Hj & Hn). exists (S j). split; [lia | auto].
Qed.

(** The binary search ends at a place with nothing of a higher class
    before it and nothing of a lower class after it, and nothing of the
    class of the pivot after it when the elements of that class tie. *)
Lemma insertion_point_spec (pivot : A) (s : list A) :
  StronglySorted (key_le class) s ->
  forall (fuel left right : nat),
    (left <= right <= length s)%nat ->
    (right - left <= fuel)%nat ->
    (forall j a, (j < left)%nat -> nth_error s j = Some a ->
                 (class a <= class pivot)%Z) ->
    (forall j a, (right <= j)%nat -> nth_error s j = Some a ->
                 (class pivot <= class a)%Z /\
                 ((forall x y, class x = class pivot -> class y = class pivot ->
                               comparefn x y = 0%Z) ->
                  (class pivot < class a)%Z)) ->
    let p := Sample.insertion_point comparefn pivot s fuel left right in
    (forall j a, (j < p)%nat -> nth_error s j = Some a ->
                 (class a <= class pivot)%Z) /\
    (forall j a, (p <= j)%nat -> nth_error s j = Some a ->
                 (class pivot <= class a)%Z /\
                 ((forall x y, class x = class pivot -> class y = class pivot ->
                               comparefn x y = 0%Z) ->
                  (class pivot < class a)%Z)).
Proof.
  intros Hs. induction fuel as [| fuel IH]; intros left right Hlr Hfuel Hlow Hhigh;
    cbn [Sample.insertion_point].
  - split; [exact Hlow |]. intros j a Hj. apply Hhigh. lia.
  - destruct (Nat.ltb_spec left right) as [Hlt | Hge].
    2: { split; [exact Hlow |]. intros j a Hj. apply Hhigh. lia. }
    set (mid := (left + (right - left) / 2)%nat).
    assert (Hmid : (left <= mid < right)%nat).
    { subst mid. pose proof (Nat.div_lt (right - left) 2 ltac:(lia) ltac:(lia)). lia. }
    destruct (nth_error s mid) as [element |] eqn:He.
    2: { apply nth_error_None in He. lia. }
    destruct (Z.ltb_spec (comparefn pivot element) 0) as [Hless | Hnot].
    + apply IH; auto; try lia.
      intros j a Hj Ha.
      pose proof (sorted_nth s Hs mid j element a Hj He Ha).
      pose proof (below_class _ _ Hless). split; [lia |].
      intros Htie. destruct (Z.eq_dec (class element) (class pivot)) as [E | E].
      * specialize (Htie pivot element eq_refl E). lia.
      * lia.
    + apply IH; auto; try lia.
      intros j a Hj Ha.
      pose proof (sorted_nth s Hs j mid a element ltac:(lia) Ha He).
      pose proof (not_below_class _ _ Hnot). lia.
Qed.

Lemma insertion_point_start (pivot : A) (s : list A) :
  StronglySorted (key_le class) s ->
  let p := Sample.insertion_point comparefn pivot s (length s) 0 (length s) in
  (forall j a, (j < p)%nat -> nth_error s j = Some a ->
               (class a <= class pivot)%Z) /\
  (forall j a, (p <= j)%nat -> nth_error s j = Some a ->
               (class pivot <= class a)%Z /\
               ((forall x y, class x = class pivot -> class y = class pivot ->
                             comparefn x y = 0%Z) ->
                (class pivot < class a)%Z)).
Proof.
  intros Hs. apply insertion_point_spec; auto; try lia.
  intros j a Hj Ha. assert (nth_error s j <> None) as Hn by congruence.
  apply nth_error_Some in Hn. lia.
Qed.

Lemma insert_sorted (pivot : A) (s : list A) (p : nat) :
  StronglySorted (key_le class) s ->
  (forall j a, (j < p)%nat -> nth_error s j = Some a ->
               (class a <= class pivot)%Z) ->
  (forall j a, (p <= j)%nat -> nth_error s j = Some a ->
               (class pivot <= class a)%Z) ->
  StronglySorted (key_le class) (firstn p s ++ pivot :: skipn p s).
Proof.
  intros Hs Hlow Hhigh.
  rewrite <- (firstn_skipn p s) in Hs.
  apply StronglySorted_app_inv in Hs as (H1 & H2 & Hcross).
  apply StronglySorted_app; auto.
  - constructor; auto. apply Forall_forall. intros b Hb.
    apply In_skipn_nth in Hb as (j & Hj & Hn). exact (Hhigh j b Hj Hn).
  - intros a b Ha [<- | Hb]; [| now apply Hcross].
    apply In_firstn_nth in Ha as (j & Hj & Hn). exact (Hlow j a Hj Hn).
Qed.

Lemma BinaryInsertionSort_sorted (rest : list A) :
  forall sorted : list A,
    StronglySorted (key_le class) sorted ->
    StronglySorted (key_le class)
      (Sample.BinaryInsertionSort comparefn sorted rest).
Proof.
  induction rest as [| pivot rest IH]; intros sorted Hs;
    cbn [Sample.BinaryInsertionSort]; auto.
  destruct (insertion_point_start pivot sorted Hs) as [Hlow Hhigh].
  apply IH. apply insert_sorted; auto.
  intros j a Hj Ha. now apply (Hhigh j a).
Qed.

Lemma key_le_transitive : Relations_1.Transitive (key_le class).
Proof. intros x y z. unfold key_le. lia. Qed.

Lemma CountAndMakeRun_sorted (l : list A) :
  StronglySorted (key_le class) (fst (Sample.CountAndMakeRun comparefn l)).
Proof.
  unfold Sample.CountAndMakeRun.
  destruct l as [| elementHigh [| elementLow rest]]; cbn [fst];
    [constructor | repeat constructor |].
  pose proof (run_tail_chain (comparefn elementLow elementHigh <? 0)%Z
                rest elementLow) as Hchain.
  cbn [Nat.add firstn].
  destruct (Z.ltb_spec (comparefn elementLow elementHigh) 0) as [Hd | Ha].
  - apply StronglySorted_rev. apply Sorted_StronglySorted.
    + intros x y z. unfold key_le. lia.
    + constructor.
      * eapply Sorted_weaken; [| exact Hchain]. intros a b. apply below_class.
      * constructor. now apply below_class.
  - apply Sorted_StronglySorted; [apply key_le_transitive |].
    constructor.
    + eapply Sorted_weaken; [| exact Hchain]. intros a b. apply not_below_class.
    + constructor. now apply not_below_class.
Qed.

Lemma ArrayTimSort_sorted (l : list A) :
  StronglySorted (key_le class) (Sample.ArrayTimSort comparefn l).
Proof.
  unfold Sample.ArrayTimSort.
  pose proof (CountAndMakeRun_sorted l) as Hrun.
  destruct (Sample.CountAndMakeRun comparefn l) as [run rest].
  now apply BinaryInsertionSort_sorted.
Qed.

(** A class whose elements all tie keeps its order. *)
Variable k : Z.
Hypothesis class_ties :
  forall x y, class x = k -> class y = k -> comparefn x y = 0%Z.

Lemma insert_stable (pivot : A) (s : list A) (p : nat) :
  (forall j a, (p <= j)%nat -> nth_error s j = Some a ->
               (forall x y, class x = class pivot -> class y = class pivot ->
                            comparefn x y = 0%Z) ->
               (class pivot < class a)%Z) ->
  filter (fun a => class a =? k)%Z (firstn p s ++ pivot :: skipn p s) =
  filter (fun a => class a =? k)%Z (s ++ [pivot]).
Proof.
  intros Hhigh. rewrite <- (firstn_skipn p s) at 3.
  rewrite !filter_app. cbn [filter].
  destruct (Z.eqb_spec (class pivot) k) as [E | E].
  - assert (Hnone : filter (fun a => class a =? k)%Z (skipn p s) = []).
    { apply filter_none. intros a Ha.
      apply In_skipn_nth in Ha as (j & Hj & Hn).
      specialize (Hhigh j a Hj Hn). rewrite E in Hhigh.
      apply Z.eqb_neq. specialize (Hhigh class_ties). lia. }
    rewrite Hnone. now rewrite app_nil_r.
  - now rewrite app_nil_r.
Qed.

Lemma BinaryInsertionSort_stable (rest : list A) :
  forall sorted : list A,
    StronglySorted (key_le class) sorted ->
    filter (fun a => class a =? k)%Z
      (Sample.BinaryInsertionSort comparefn sorted rest) =
    filter (fun a => class a =? k)%Z (sorted ++ rest).
Proof.
  induction rest as [| pivot rest IH]; intros sorted Hs;
    cbn [Sample.BinaryInsertionSort].
  - now rewrite app_nil_r.
  - destruct (insertion_point_start pivot sorted Hs) as [Hlow Hhigh].
    rewrite IH.
    + rewrite filter_app, insert_stable, <- filter_app.
      * now rewrite <- app_assoc.
      * intros j a Hj Ha. now apply (Hhigh j a).
    + apply insert_sorted; auto. intros j a Hj Ha. now apply (Hhigh j a).
Qed.

(** A descending chain holds at most one element of such a class. *)
Lemma descending_once (l : list A) :
  Sorted (fun a b => (comparefn b a < 0)%Z) l ->
  (length (filter (fun a => class a =? k)%Z l) <= 1)%nat.
Proof.
  intros Hchain.
  assert (Hdesc : StronglySorted (fun a b => (class b <= class a)%Z) l).
  { apply Sorted_StronglySorted; [intros x y z; lia |].
    eapply Sorted_weaken; [| exact Hchain]. intros a b. apply below_class. }
  induction l as [| a l IH]; cbn [filter length]; [lia |].
  inversion Hchain as [| ? ? Hchain' Hhd]; subst.
  inversion Hdesc as [| ? ? Hdesc' Hall]; subst.
  destruct (Z.eqb_spec (class a) k) as [E | E]; [| now apply IH].
  assert (Hnone : filter (fun x => class x =? k)%Z l = []).
  { apply filter_none. intros c Hc. apply Z.eqb_neq.
    destruct l as [| b l]; [contradiction |].
    inversion Hhd as [| ? ? Hba]; subst.
    pose proof (below_class _ _ Hba) as Hle.
    assert (class b <> class a).
    { intros Eb. assert (comparefn b a = 0%Z) by (apply class_ties; congruence).
      lia. }
    destruct Hc as [<- | Hc]; [lia |].
    inversion Hdesc' as [| ? ? _ Hall']; subst.
    rewrite Forall_forall in Hall'. specialize (Hall' c Hc). cbv beta in Hall'. lia. }
  rewrite Hnone. cbn. lia.
Qed.

Lemma CountAndMakeRun_stable (l : list A) :
  filter (fun a => class a =? k)%Z
    (fst (Sample.CountAndMakeRun comparefn l)
     ++ snd (Sample.CountAndMakeRun comparefn l)) =
  filter (fun a => class a =? k)%Z l.
Proof.
  unfold Sample.CountAndMakeRun.
  destruct l as [| elementHigh [| elementLow rest]];
    cbn [fst snd]; rewrite ?app_nil_r; auto.
  pose proof (run_tail_chain (comparefn elementLow elementHigh <? 0)%Z
                rest elementLow) as Hchain.
  set (n := (2 + _)%nat). set (l := elementHigh :: elementLow :: rest).
  assert (Hl : filter (fun a => class a =? k)%Z l =
               filter (fun a => class a =? k)%Z (firstn n l)
               ++ filter (fun a => class a =? k)%Z (skipn n l))
    by now rewrite <- filter_app, firstn_skipn.
  rewrite Hl, filter_app. f_equal.
  destruct (Z.ltb_spec (comparefn elementLow elementHigh) 0) as [Hd | Ha]; auto.
  rewrite filter_rev.
  assert (Hone : (length (filter (fun a => class a =? k)%Z (firstn n l)) <= 1)%nat).
  { apply descending_once. subst n l. cbn [Nat.add firstn].
    constructor; [exact Hchain | now constructor]. }
  destruct (filter _ (firstn n l)) as [| x [| y f]]; auto.
  cbn [length] in Hone. lia.
Qed.

Lemma ArrayTimSort_stable (l : list A) :
  filter (fun a => class a =? k)%Z (Sample.ArrayTimSort comparefn l) =
  filter (fun a => class a =? k)%Z l.
Proof.
  unfold Sample.ArrayTimSort.
  pose proof (CountAndMakeRun_sorted l) as Hrun.
  pose proof (CountAndMakeRun_stable l) as Hst.
  destruct (Sample.CountAndMakeRun comparefn l) as [run rest].
  cbn [fst snd] in *. rewrite <- Hst. now apply BinaryInsertionSort_stable.
Qed.

End TimSortLaws.

Lemma Sample_sort_rearranges : @sort_rearranges Sample.deps_two_columns.
Proof. intros comparefn l. apply ArrayTimSort_perm. Qed.

Lemma Sample_sort_respects_classes :
  @sort_respects_classes Sample.deps_two_columns.
Proof.
  intros comparefn class l Hclasses. split.
  - now apply ArrayTimSort_sorted.
  - intros k Hties. now apply ArrayTimSort_stable.
Qed.

Lemma handleInput_suggestions_witness :
  let deps := Sample.deps_two_columns in
  let st := @Sample.state_at deps (lit "IF(T") (Some (lit "T")) 5 in
  let completions := or_empty (@complete deps (@suggestionsList deps) (lit "T")) in
  exists st' l columns,
    @handleInput deps st = Returned st' /\
    wordToComplete st' = lit "T" /\
    suggestion st' = Some l /\
    selected st' = 0%Z /\ priority st' = (-1)%Z /\
    Permutation (filter is_column completions) columns /\
    l = columns ++ filter is_function completions ++ filter is_op completions.
Proof.
  intros deps st completions.
  destruct (proj2 (@handleInput_suggestions deps st
                     (Sample.editor_at (lit "IF(T") (Some (lit "T")) 5)
                     (Sample.one_line (lit "IF(T") (Some (lit "T")))
                     {| lineNumber := 1; column := 5 |}
                     completions
                     eq_refl eq_refl eq_refl eq_refl eq_refl))
    as (st' & l & Hrun & Hword & Hsugg & Hsel & _ & Hinside & _).
  destruct (Hinside eq_refl) as (_ & Hpriority & Horder).
  destruct (Horder Sample_sort_rearranges Sample_sort_respects_classes)
    as (columns & Hcolumns & Hl).
  exists st', l, columns. repeat split; assumption.
Defined.

(** With one column to offer, and with two: between parentheses the
    sample engine leaves the two columns in the opposite order. *)
Example handleInput_sample :
  option_map (map sug_text)
    (suggestion (state_of (@handleInput Sample.deps
       (@Sample.state_at Sample.deps (lit "IF(T") (Some (lit "T")) 5)))) =
  Some [lit "Title"; lit "TRIM()"] /\
  option_map (map sug_text)
    (suggestion (state_of (@handleInput Sample.deps_two_columns
       (@Sample.state_at Sample.deps_two_columns
          (lit "IF(T") (Some (lit "T")) 5)))) =
  Some [lit "Total"; lit "Title"; lit "TRIM()"] /\
  option_map (map sug_text)
    (suggestion (state_of (@handleInput Sample.deps_two_columns
       (@Sample.state_at Sample.deps_two_columns
          (lit "T") (Some (lit "T")) 2)))) =
  Some [lit "Title"; lit "Total"; lit "TRIM()"].
Proof. repeat split; vm_compute; reflexivity. Qed.

(** The order the sample engine leaves among two columns. *)
Example columns_first_sample :
  let entry (text : string) (type : SuggestionType) :=
    {| sug_text := lit text; sug_type := type; doc := None; uidt := None;
       unsupported := false |} in
  map sug_text
    (Sample.ArrayTimSort columns_first
       [entry "Title"%string type_column; entry "Total"%string type_column;
        entry "TRIM()"%string type_function]) =
  [lit "Total"; lit "Title"; lit "TRIM()"].
Proof. vm_compute. reflexivity. Qed.

Example suggestionsList_sample :
  map sug_text (@suggestionsList Sample.deps) =
  map lit ["SUM()"; "TRIM()"; "Title"; "+"; "-"; "*"; "/"; ">"; "<"; "==";
           "<="; ">="; "!="; "&"; "AVG()"]%string.
Proof. vm_compute. reflexivity. Qed.

(** ** Selecting a suggestion *)

Lemma at_index_Some_range (A : Type) (arr : list A) (i : Z) (x : A) :
  at_index arr i = Some x -> (0 <= i < Z.of_nat (length arr))%Z.
Proof.
  unfold at_index. destruct (Z.ltb_spec i 0); [discriminate |].
  intros Hn. assert (nth_error arr (Z.to_nat i) <> None) as Hlt by congruence.
  apply nth_error_Some in Hlt. lia.
Qed.

Lemma variableList_column (sugg : list Suggestion) (i : Z) (item : Suggestion) :
  at_index (variableList sugg) i = Some item -> sug_type item = type_column.
Proof.
  unfold at_index. destruct (i <? 0)%Z; [discriminate |].
  intros Hn. apply nth_error_In in Hn. apply filter_In in Hn as [_ Ht].
  now destruct (sug_type item).
Qed.

(** C10. When the selected index points at an entry of the list of
    suggested formulas that is marked unsupported, [selectText] returns
    with the editor as it was: no edit is executed and the text is left
    alone.  In every state, [selectText] either leaves the editor as it
    was or goes through [appendText] with an item that is not an
    unsupported function. *)
Theorem selectText_skips_unsupported `{Deps} (st : State) :
  (forall (sugg : list Suggestion) (item : Suggestion),
     suggestion st = Some sugg ->
     at_index (suggestedFormulas sugg) (selected st) = Some item ->
     unsupported item = true ->
     exists st',
       selectText st = Returned st' /\
       editor st' = editor st /\
       (forall ed, editor st = Some ed ->
                   exists ed', editor st' = Some ed' /\
                               executed ed' = executed ed /\
                               getModel ed' = getModel ed)) /\
  (editor (state_of (selectText st)) = editor st \/
   exists item,
     (sug_type item = type_function -> unsupported item = false) /\
     selectText st =
     and_then (appendText (Some item) st)
              (fun st => Returned (set_selected 0 st))).
Proof.
  split.
  - intros sugg item Hs Hi Hu.
    pose proof (at_index_Some_range _ _ _ _ Hi) as [Hlo Hhi].
    unfold selectText. rewrite Hs.
    destruct ((selected st >? -1)%Z
              && (selected st <? Z.of_nat (length suggestionsList))%Z).
    + apply Z.ltb_lt in Hhi. rewrite Hhi, Hi, Hu.
      exists st. repeat split; auto. intros ed He. exists ed. auto.
    + exists (set_selected 0 st). repeat split; auto.
      intros ed He. exists ed. auto.
  - unfold selectText. destruct (suggestion st) as [sugg |]; [| now left].
    destruct (_ && _); [| now left].
    destruct (selected st <? Z.of_nat (length (suggestedFormulas sugg)))%Z.
    + destruct (at_index (suggestedFormulas sugg) (selected st)) as [item |];
        [| now left].
      destruct (unsupported item) eqn:Hu; [now left |].
      right. exists item. split; auto.
    + destruct (at_index (variableList sugg) _) as [item |] eqn:Hv; [| now left].
      right. exists item. split; auto.
      apply variableList_column in Hv. congruence.
Qed.

Lemma selectText_skips_unsupported_witness :
  let st :=
    set_selected 13
      (@Sample.state_at Sample.deps (lit "A") (Some (lit "A")) 2) in
  exists st',
    @selectText Sample.deps st = Returned st' /\
    editor st' = editor st /\
    (forall ed, editor st = Some ed ->
                exists ed', editor st' = Some ed' /\
                            executed ed' = executed ed /\
                            getModel ed' = getModel ed).
Proof.
  intros st.
  apply (proj1 (@selectText_skips_unsupported Sample.deps st)
           (@suggestionsList Sample.deps)
           {| sug_text := lit "AVG()"; sug_type := type_function;
              doc := Some Sample.no_doc; uidt := None; unsupported := true |}).
  - reflexivity.
  - vm_compute. reflexivity.
  - reflexivity.
Defined.

Example selectText_inserts_supported :
  let st :=
    set_selected 1
      (@Sample.state_at Sample.deps (lit "T") (Some (lit "T")) 2) in
  map edit_text
    (match editor (state_of (@selectText Sample.deps st)) with
     | Some ed => executed ed
     | None => []
     end) = [lit "TRIM()"; []].
Proof. vm_compute. reflexivity. Qed.

(** ** Validation *)

Lemma dropWhile_nil (p : N -> bool) (s : text) :
  dropWhile p s = [] <-> forallb p s = true.
Proof.
  induction s as [| c s IH]; simpl; [tauto |].
  destruct (p c); simpl; [exact IH |]. split; discriminate.
Qed.

Lemma dropWhile_idem (p : N -> bool) (s : text) :
  forallb p (dropWhile p s) = true -> dropWhile p s = [].
Proof.
  induction s as [| c s IH]; simpl; auto.
  destruct (p c) eqn:Hc; auto. simpl. rewrite Hc. discriminate.
Qed.

Lemma forallb_rev (p : N -> bool) (s : text) :
  forallb p (rev s) = forallb p s.
Proof.
  induction s as [| c s IH]; simpl; auto.
  rewrite forallb_app, IH. simpl. rewrite andb_true_r. apply andb_comm.
Qed.

(** [trim] leaves nothing exactly of the strings made of white space. *)
Lemma trim_blank (s : text) :
  truthy (trim s) = false <-> forallb isSpace s = true.
Proof.
  assert (Ht : forall u : text, truthy u = false <-> u = []).
  { intros [| ? ?]; simpl; split; auto; discriminate. }
  rewrite Ht. unfold trim. split.
  - intros E. apply (f_equal (@rev N)) in E. rewrite rev_involutive in E.
    simpl in E. apply dropWhile_nil in E. rewrite forallb_rev in E.
    apply dropWhile_idem in E. now apply dropWhile_nil.
  - intros E. apply dropWhile_nil in E. now rewrite E.
Qed.

(** C3. A missing, empty or blank formula is rejected with 'Required'.
    Any other formula is handed to the SDK and the outcome of the
    validator is the outcome of that call: it resolves when the call
    returns, and when the call throws it rejects.  For a [FormulaError]
    whose [extra] holds a non-empty [key] the message is the translation
    [t(key, extra)]; for a [FormulaError] without such a key and for any
    other error it is the message of the thrown error itself. *)
Theorem formula_raw_validator_correct `{Deps} `{Sdk} (formula : option text) :
  let blank :=
    match formula with Some f => forallb isSpace f | None => true end in
  (blank = true -> formula_raw_validator formula = Rejected (lit "Required")) /\
  (forall f, formula = Some f -> blank = false ->
     let outcome := validateFormulaAndExtractTreeWithType (validator_args f) in
     (formula_raw_validator formula = Resolved <-> exists tree, outcome = inl tree) /\
     (forall extra message k,
        outcome = inr (FormulaError (Some extra) message) ->
        key extra = Some k -> k <> [] ->
        formula_raw_validator formula = Rejected (t_i18n k extra)) /\
     (forall extra message,
        outcome = inr (FormulaError (Some extra) message) ->
        key extra = None \/ key extra = Some [] ->
        formula_raw_validator formula = Rejected message) /\
     (forall message,
        outcome = inr (FormulaError None message) ->
        formula_raw_validator formula = Rejected message) /\
     (forall message,
        outcome = inr (OtherError message) ->
        formula_raw_validator formula = Rejected message)).
Proof.
  intros blank. split.
  - destruct formula as [f |]; simpl in *; auto.
    intros Hb. apply trim_blank in Hb. now rewrite Hb.
  - intros f -> Hb outcome. subst blank.
    assert (Ht : truthy (trim f) = true).
    { destruct (truthy (trim f)) eqn:E; auto.
      apply trim_blank in E. congruence. }
    unfold formula_raw_validator. rewrite Ht. cbn [negb].
    fold (validator_args f). fold outcome.
    destruct outcome as [tree | e].
    + repeat split; try discriminate. now exists tree.
    + split; [| split; [| split; [| split]]].
      * split; [| intros (tree & E); discriminate].
        destruct e as [[extra |] m | m]; try discriminate.
        destruct (key extra) as [[| c k] |]; discriminate.
      * intros extra message k E Hk Hne. injection E as ->.
        rewrite Hk. destruct k as [| c k]; [congruence | reflexivity].
      * intros extra message E Hk. injection E as ->.
        destruct Hk as [-> | ->]; reflexivity.
      * intros message E. injection E as ->. reflexivity.
      * intros message E. injection E as ->. reflexivity.
Qed.

Lemma formula_raw_validator_correct_witness :
  @formula_raw_validator Sample.deps Sample.sdk (Some (lit "  ")) =
    Rejected (lit "Required") /\
  @formula_raw_validator Sample.deps Sample.sdk (Some (lit "1 +")) =
    Rejected (lit "translated: msg.formula.invalid").
Proof.
  split.
  - apply (@formula_raw_validator_correct Sample.deps Sample.sdk (Some (lit "  "))).
    reflexivity.
  - exact (proj1 (proj2 (proj2 (@formula_raw_validator_correct Sample.deps
                                  Sample.sdk (Some (lit "1 +")))
                           (lit "1 +") eq_refl eq_refl))
             {| key := Some (lit "msg.formula.invalid"); extra_fields := [] |}
             (lit "Invalid formula")
             (lit "msg.formula.invalid")
             eq_refl eq_refl ltac:(discriminate)).
Defined.

(** C7. [parsedTree] is the tree the SDK returns for the current formula,
    which is [formula] when that is a non-empty string and [formula_raw]
    otherwise; when the SDK call throws, it is an object whose data type
    is [UNKNOWN]. *)
Theorem parsedTree_correct `{Deps} `{Sdk}
  (source_type : option text) (vModel : VModel) :
  let outcome :=
    validateFormulaAndExtractTreeWithType (parsedTree_args source_type vModel) in
  (forall tree, outcome = inl tree -> parsedTree source_type vModel = tree) /\
  (forall e, outcome = inr e ->
             parsedTree source_type vModel =
             {| dataType := UNKNOWN; sdk_properties := None |}) /\
  (forall f, formula vModel = Some f -> f <> [] ->
             arg_formula (parsedTree_args source_type vModel) = Some f) /\
  (formula vModel = None \/ formula vModel = Some [] ->
   arg_formula (parsedTree_args source_type vModel) = formula_raw vModel).
Proof.
  intros outcome. unfold parsedTree. fold (parsedTree_args source_type vModel).
  fold outcome. repeat split.
  - now intros tree ->.
  - now intros e ->.
  - intros f Hf Hne. simpl. rewrite Hf. destruct f; [congruence | reflexivity].
  - intros [Hf | Hf]; simpl; now rewrite Hf.
Qed.

Lemma parsedTree_correct_witness :
  @parsedTree Sample.deps Sample.sdk None
    {| formula := None; formula_raw := Some (lit "1 +") |} =
  {| dataType := UNKNOWN; sdk_properties := None |}.
Proof.
  apply (proj1 (proj2 (@parsedTree_correct Sample.deps Sample.sdk None
                         {| formula := None; formula_raw := Some (lit "1 +") |})))
    with (e := FormulaError
                 (Some {| key := Some (lit "msg.formula.invalid");
                          extra_fields := [] |})
                 (lit "Invalid formula")).
  reflexivity.
Defined.

(** ** Roles *)

Lemma findIndex_from_spec (A : Type) (p : A -> bool) (arr : list A) (i : Z) :
  (0 <= i)%Z ->
  (findIndex_from p arr i = (-1)%Z /\ forallb (fun x => negb (p x)) arr = true) \/
  (exists k x, findIndex_from p arr i = (i + Z.of_nat k)%Z /\
               nth_error arr k = Some x /\ p x = true /\
               forallb (fun y => negb (p y)) (firstn k arr) = true).
Proof.
  revert i. induction arr as [| a arr IH]; intros i Hi; simpl.
  - left. auto.
  - destruct (p a) eqn:Hp.
    + right. exists 0%nat, a. simpl. repeat split; auto. lia.
    + destruct (IH (i + 1)%Z ltac:(lia)) as [[E F] | (k & x & E & Hn & Hx & F)].
      * left. auto.
      * right. exists (S k), x. simpl. rewrite Hp. repeat split; auto. lia.
Qed.

Lemma slice_nonneg (A : Type) (arr : list A) (k : nat) :
  slice arr (Z.of_nat k) = skipn k arr.
Proof.
  unfold slice. destruct (Z.ltb_spec (Z.of_nat k) 0); [lia |].
  destruct (Nat.le_ge_cases k (length arr)).
  - f_equal. lia.
  - rewrite Z.min_r by lia. rewrite Nat2Z.id.
    now rewrite skipn_all, skipn_all2.
Qed.

Lemma at_index_of_nat (A : Type) (arr : list A) (k : nat) :
  at_index arr (Z.of_nat k) = nth_error arr k.
Proof.
  unfold at_index. destruct (Z.ltb_spec (Z.of_nat k) 0); [lia |].
  now rewrite Nat2Z.id.
Qed.

(** The roles offered below a role index: every offered role sits at a
    later position of the ordered list, and in a list without repetition
    at no other position. *)
Lemma offered_after (ordered : list text) (k : nat) (r : text) :
  NoDup ordered ->
  In r (skipn (S k) ordered) ->
  (exists j, (Z.of_nat k < j)%Z /\ at_index ordered j = Some r) /\
  (forall j, at_index ordered j = Some r -> (Z.of_nat k < j)%Z).
Proof.
  intros Hnd Hin. apply In_skipn_nth in Hin as (j & Hj & Hn). split.
  - exists (Z.of_nat j). rewrite at_index_of_nat. split; [lia | auto].
  - intros j' Hj'. pose proof (at_index_Some_range _ _ _ _ Hj') as [Hlo Hhi].
    rewrite <- (Z2Nat.id j') in Hj' by lia. rewrite at_index_of_nat in Hj'.
    assert (Z.to_nat j' = j).
    { apply (NoDup_nth_error ordered); auto; [lia | congruence]. }
    lia.
Qed.

Lemma currentRoleIndex_cases (ordered : list text) (roles : option Roles) :
  currentRoleIndex ordered roles = (-1)%Z \/
  exists k own keys,
    currentRoleIndex ordered roles = Z.of_nat k /\
    nth_error ordered k = Some own /\
    roles = Some keys /\ In own (Object_keys keys).
Proof.
  unfold currentRoleIndex, findIndex.
  match goal with |- context [findIndex_from ?p _ _] =>
    destruct (findIndex_from_spec _ p ordered 0 ltac:(lia))
      as [[E _] | (k & x & E & Hn & Hx & _)] end.
  - left. exact E.
  - right. destruct roles as [keys |]; [| discriminate].
    exists k, x, keys. repeat split; auto.
    apply existsb_text_eqb. exact Hx.
Qed.

(** What both tables share: a list of offered roles that is empty without
    an own role and otherwise taken from the ordered roles after it. *)
Lemma offered_below_own
  (ordered offered : list text) (roles : option Roles) :
  NoDup ordered ->
  (currentRoleIndex ordered roles = (-1)%Z -> offered = []) ->
  (forall k, currentRoleIndex ordered roles = Z.of_nat k ->
             incl offered (skipn (S k) ordered)) ->
  let i := currentRoleIndex ordered roles in
  (forall r, In r offered ->
     (exists j, (i < j)%Z /\ at_index ordered j = Some r) /\
     (forall j, at_index ordered j = Some r -> (i < j)%Z)) /\
  (i <> (-1)%Z ->
   exists own keys, at_index ordered i = Some own /\
                    roles = Some keys /\ In own (Object_keys keys) /\
                    ~ In own offered).
Proof.
  intros Hnd Hnone Hfound i. subst i.
  destruct (currentRoleIndex_cases ordered roles)
    as [E | (k & own & keys & E & Hn & Hr & Hk)]; rewrite E.
  - rewrite (Hnone E). split; [intros r [] | intros H; congruence].
  - specialize (Hfound k E). split.
    + intros r Hin. apply offered_after; auto.
    + intros _. exists own, keys. rewrite at_index_of_nat.
      repeat split; auto. intros Hin.
      destruct (offered_after ordered k own Hnd (Hfound own Hin)) as [_ Hafter].
      specialize (Hafter (Z.of_nat k)). rewrite at_index_of_nat in Hafter.
      specialize (Hafter Hn). lia.
Qed.

Lemma workspace_offered (ordered : list text) (roles : option Roles) :
  (currentRoleIndex ordered roles = (-1)%Z ->
   WorkspaceCollaborators.accessibleRoles ordered roles = []) /\
  (forall k, currentRoleIndex ordered roles = Z.of_nat k ->
             incl (WorkspaceCollaborators.accessibleRoles ordered roles)
                  (skipn (S k) ordered)).
Proof.
  unfold WorkspaceCollaborators.accessibleRoles. split.
  - now intros ->.
  - intros k ->. destruct (Z.eqb_spec (Z.of_nat k) (-1)); [lia |].
    replace (Z.of_nat k + 1)%Z with (Z.of_nat (S k)) by lia.
    rewrite slice_nonneg. intros r Hin. now apply filter_In in Hin.
Qed.

Lemma base_offered (ordered : list text) (roles : option Roles) :
  (currentRoleIndex ordered roles = (-1)%Z ->
   AccessSettings.accessibleRoles ordered false roles = []) /\
  (forall k, currentRoleIndex ordered roles = Z.of_nat k ->
             incl (AccessSettings.accessibleRoles ordered false roles)
                  (skipn (S k) ordered)).
Proof.
  unfold AccessSettings.accessibleRoles. split.
  - now intros ->.
  - intros k ->. destruct (Z.eqb_spec (Z.of_nat k) (-1)); [lia |].
    replace (Z.of_nat k + 1)%Z with (Z.of_nat (S k)) by lia.
    rewrite slice_nonneg. cbn [negb]. apply incl_refl.
Qed.

(** C8. In both tables every role offered to a user who is not a super
    admin stands strictly after the user's own role in the ordered role
    list, and nowhere at or before it; the own role is the first ordered
    role among the keys of the user's roles, and without one nothing is
    offered.  In the base settings a super admin is offered every ordered
    role but the first. *)
Theorem accessibleRoles_below_own
  (OrderedWorkspaceRoles OrderedProjectRoles : list text)
  (workspaceRoles baseRoles : option Roles) :
  NoDup OrderedWorkspaceRoles ->
  NoDup OrderedProjectRoles ->
  let wi := currentRoleIndex OrderedWorkspaceRoles workspaceRoles in
  let bi := currentRoleIndex OrderedProjectRoles baseRoles in
  let offered_ws :=
    WorkspaceCollaborators.accessibleRoles OrderedWorkspaceRoles workspaceRoles in
  let offered_base :=
    AccessSettings.accessibleRoles OrderedProjectRoles false baseRoles in
  (forall r, In r offered_ws ->
     (exists j, (wi < j)%Z /\ at_index OrderedWorkspaceRoles j = Some r) /\
     (forall j, at_index OrderedWorkspaceRoles j = Some r -> (wi < j)%Z)) /\
  (forall r, In r offered_base ->
     (exists j, (bi < j)%Z /\ at_index OrderedProjectRoles j = Some r) /\
     (forall j, at_index OrderedProjectRoles j = Some r -> (bi < j)%Z)) /\
  (wi = (-1)%Z -> offered_ws = []) /\
  (bi = (-1)%Z -> offered_base = []) /\
  (wi <> (-1)%Z ->
   exists own keys, at_index OrderedWorkspaceRoles wi = Some own /\
                    workspaceRoles = Some keys /\ In own (Object_keys keys) /\
                    ~ In own offered_ws) /\
  (bi <> (-1)%Z ->
   exists own keys, at_index OrderedProjectRoles bi = Some own /\
                    baseRoles = Some keys /\ In own (Object_keys keys) /\
                    ~ In own offered_base) /\
  AccessSettings.accessibleRoles OrderedProjectRoles true baseRoles =
    tl OrderedProjectRoles.
Proof.
  intros Hw Hb wi bi offered_ws offered_base.
  destruct (workspace_offered OrderedWorkspaceRoles workspaceRoles) as [Hw0 Hw1].
  destruct (base_offered OrderedProjectRoles baseRoles) as [Hb0 Hb1].
  destruct (offered_below_own _ _ _ Hw Hw0 Hw1) as [Hws Hwown].
  destruct (offered_below_own _ _ _ Hb Hb0 Hb1) as [Hbase Hbown].
  repeat split; auto.
  - now apply Hws.
  - now apply Hws.
  - now apply Hbase.
  - now apply Hbase.
  - unfold AccessSettings.accessibleRoles.
    change 1%Z with (Z.of_nat 1). rewrite slice_nonneg.
    now destruct OrderedProjectRoles.
Qed.

Lemma accessibleRoles_below_own_witness :
  AccessSettings.accessibleRoles Sample.OrderedProjectRoles true
    (Some [(lit "editor", true)]) =
  tl Sample.OrderedProjectRoles.
Proof.
  assert (Hp : NoDup Sample.OrderedProjectRoles).
  { unfold Sample.OrderedProjectRoles. simpl.
    repeat (constructor; [simpl; intuition discriminate |]). constructor. }
  assert (Hw : NoDup Sample.OrderedWorkspaceRoles).
  { unfold Sample.OrderedWorkspaceRoles. simpl.
    repeat (constructor; [simpl; intuition discriminate |]). constructor. }
  apply (accessibleRoles_below_own Sample.OrderedWorkspaceRoles
           Sample.OrderedProjectRoles
           (Some [(lit "workspace-level-creator", true)])
           (Some [(lit "editor", true)]) Hw Hp).
Defined.

Example accessibleRoles_editor :
  AccessSettings.accessibleRoles Sample.OrderedProjectRoles false
    (Some [(lit "editor", true)]) =
  map lit ["commenter"; "viewer"; "no-access"]%string /\
  WorkspaceCollaborators.accessibleRoles Sample.OrderedWorkspaceRoles
    (Some [(lit "workspace-level-viewer", true)]) =
  [lit "workspace-level-no-access"].
Proof. split; vm_compute; reflexivity. Qed.

(** ** Searching collaborators *)

Lemma startsWith_spec (hay needle : text) :
  startsWith hay needle = true <-> exists post, hay = needle ++ post.
Proof.
  revert hay. induction needle as [| n needle IH]; intros hay.
  - split; [intros _; now exists hay | intros _; now destruct hay].
  - destruct hay as [| h hay]; simpl.
    + split; [discriminate | intros (post & E); discriminate].
    + rewrite andb_true_iff, IH, N.eqb_eq. split.
      * intros (-> & post & ->). now exists post.
      * intros (post & E). injection E as -> ->. split; auto. now exists post.
Qed.

(** [includes] finds the needle exactly when the string is some prefix,
    the needle and some suffix. *)
Lemma includes_spec (hay needle : text) :
  includes hay needle = true <-> exists pre post, hay = pre ++ needle ++ post.
Proof.
  induction hay as [| h hay IH]; cbn [includes].
  - rewrite orb_false_r, startsWith_spec. split.
    + intros (post & E). now exists [], post.
    + intros (pre & post & E). destruct pre; simpl in E.
      * now exists post.
      * discriminate.
  - rewrite orb_true_iff, startsWith_spec, IH. split.
    + intros [(post & E) | (pre & post & E)].
      * now exists [], post.
      * exists (h :: pre), post. simpl. now rewrite E.
    + intros (pre & post & E). destruct pre as [| p pre]; simpl in E.
      * left. now exists post.
      * right. injection E as -> ->. now exists pre, post.
Qed.

Lemma includes_empty (hay : text) : includes hay [] = true.
Proof. apply includes_spec. now exists [], hay. Qed.

Lemma filter_all (A : Type) (f : A -> bool) (l : list A) :
  (forall a, f a = true) -> filter f l = l.
Proof.
  intros Hf. induction l as [| a l IH]; simpl; auto. now rewrite Hf, IH.
Qed.

Lemma opt_includes_lower_spec
  (toLowerCase : text -> text) (s : option text) (search : text) :
  opt_includes_lower toLowerCase s search = true <->
  exists d, s = Some d /\ contains_ci toLowerCase d search.
Proof.
  destruct s as [d |]; simpl.
  - rewrite includes_spec. split.
    + intros Hc. now exists d.
    + intros (d' & E & Hc). now injection E as <-.
  - split; [discriminate | intros (d & E & _); discriminate].
Qed.

(** C9. In both tables the filtered list keeps, in their order, exactly
    the collaborators whose display name or email contains the search
    text once both are put in lower case; with an empty search text the
    list is kept as it is. *)
Theorem collaborators_filtered
  (toLowerCase : text -> text) (userSearchText : text)
  (base_collaborators : list AccessSettings.Collaborators)
  (ws_collaborators : option (list WorkspaceCollaborators.Collaborator)) :
  toLowerCase [] = [] ->
  (exists keep,
      AccessSettings.filteredCollaborators toLowerCase userSearchText
        base_collaborators = filter keep base_collaborators /\
      forall c, keep c = true <->
                (exists d, AccessSettings.display_name c = Some d /\
                           contains_ci toLowerCase d userSearchText) \/
                contains_ci toLowerCase (AccessSettings.email c) userSearchText) /\
  (userSearchText <> [] ->
   exists keep,
      WorkspaceCollaborators.filterCollaborators toLowerCase userSearchText
        ws_collaborators = filter keep (or_empty ws_collaborators) /\
      forall c, keep c = true <->
                (exists d, WorkspaceCollaborators.display_name c = Some d /\
                           contains_ci toLowerCase d userSearchText) \/
                (exists e, WorkspaceCollaborators.email c = Some e /\
                           contains_ci toLowerCase e userSearchText)) /\
  (userSearchText = [] ->
   AccessSettings.filteredCollaborators toLowerCase userSearchText
     base_collaborators = base_collaborators /\
   WorkspaceCollaborators.filterCollaborators toLowerCase userSearchText
     ws_collaborators = or_empty ws_collaborators).
Proof.
  intros Hempty. split; [| split].
  - eexists. split; [reflexivity |]. intros c. cbv beta.
    rewrite orb_true_iff, opt_includes_lower_spec, includes_spec. reflexivity.
  - intros Hne. eexists. split.
    + unfold WorkspaceCollaborators.filterCollaborators.
      destruct userSearchText; [congruence |]. cbn [truthy negb].
      destruct ws_collaborators; reflexivity.
    + intros c. cbv beta.
      rewrite orb_true_iff, !opt_includes_lower_spec. reflexivity.
  - intros ->. split.
    + unfold AccessSettings.filteredCollaborators. apply filter_all.
      intros c. rewrite Hempty, includes_empty. apply orb_true_r.
    + reflexivity.
Qed.

Lemma collaborators_filtered_witness :
  let ann :=
    {| AccessSettings.id := lit "u1"; AccessSettings.email := lit "ann@x.io";
       AccessSettings.display_name := Some (lit "Ann");
       AccessSettings.roles := lit "editor" |} in
  let bob :=
    {| AccessSettings.id := lit "u2"; AccessSettings.email := lit "bob@x.io";
       AccessSettings.display_name := None;
       AccessSettings.roles := lit "viewer" |} in
  AccessSettings.filteredCollaborators Sample.ascii_lower [] [ann; bob] = [ann; bob] /\
  WorkspaceCollaborators.filterCollaborators Sample.ascii_lower [] None = [].
Proof.
  intros ann bob.
  apply (collaborators_filtered Sample.ascii_lower [] [ann; bob] None eq_refl).
  reflexivity.
Defined.

Example filteredCollaborators_sample :
  map AccessSettings.id
    (AccessSettings.filteredCollaborators Sample.ascii_lower (lit "BOB")
       [ {| AccessSettings.id := lit "u1"; AccessSettings.email := lit "ann@x.io";
            AccessSettings.display_name := Some (lit "Ann");
            AccessSettings.roles := lit "editor" |};
         {| AccessSettings.id := lit "u2"; AccessSettings.email := lit "Bob@x.io";
            AccessSettings.display_name := None;
            AccessSettings.roles := lit "viewer" |} ]) = [lit "u2"].
Proof. vm_compute. reflexivity. Qed.

(** * Further properties *)

(** ** The word to complete *)

Lemma split_nonword_nonempty (q cur : text) (insep : bool) :
  split_nonword cur insep q <> [].
Proof.
  revert cur insep. induction q as [| c q IH]; intros cur insep; simpl.
  - discriminate.
  - destruct (isWordChar c); [apply IH |].
    destruct insep; [apply IH | discriminate].
Qed.

Lemma takeWhile_snoc (p : N -> bool) (a : text) (c : N) :
  takeWhile p (a ++ [c]) =
  if forallb p a then a ++ (if p c then [c] else []) else takeWhile p a.
Proof.
  induction a as [| x a IH]; simpl.
  - now destruct (p c).
  - destruct (p x); simpl; [| reflexivity].
    rewrite IH. now destruct (forallb p a).
Qed.

Lemma word_suffix_cons (c : N) (q : text) :
  word_suffix (c :: q) =
  if forallb isWordChar q then (if isWordChar c then c :: q else q)
  else word_suffix q.
Proof.
  unfold word_suffix. cbn [rev]. rewrite takeWhile_snoc, forallb_rev.
  destruct (forallb isWordChar q); [| reflexivity].
  rewrite rev_app_distr, rev_involutive. now destruct (isWordChar c).
Qed.

Lemma word_suffix_word (q : text) :
  forallb isWordChar q = true -> word_suffix q = q.
Proof.
  induction q as [| c q IH]; [reflexivity |].
  simpl. intros H. apply andb_true_iff in H as [Hc Hq].
  now rewrite word_suffix_cons, Hq, Hc.
Qed.

Lemma last_cons_nonempty (A : Type) (x d : A) (l : list A) :
  l <> [] -> last (x :: l) d = last l d.
Proof. destruct l; [congruence | reflexivity]. Qed.

Lemma split_nonword_last (q : text) :
  forall (cur : text) (insep : bool),
    (insep = true -> cur = []) ->
    last (split_nonword cur insep q) [] =
    if forallb isWordChar q then rev cur ++ q else word_suffix q.
Proof.
  induction q as [| c q IH]; intros cur insep Hsep.
  - simpl. now rewrite app_nil_r.
  - cbn [split_nonword forallb]. rewrite word_suffix_cons.
    destruct (isWordChar c) eqn:Hc; cbn [andb].
    + rewrite IH by discriminate. cbn [rev].
      destruct (forallb isWordChar q); [| reflexivity].
      now rewrite <- app_assoc.
    + destruct insep.
      * rewrite IH by auto. now rewrite (Hsep eq_refl).
      * rewrite last_cons_nonempty by apply split_nonword_nonempty.
        now rewrite IH.
Qed.

Lemma takeWhile_prefix (p : N -> bool) (s : text) :
  exists rest, s = takeWhile p s ++ rest /\
               match rest with [] => True | c :: _ => p c = false end.
Proof.
  induction s as [| c s (rest & E & Hr)]; simpl.
  - now exists [].
  - destruct (p c) eqn:Hc.
    + exists rest. simpl. split; [congruence | exact Hr].
    + exists (c :: s). auto.
Qed.

Lemma pop_split_word_suffix (query : text) :
  pop_or_empty (split_nonword [] false query) = word_suffix query.
Proof.
  unfold pop_or_empty. rewrite split_nonword_last by discriminate.
  cbn [rev app]. destruct (forallb isWordChar query) eqn:H; [| reflexivity].
  now rewrite word_suffix_word.
Qed.

(** X1. The word [handleInput] completes, the last piece of the keyword
    split at the runs of other characters, is the longest suffix of the
    keyword made of word characters: the keyword is some text, empty or
    ending in another character, followed by that word. *)
Theorem wordToComplete_longest_suffix (query : text) :
  let word := pop_or_empty (split_nonword [] false query) in
  word = word_suffix query /\
  forallb isWordChar word = true /\
  exists before,
    query = before ++ word /\
    (before = [] \/ exists b c, before = b ++ [c] /\ isWordChar c = false).
Proof.
  cbv zeta. rewrite pop_split_word_suffix.
  split; [reflexivity |]. unfold word_suffix.
  split; [rewrite forallb_rev; apply takeWhile_all |].
  destruct (takeWhile_prefix isWordChar (rev query)) as (rest & Hq & Hr).
  exists (rev rest). split.
  - rewrite <- rev_app_distr, <- Hq. now rewrite rev_involutive.
  - destruct rest as [| c rest]; [now left |].
    right. exists (rev rest), c. auto.
Qed.

(** ** What the suggestion list holds *)

Lemma UITypes_eqb_eq (a b : UITypes) : UITypes_eqb a b = true <-> a = b.
Proof.
  destruct a as [| | | x], b as [| | | y]; simpl;
    try (split; [discriminate | congruence]); try tauto.
  destruct (list_eq_dec N.eq_dec x y); split; congruence.
Qed.

Lemma text_eqb_eq (a b : text) : text_eqb a b = true <-> a = b.
Proof.
  unfold text_eqb. destruct (list_eq_dec N.eq_dec a b); split; congruence.
Qed.

Lemma opt_text_eqb_eq (a b : option text) : opt_text_eqb a b = true <-> a = b.
Proof.
  destruct a, b; simpl; try (split; [discriminate | congruence]); try tauto.
  rewrite text_eqb_eq. split; congruence.
Qed.

Lemma supportedColumns_In `{Deps} (c : Column) :
  In c supportedColumns <->
  exists cols, meta_columns = Some cols /\ In c cols /\
               col_uidt c <> QrCode /\ col_uidt c <> Barcode /\
               isHiddenCol c = false.
Proof.
  unfold supportedColumns. destruct meta_columns as [cols |].
  - rewrite filter_In. unfold uiTypesNotSupportedInFormulas. cbn [existsb].
    rewrite orb_false_r. split.
    + intros [Hin Hc]. exists cols. split; [reflexivity |]. split; [exact Hin |].
      destruct (UITypes_eqb (col_uidt c) QrCode) eqn:Hq; [discriminate |].
      destruct (UITypes_eqb (col_uidt c) Barcode) eqn:Hb; [discriminate |].
      cbn [orb] in Hc. destruct (isHiddenCol c); [discriminate |].
      repeat split; auto; intros E;
        apply UITypes_eqb_eq in E; congruence.
    + intros (cols' & E & Hin & Hq & Hb & Hh). injection E as <-.
      split; [exact Hin |].
      destruct (UITypes_eqb (col_uidt c) QrCode) eqn:Eq;
        [apply UITypes_eqb_eq in Eq; contradiction |].
      destruct (UITypes_eqb (col_uidt c) Barcode) eqn:Eb;
        [apply UITypes_eqb_eq in Eb; contradiction |].
      cbn [orb]. now rewrite Hh.
  - split; [intros [] | intros (cols & E & _); discriminate].
Qed.

(** X2. The entries of the suggestion list are the entries of the
    formula functions, of the offered columns and of the binary
    operators, and nothing else.  A column is offered when the table has
    it, it is neither a QR code nor a barcode, it is not hidden, it is
    not a system link to another record, and its id differs from the id
    of the column being edited; with no column being edited, a column
    without an id is not offered. *)
Theorem suggestionsList_content `{Deps} (s : Suggestion) :
  In s suggestionsList <->
  (exists fn, In fn availableFunctions /\ s = function_entry fn) \/
  (exists c cols, meta_columns = Some cols /\ In c cols /\
                  offered_column c /\ s = column_entry c) \/
  (exists o, In o availableBinOps /\ s = op_entry o).
Proof.
  assert (Hperm : In s suggestionsList <-> In s suggestionsList_unsorted).
  { unfold suggestionsList. split; apply Permutation_in.
    - symmetry. apply sort_perm.
    - apply sort_perm. }
  rewrite Hperm. unfold suggestionsList_unsorted.
  rewrite !in_app_iff, !in_map_iff.
  assert (Hcol : (exists c, column_entry c = s /\
                    In c (filter
                            (fun c =>
                               if UITypes_eqb (col_uidt c) LinkToAnotherRecord
                                  && col_system c
                               then false
                               else negb (opt_text_eqb
                                            match column_value with
                                            | Some cv => col_id cv
                                            | None => None
                                            end (col_id c)))
                            supportedColumns)) <->
                 (exists c cols, meta_columns = Some cols /\ In c cols /\
                                 offered_column c /\ s = column_entry c)).
  { split.
    - intros (c & E & Hin). apply filter_In in Hin as [Hin Hc].
      apply supportedColumns_In in Hin as (cols & Em & Hin & Hq & Hb & Hh).
      exists c, cols. split; [exact Em |]. split; [exact Hin |].
      split; [| now subst].
      destruct (UITypes_eqb (col_uidt c) LinkToAnotherRecord && col_system c)
        eqn:Hls; [discriminate |].
      apply negb_true_iff in Hc. repeat split; auto.
      + intros [Hl Hs]. apply UITypes_eqb_eq in Hl.
        rewrite Hl, Hs in Hls. discriminate.
      + intros Eid. apply not_true_iff_false in Hc. apply Hc.
        apply opt_text_eqb_eq. now rewrite Eid.
    - intros (c & cols & Em & Hin & (Hq & Hb & Hh & Hl & Hid) & E).
      exists c. split; [now subst |]. apply filter_In. split.
      + apply supportedColumns_In. exists cols. auto.
      + destruct (UITypes_eqb (col_uidt c) LinkToAnotherRecord && col_system c)
          eqn:Hls.
        * apply andb_true_iff in Hls as [Hl1 Hl2].
          apply UITypes_eqb_eq in Hl1. tauto.
        * apply negb_true_iff. apply not_true_iff_false. intros Eid.
          apply opt_text_eqb_eq in Eid. congruence. }
  split.
  - intros [(fn & E & Hin) | [Hc | (o & E & Hin)]].
    + left. exists fn. split; auto.
    + right. left. now apply Hcol.
    + right. right. exists o. split; auto.
  - intros [(fn & Hin & E) | [Hc | (o & Hin & E)]].
    + left. exists fn. split; auto.
    + right. left. now apply Hcol.
    + right. right. exists o. split; auto.
Qed.

(** ** The outcome of [handleInput] *)

Lemma sort_length (A : Type) (comparefn : A -> A -> Z) (l : list A) :
  length (sort comparefn l) = length l.
Proof. symmetry. apply Permutation_length, sort_perm. Qed.

(** X3. Without an editor, a model or a cursor position [handleInput]
    leaves the state as it is.  With them and the cursor outside strings,
    it throws exactly when the autocomplete tree gives no list of
    completions; otherwise it returns with the editor as it was.  Outside
    parentheses autocomplete is then on exactly when there is a
    completion, the priority is 1 and the list of functions is shown;
    between parentheses autocomplete is on exactly when there is a
    completion, for an engine whose sort rearranges its array. *)
Theorem handleInput_outcome `{Deps} (st : State) :
  (editor st = None -> handleInput st = Returned st) /\
  (forall ed, editor st = Some ed ->
              getModel ed = None \/ getPosition ed = None ->
              handleInput st = Returned st) /\
  (forall ed model position,
     editor st = Some ed ->
     getModel ed = Some model ->
     getPosition ed = Some position ->
     isCursorInsideString (getValue model) (getOffsetAt model position) = false ->
     let word :=
       word_suffix
         match getWordAtPosition model position with Some w => w | None => [] end in
     (complete suggestionsList word = None ->
      exists st', handleInput st = TypeError st') /\
     (forall completions,
        complete suggestionsList word = Some completions ->
        exists st',
          handleInput st = Returned st' /\
          editor st' = editor st /\
          (isCursorBetweenParenthesis (Some ed) = false ->
           autocomplete st' = negb (length completions =? 0)%nat /\
           priority st' = 1%Z /\ showFunctionList st' = true) /\
          (isCursorBetweenParenthesis (Some ed) = true ->
           sort_rearranges ->
           autocomplete st' = negb (length completions =? 0)%nat))).
Proof.
  split; [| split].
  - intros He. unfold handleInput. now rewrite He.
  - intros ed He [Hm | Hp]; unfold handleInput; rewrite He.
    + now rewrite Hm.
    + rewrite Hp. now destruct (getModel ed).
  - intros ed model position He Hm Hp Hstr word.
    assert (Hword : pop_or_empty
                      (split_nonword [] false
                         match getWordAtPosition model position with
                         | Some w => w
                         | None => []
                         end) = word).
    { apply pop_split_word_suffix. }
    assert (Hed : forall b : bool,
               editor (if b then set_priority 1 st else st) = Some ed).
    { intros []; auto. }
    unfold handleInput. rewrite He, Hm, Hp, Hstr.
    unfold getCurrentKeyword. rewrite Hm, Hp.
    cbn [set_suggestion set_selected set_priority set_wordToComplete
         editor wordToComplete suggestion showFunctionList].
    rewrite Hword, Hed.
    split.
    + intros Hc. rewrite Hc. cbn [option_map].
      destruct (isCursorBetweenParenthesis (Some ed)).
      * eexists. reflexivity.
      * cbn. destruct (showFunctionList st); cbn; eexists; reflexivity.
    + intros completions Hc. rewrite Hc. cbn [option_map].
      destruct (isCursorBetweenParenthesis (Some ed)).
      * eexists. split; [reflexivity |]. cbn.
        split; [congruence |]. split; [discriminate |].
        intros _ Hperm.
        rewrite <- (Permutation_length (Hperm columns_first _)).
        now rewrite sort_length.
      * cbn. destruct (showFunctionList st) eqn:Hshow; cbn;
          (eexists; split; [reflexivity |]; cbn;
           rewrite !sort_length, ?Hshow;
           split; [congruence |]; split; [| discriminate];
           intros _; repeat split; reflexivity).
Qed.

Lemma handleInput_outcome_witness :
  let st := @Sample.state_at Sample.deps (lit "1 + T") (Some (lit "T")) 6 in
  exists st',
    @handleInput Sample.deps st = Returned st' /\
    editor st' = editor st /\
    autocomplete st' = true /\ priority st' = 1%Z /\ showFunctionList st' = true.
Proof.
  intros st.
  destruct (proj2 (proj2 (proj2 (@handleInput_outcome Sample.deps st))
                     (Sample.editor_at (lit "1 + T") (Some (lit "T")) 6)
                     (Sample.one_line (lit "1 + T") (Some (lit "T")))
                     {| lineNumber := 1; column := 6 |}
                     eq_refl eq_refl eq_refl eq_refl)
              (or_empty (@complete Sample.deps (@suggestionsList Sample.deps) (lit "T")))
              eq_refl)
    as (st' & Hrun & Hed & Houtside & _).
  exists st'. split; [exact Hrun |]. split; [exact Hed |].
  apply Houtside. reflexivity.
Defined.

(** ** Inserting a suggestion *)

(** X4. [appendText] does nothing for a missing item, an item without
    text or an editor without a cursor position, and throws without an
    editor.  Otherwise it executes two edits: it first removes the word
    being completed, from the cursor column less the length of the word,
    but not before column 1, up to the cursor; then, at the cursor the
    editor reports after that, it inserts the text of the item, a column
    name wrapped in braces.  After a function the cursor is set before
    the last character inserted, between its parentheses.  Autocomplete
    is switched off, the word is cleared, and the suggestions become the
    columns after a function or an operator and the whole list after a
    column. *)
Theorem appendText_replaces_word `{Deps} (st : State) (item : Suggestion) :
  appendText None st = Returned st /\
  (sug_text item = [] -> appendText (Some item) st = Returned st) /\
  (sug_text item <> [] -> editor st = None ->
   appendText (Some item) st = TypeError st) /\
  (forall ed, sug_text item <> [] -> editor st = Some ed ->
              getPosition ed = None ->
              appendText (Some item) st = Returned st) /\
  (forall ed position position',
     sug_text item <> [] ->
     editor st = Some ed ->
     getPosition ed = Some position ->
     let deletion :=
       {| range :=
            {| startLineNumber := lineNumber position;
               startColumn :=
                 Z.max 1 (column position - text_length (wordToComplete st));
               endLineNumber := lineNumber position;
               endColumn := column position |};
          edit_text := []; forceMoveMarkers := true |} in
     snd (monaco_edit ed deletion) = Some position' ->
     let insertion :=
       {| range :=
            {| startLineNumber := lineNumber position';
               startColumn := column position';
               endLineNumber := lineNumber position';
               endColumn := column position' |};
          edit_text :=
            match sug_type item with
            | type_column => lit "{" ++ sug_text item ++ lit "}"
            | _ => sug_text item
            end;
          forceMoveMarkers := true |} in
     exists st' ed',
       appendText (Some item) st = Returned st' /\
       editor st' = Some ed' /\
       executed ed' = insertion :: deletion :: executed ed /\
       (1 <= startColumn (range deletion))%Z /\
       (sug_type item = type_function ->
        getPosition ed' =
        Some {| lineNumber := lineNumber position';
                column := column position' + text_length (sug_text item) - 1 |}) /\
       autocomplete st' = false /\
       wordToComplete st' = [] /\
       suggestion st' =
       Some (match sug_type item with
             | type_column => suggestionsList
             | _ => variableList suggestionsList
             end)).
Proof.
  split; [reflexivity |]. split; [| split; [| split]].
  - intros E. unfold appendText. now rewrite E.
  - intros Hne He. unfold appendText. rewrite He.
    now destruct (sug_text item).
  - intros ed Hne He Hp. unfold appendText. rewrite He, Hp.
    now destruct (sug_text item).
  - intros ed position position' Hne He Hp deletion Hp' insertion.
    unfold appendText. rewrite He, Hp.
    destruct (sug_text item) as [| c txt] eqn:Htxt; [congruence |].
    cbn [truthy negb]. fold deletion.
    unfold insertStringAtPosition.
    cbn [executeEdits getPosition]. rewrite Hp'.
    subst insertion. rewrite ?Htxt.
    destruct (sug_type item); cbn;
      (do 2 eexists; split; [reflexivity |]; cbn;
       repeat split; auto; try lia; try discriminate).
Qed.

Lemma appendText_replaces_word_witness :
  let st :=
    set_wordToComplete (lit "TR")
      (@Sample.state_at Sample.deps (lit "1 + TR") (Some (lit "TR")) 7) in
  let item :=
    {| sug_text := lit "TRIM()"; sug_type := type_function;
       doc := Some Sample.no_doc; uidt := None; unsupported := false |} in
  exists st' ed',
    @appendText Sample.deps (Some item) st = Returned st' /\
    editor st' = Some ed' /\
    map (fun e => (startColumn (range e), endColumn (range e), edit_text e))
        (executed ed') = [(7, 7, lit "TRIM()"); (5, 7, [])]%Z /\
    getPosition ed' = Some {| lineNumber := 1; column := 12 |}.
Proof.
  intros st item.
  destruct (proj2 (proj2 (proj2 (proj2 (@appendText_replaces_word Sample.deps st item))))
              (Sample.editor_at (lit "1 + TR") (Some (lit "TR")) 7)
              {| lineNumber := 1; column := 7 |}
              {| lineNumber := 1; column := 7 |})
    as (st' & ed' & Hrun & He & Hex & _ & Hpos & _).
  - discriminate.
  - reflexivity.
  - reflexivity.
  - reflexivity.
  - exists st', ed'. split; [exact Hrun |]. split; [exact He |].
    split; [now rewrite Hex | now apply Hpos].
Defined.

(** ** The row that Enter selects *)

Lemma at_index_beyond (A : Type) (arr : list A) (i : Z) :
  (Z.of_nat (length arr) <= i)%Z -> at_index arr i = None.
Proof.
  intros Hi. unfold at_index. destruct (Z.ltb_spec i 0); [reflexivity |].
  apply nth_error_None. lia.
Qed.

(** X5. With a selected index inside the suggestion list, [selectText]
    hands the highlighted row to [appendText] when that row is a formula
    that is not unsupported.  When a field is highlighted and [k]
    formulas are listed, the highlighted field is the one at the selected
    index less [k], but the one handed over is the field at the selected
    index plus [k]: the same field only when no formula is listed.  When
    there is no field that far down, nothing is inserted: the call only
    resets the selected index. *)
Theorem selectText_row `{Deps} (st : State) (sugg : list Suggestion) :
  suggestion st = Some sugg ->
  (0 <= selected st < Z.of_nat (length suggestionsList))%Z ->
  let k := Z.of_nat (length (suggestedFormulas sugg)) in
  let reset := fun st' => Returned (set_selected 0 st') in
  (selected st < k ->
   exists item,
     highlighted sugg (selected st) = Some item /\
     sug_type item <> type_column /\
     (unsupported item = false ->
      selectText st = and_then (appendText (Some item) st) reset))%Z /\
  (k <= selected st ->
   highlighted sugg (selected st) = at_index (variableList sugg) (selected st - k) /\
   selectText st =
   and_then (appendText (at_index (variableList sugg) (selected st + k)) st) reset)%Z /\
  (k <= selected st ->
   Z.of_nat (length (variableList sugg)) <= selected st + k ->
   exists st',
     selectText st = Returned st' /\
     selected st' = 0 /\
     editor st' = editor st /\ suggestion st' = suggestion st /\
     wordToComplete st' = wordToComplete st /\
     autocomplete st' = autocomplete st)%Z.
Proof.
  intros Hs Hsel k reset.
  assert (Hrange : (selected st >? -1)%Z
                   && (selected st <? Z.of_nat (length suggestionsList))%Z = true).
  { apply andb_true_iff. split; [apply Z.gtb_lt | apply Z.ltb_lt]; lia. }
  assert (Hcol : (k <= selected st)%Z ->
                 selectText st =
                 and_then (appendText (at_index (variableList sugg) (selected st + k)) st)
                          reset).
  { intros Hk. unfold selectText. rewrite Hs, Hrange. fold k.
    now replace (selected st <? k)%Z with false
      by (symmetry; apply Z.ltb_ge; lia). }
  split; [| split].
  - intros Hk.
    destruct (at_index (suggestedFormulas sugg) (selected st)) as [item |] eqn:Hi.
    + exists item. unfold highlighted. fold k.
      apply Z.ltb_lt in Hk. rewrite Hk. split; [exact Hi |]. split.
      * unfold at_index in Hi. destruct (selected st <? 0)%Z; [discriminate |].
        apply nth_error_In in Hi. apply filter_In in Hi as [_ Ht].
        intros E. rewrite E in Ht. discriminate.
      * intros Hu. unfold selectText. rewrite Hs, Hrange. fold k.
        now rewrite Hk, Hi, Hu.
    + exfalso. unfold at_index in Hi.
      destruct (Z.ltb_spec (selected st) 0); [lia |].
      apply nth_error_None in Hi. subst k. lia.
  - intros Hk. split; [| now apply Hcol].
    unfold highlighted. fold k.
    now replace (selected st <? k)%Z with false
      by (symmetry; apply Z.ltb_ge; lia).
  - intros Hk Hlen. rewrite Hcol by exact Hk.
    rewrite at_index_beyond by exact Hlen.
    exists (set_selected 0 st). repeat split.
Qed.

Lemma selectText_row_witness :
  let st :=
    set_selected 12
      (@Sample.state_at Sample.deps (lit "T") (Some (lit "T")) 2) in
  exists item,
    highlighted (@suggestionsList Sample.deps) 12 = Some item /\
    sug_type item <> type_column /\
    (unsupported item = false ->
     @selectText Sample.deps st =
     and_then (@appendText Sample.deps (Some item) st)
              (fun st' => Returned (set_selected 0 st'))).
Proof.
  intros st.
  assert (Hinside :
            (0 <= selected st < Z.of_nat (length (@suggestionsList Sample.deps)))%Z)
    by (vm_compute; split; [discriminate | reflexivity]).
  apply (proj1 (@selectText_row Sample.deps st (@suggestionsList Sample.deps)
                  eq_refl Hinside)).
  vm_compute. reflexivity.
Defined.

(** ** Moving through the suggestions *)




(** ** The name shown for a collaborator *)

Lemma indexOf_from_found (c : N) (local rest : text) (i : Z) :
  ~ In c local -> indexOf_from c (local ++ c :: rest) i = (i + text_length local)%Z.
Proof.
  revert i. induction local as [| x local IH]; intros i Hno; cbn.
  - rewrite N.eqb_refl. unfold text_length. cbn. lia.
  - destruct (N.eqb_spec x c) as [-> | _]; [exfalso; apply Hno; now left |].
    rewrite IH by (intros Hin; apply Hno; now right).
    unfold text_length. cbn [length]. lia.
Qed.

Lemma indexOf_from_missing (c : N) (s : text) (i : Z) :
  ~ In c s -> indexOf_from c s i = (-1)%Z.
Proof.
  revert i. induction s as [| x s IH]; intros i Hno; cbn; [reflexivity |].
  destruct (N.eqb_spec x c) as [-> | _]; [exfalso; apply Hno; now left |].
  apply IH. intros Hin. apply Hno. now right.
Qed.

(** X7. A collaborator is shown under the display name when there is a
    non-empty one.  Otherwise the label is the part of the email before
    its first at sign, and for an email without an at sign the email less
    its last character. *)
Theorem display_label_shown (record : AccessSettings.Collaborators) :
  (forall n, AccessSettings.display_name record = Some n -> n <> [] ->
             display_label record = n) /\
  (AccessSettings.display_name record = None \/
   AccessSettings.display_name record = Some [] ->
   (forall local rest,
       AccessSettings.email record = local ++ AT_SIGN :: rest ->
       ~ In AT_SIGN local ->
       display_label record = local) /\
   (~ In AT_SIGN (AccessSettings.email record) ->
    display_label record = removelast (AccessSettings.email record))).
Proof.
  unfold display_label. split.
  - intros n -> Hn. destruct n; [congruence | reflexivity].
  - intros Hname.
    assert (Hlabel :
              match AccessSettings.display_name record with
              | Some (c :: n) => c :: n
              | _ => slice_to (AccessSettings.email record)
                              (indexOf (AccessSettings.email record) AT_SIGN)
              end =
              slice_to (AccessSettings.email record)
                       (indexOf (AccessSettings.email record) AT_SIGN)).
    { now destruct Hname as [-> | ->]. }
    rewrite Hlabel. split.
    + intros local rest E Hno. rewrite E. unfold indexOf.
      rewrite indexOf_from_found by exact Hno.
      unfold slice_to, text_length. rewrite Z.add_0_l.
      destruct (Z.ltb_spec (Z.of_nat (length local)) 0); [lia |].
      rewrite Z.min_l by (rewrite length_app; lia).
      rewrite Nat2Z.id, firstn_app, Nat.sub_diag, firstn_all. cbn.
      apply app_nil_r.
    + intros Hno. unfold indexOf. rewrite indexOf_from_missing by exact Hno.
      unfold slice_to, text_length. cbn [Z.ltb Z.compare].
      rewrite removelast_firstn_len. f_equal. lia.
Qed.

Lemma display_label_shown_witness :
  display_label
    {| AccessSettings.id := lit "u2"; AccessSettings.email := lit "bob@x.io";
       AccessSettings.display_name := None;
       AccessSettings.roles := lit "viewer" |} = lit "bob" /\
  display_label
    {| AccessSettings.id := lit "u3"; AccessSettings.email := lit "carol";
       AccessSettings.display_name := Some [];
       AccessSettings.roles := lit "viewer" |} = lit "caro".
Proof.
  split.
  - apply (proj1 (proj2 (display_label_shown
                           {| AccessSettings.id := lit "u2";
                              AccessSettings.email := lit "bob@x.io";
                              AccessSettings.display_name := None;
                              AccessSettings.roles := lit "viewer" |})
                    (or_introl eq_refl))
             (lit "bob") (lit "x.io") eq_refl).
    vm_compute. intuition discriminate.
  - apply (proj2 (proj2 (display_label_shown
                           {| AccessSettings.id := lit "u3";
                              AccessSettings.email := lit "carol";
                              AccessSettings.display_name := Some [];
                              AccessSettings.roles := lit "viewer" |})
                    (or_intror eq_refl))).
    vm_compute. intuition discriminate.
Defined.

(** ** A string literal *)

(** The state a quote opens. *)
Lemma lex_keeps (s : Lex) (l : text) :
  (forall c, In c l -> c <> BACKSLASH /\ lex_quote s c = s) -> lex s l = s.
Proof.
  induction l as [| c l IH]; intros Hl; [reflexivity |].
  destruct (Hl c (or_introl eq_refl)) as [Hb Hq].
  cbn [lex]. apply N.eqb_neq in Hb. rewrite Hb, Hq.
  apply IH. intros d Hd. apply Hl. now right.
Qed.

Lemma lex_app_plain (s : Lex) (l1 l2 : text) :
  ~ In BACKSLASH l1 -> lex s (l1 ++ l2) = lex (lex s l1) l2.
Proof.
  revert s. induction l1 as [| c l1 IH]; intros s Hno; [reflexivity |].
  cbn [app lex].
  destruct (N.eqb_spec c BACKSLASH) as [-> | _]; [exfalso; apply Hno; now left |].
  apply IH. intros Hin. apply Hno. now right.
Qed.

(** X8. In a text that holds a string literal after a prefix without
    quotes and backslashes, the literal being a quote of either kind, a
    body without that quote and without backslashes, and the same quote
    again, [isCursorInsideString] is true exactly for the offsets after
    the opening quote and up to the closing quote: it is false before
    the literal, at its opening quote and just after its closing quote. *)
Theorem isCursorInsideString_literal
  (pre body post : text) (q : N) (offset : Z) :
  q = SQUOTE \/ q = DQUOTE ->
  (forall c, In c pre -> c <> SQUOTE /\ c <> DQUOTE /\ c <> BACKSLASH) ->
  (forall c, In c body -> c <> q /\ c <> BACKSLASH) ->
  let t := pre ++ q :: body ++ q :: post in
  let opening := text_length pre in
  let closing := (opening + 1 + text_length body)%Z in
  (offset <= closing + 1)%Z ->
  (isCursorInsideString t offset = true <-> (opening < offset <= closing)%Z).
Proof.
  intros Hq Hpre Hbody t opening closing Hoff.
  rewrite isCursorInsideString_lex. unfold prefix_before.
  set (inside := if N.eqb q SQUOTE then SingleQuoted else DoubleQuoted).
  assert (Hopen : lex_quote Code q = inside).
  { subst inside. destruct Hq as [-> | ->]; reflexivity. }
  assert (Hclose : lex_quote inside q = Code).
  { subst inside. destruct Hq as [-> | ->]; reflexivity. }
  assert (Hqb : N.eqb q BACKSLASH = false).
  { destruct Hq as [-> | ->]; reflexivity. }
  assert (Hprefix : forall l, (forall c, In c l -> In c pre) -> lex Code l = Code).
  { intros l Hl. apply lex_keeps. intros c Hc.
    destruct (Hpre c (Hl c Hc)) as (Hs & Hd & Hb). split; [exact Hb |].
    cbn [lex_quote]. apply N.eqb_neq in Hs, Hd. now rewrite Hs, Hd. }
  assert (Hin : forall l, (forall c, In c l -> In c body) -> lex inside l = inside).
  { intros l Hl. apply lex_keeps. intros c Hc.
    destruct (Hbody c (Hl c Hc)) as (Hcq & Hb). split; [exact Hb |].
    apply N.eqb_neq in Hcq. subst inside.
    destruct Hq as [-> | ->]; cbn; now rewrite Hcq. }
  assert (Hnob : ~ In BACKSLASH pre).
  { intros Hb. destruct (Hpre _ Hb) as (_ & _ & E). congruence. }
  assert (Hnob' : ~ In BACKSLASH body).
  { intros Hb. destruct (Hbody _ Hb) as (_ & E). congruence. }
  subst opening closing. unfold text_length in *.
  set (k := Z.to_nat offset).
  destruct (Nat.le_gt_cases k (length pre)) as [Hk | Hk].
  - (* before the literal or at its opening quote *)
    subst t. rewrite firstn_app.
    replace (k - length pre)%nat with 0%nat by lia. cbn [firstn].
    rewrite app_nil_r, Hprefix.
    + cbn. split; [discriminate | lia].
    + intros c Hc. rewrite <- (firstn_skipn k pre). apply in_or_app. now left.
  - destruct (Nat.le_gt_cases k (length pre + 1 + length body)) as [Hk' | Hk'].
    + (* inside the literal *)
      subst t. rewrite firstn_app, firstn_all2 by lia.
      replace (k - length pre)%nat with (S (k - length pre - 1)) by lia.
      cbn [firstn]. rewrite firstn_app.
      replace (k - length pre - 1 - length body)%nat with 0%nat by lia.
      cbn [firstn]. rewrite app_nil_r.
      rewrite lex_app_plain by exact Hnob.
      rewrite (Hprefix pre) by auto. cbn [lex]. rewrite Hqb, Hopen.
      rewrite Hin.
      * assert (unterminated inside = true)
          by (subst inside; now destruct (N.eqb q SQUOTE)).
        split; [lia | auto].
      * intros c Hc. rewrite <- (firstn_skipn (k - length pre - 1) body).
        apply in_or_app. now left.
    + (* just after the closing quote *)
      assert (Ek : k = (length pre + 1 + length body + 1)%nat) by lia.
      subst t. rewrite firstn_app, firstn_all2 by lia.
      replace (k - length pre)%nat with (S (length body + 1)) by lia.
      cbn [firstn]. rewrite firstn_app, firstn_all2 by lia.
      replace (length body + 1 - length body)%nat with 1%nat by lia.
      cbn [firstn].
      rewrite lex_app_plain by exact Hnob.
      rewrite (Hprefix pre) by auto. cbn [lex]. rewrite Hqb, Hopen.
      rewrite lex_app_plain by exact Hnob'.
      rewrite (Hin body) by auto. cbn [lex]. rewrite Hqb, Hclose.
      cbn. split; [discriminate | lia].
Qed.

Lemma isCursorInsideString_literal_witness :
  isCursorInsideString (lit "CONCAT('a b', c)") 10 = true /\
  isCursorInsideString (lit "CONCAT('a b', c)") 12 = false.
Proof.
  assert (Hpre : forall c, In c (lit "CONCAT(") ->
                           c <> SQUOTE /\ c <> DQUOTE /\ c <> BACKSLASH)
    by (vm_compute; intuition (subst; discriminate)).
  assert (Hbody : forall c, In c (lit "a b") -> c <> SQUOTE /\ c <> BACKSLASH)
    by (vm_compute; intuition (subst; discriminate)).
  split.
  - apply (isCursorInsideString_literal (lit "CONCAT(") (lit "a b") (lit ", c)")
             SQUOTE 10 (or_introl eq_refl) Hpre Hbody); vm_compute;
      [discriminate | split; [reflexivity | discriminate]].
  - apply not_true_iff_false. intros Hin.
    apply (isCursorInsideString_literal (lit "CONCAT(") (lit "a b") (lit ", c)")
             SQUOTE 12 (or_introl eq_refl) Hpre Hbody) in Hin;
      vm_compute in *; [intuition congruence | discriminate].
Defined.

(** ** Selecting all rows *)

Section SelectionLaws.

Variable K : Type.
Variable eqb : K -> K -> bool.
Hypothesis eqb_eq : forall a b, eqb a b = true <-> a = b.

Lemma eqb_same (a : K) : eqb a a = true.
Proof. now apply eqb_eq. Qed.

Lemma eqb_other (a b : K) : a <> b -> eqb a b = false.
Proof.
  intros Hne. destruct (eqb a b) eqn:E; [| reflexivity].
  apply eqb_eq in E. contradiction.
Qed.

Lemma selection_set_same (k : K) (v : bool) (sel : Selection K) :
  selection_get eqb k (selection_set eqb k v sel) = Some v.
Proof.
  unfold selection_get. induction sel as [| [k' v'] sel IH]; cbn.
  - now rewrite eqb_same.
  - destruct (eqb k' k) eqn:E; cbn; rewrite E; [reflexivity | exact IH].
Qed.

Lemma selection_set_other (k k' : K) (v : bool) (sel : Selection K) :
  k' <> k ->
  selection_get eqb k' (selection_set eqb k v sel) = selection_get eqb k' sel.
Proof.
  intros Hne. unfold selection_get. induction sel as [| [k0 v0] sel IH]; cbn.
  - now rewrite (eqb_other k k') by congruence.
  - destruct (eqb k0 k) eqn:E; cbn.
    + apply eqb_eq in E. subst k0. now rewrite (eqb_other k k') by congruence.
    + destruct (eqb k0 k'); [reflexivity | exact IH].
Qed.

Lemma selection_set_keys (k : K) (v : bool) (sel : Selection K) :
  map fst (selection_set eqb k v sel) =
  map fst sel ++ (if existsb (fun k' => eqb k' k) (map fst sel) then [] else [k]).
Proof.
  induction sel as [| [k' v'] sel IH]; cbn; [reflexivity |].
  destruct (eqb k' k) eqn:E; cbn.
  - now rewrite app_nil_r.
  - now rewrite IH.
Qed.

Lemma existsb_key (k : K) (keys : list K) :
  existsb (fun k' => eqb k' k) keys = true <-> In k keys.
Proof.
  rewrite existsb_exists. split.
  - intros (k' & Hin & E). apply eqb_eq in E. now subst.
  - intros Hin. exists k. split; [exact Hin | apply eqb_same].
Qed.

Lemma selection_set_NoDup (k : K) (v : bool) (sel : Selection K) :
  NoDup (map fst sel) -> NoDup (map fst (selection_set eqb k v sel)).
Proof.
  intros Hnd. rewrite selection_set_keys.
  destruct (existsb _ (map fst sel)) eqn:E; [now rewrite app_nil_r |].
  apply NoDup_app; auto.
  - repeat constructor. intros [].
  - intros x Hx [<- | []].
    apply existsb_key in Hx. congruence.
Qed.

Lemma selection_set_incl (k : K) (v : bool) (sel : Selection K) (keys : list K) :
  In k keys -> incl (map fst sel) keys ->
  incl (map fst (selection_set eqb k v sel)) keys.
Proof.
  intros Hk Hincl. rewrite selection_set_keys. apply incl_app; auto.
  destruct (existsb _ _); [intros x [] | intros x [<- | []]; exact Hk].
Qed.

(** Setting the keys of a list one after the other. *)
Lemma toggle_get (keys : list K) (v : bool) :
  forall (sel : Selection K) (k : K),
    In k keys \/ selection_get eqb k sel = Some v ->
    selection_get eqb k
      (fold_left (fun s k' => selection_set eqb k' v s) keys sel) = Some v.
Proof.
  induction keys as [| k0 keys IH]; intros sel k Hk; cbn.
  - destruct Hk as [[] | Hk]; exact Hk.
  - apply IH. destruct Hk as [[-> | Hin] | Hget].
    + right. apply selection_set_same.
    + now left.
    + right. destruct (eqb k0 k) eqn:E.
      * apply eqb_eq in E. subst. apply selection_set_same.
      * rewrite selection_set_other; auto. intros ->. now rewrite eqb_same in E.
Qed.

Lemma toggle_keys (keys all : list K) (v : bool) :
  forall sel : Selection K,
    incl keys all ->
    NoDup (map fst sel) -> incl (map fst sel) all ->
    NoDup (map fst (fold_left (fun s k' => selection_set eqb k' v s) keys sel)) /\
    incl (map fst (fold_left (fun s k' => selection_set eqb k' v s) keys sel)) all.
Proof.
  induction keys as [| k0 keys IH]; intros sel Hkeys Hnd Hincl; cbn; auto.
  apply IH.
  - intros x Hx. apply Hkeys. now right.
  - now apply selection_set_NoDup.
  - apply selection_set_incl; auto. apply Hkeys. now left.
Qed.

Lemma selection_get_In (k : K) (b : bool) (sel : Selection K) :
  NoDup (map fst sel) -> In (k, b) sel -> selection_get eqb k sel = Some b.
Proof.
  unfold selection_get. induction sel as [| [k' v'] sel IH]; intros Hnd Hin;
    [contradiction |].
  cbn in *. inversion Hnd as [| ? ? Hnot Hnd']; subst.
  destruct Hin as [E | Hin].
  - injection E as -> ->. now rewrite eqb_same.
  - destruct (eqb k' k) eqn:E.
    + apply eqb_eq in E. subst k'. exfalso. apply Hnot.
      apply in_map_iff. now exists (k, b).
    + now apply IH.
Qed.

Lemma selection_get_Some (k : K) (b : bool) (sel : Selection K) :
  selection_get eqb k sel = Some b -> In (k, b) sel.
Proof.
  unfold selection_get.
  destruct (find _ sel) as [[k' v'] |] eqn:Hf; [| discriminate].
  cbn. intros E. injection E as ->. apply find_some in Hf as [Hin E].
  cbn in E. apply eqb_eq in E. now subst.
Qed.

(** All rows are reported selected exactly when there is a row and each
    row is selected, as long as the selection holds no other key. *)
Lemma selectAll_get_rows (keys : list K) (sel : Selection K) :
  NoDup keys -> NoDup (map fst sel) -> incl (map fst sel) keys ->
  selectAll_get sel (length keys) = true <->
  keys <> [] /\ forall k, In k keys -> selection_get eqb k sel = Some true.
Proof.
  intros Hnk Hns Hincl. unfold selectAll_get.
  rewrite !andb_true_iff, forallb_forall, Nat.ltb_lt, Nat.eqb_eq, !length_map.
  split.
  - intros [[Hall Hpos] Hlen]. split.
    + intros ->. cbn in Hlen. lia.
    + intros k Hk.
      assert (Hback : incl keys (map fst sel)).
      { apply NoDup_length_incl; auto. rewrite length_map. lia. }
      apply Hback in Hk. apply in_map_iff in Hk as ([k' b] & E & Hin).
      cbn in E. subst k'. rewrite (selection_get_In k b sel Hns Hin).
      f_equal. apply Hall. apply in_map_iff. now exists (k, b).
  - intros [Hne Hrows].
    assert (Hback : incl keys (map fst sel)).
    { intros k Hk. apply Hrows, selection_get_Some in Hk.
      apply in_map_iff. now exists (k, true). }
    assert (Hlen : length sel = length keys).
    { apply Nat.le_antisymm.
      - rewrite <- (length_map fst sel). now apply NoDup_incl_length.
      - rewrite <- (length_map fst sel). now apply NoDup_incl_length. }
    repeat split; auto.
    + intros b Hb. apply in_map_iff in Hb as ([k b'] & E & Hin). cbn in E. subst b'.
      assert (Hk : In k keys).
      { apply Hincl. apply in_map_iff. now exists (k, b). }
      apply Hrows in Hk. rewrite (selection_get_In k b sel Hns Hin) in Hk.
      congruence.
    + rewrite Hlen. destruct keys; [congruence | cbn; lia].
Qed.

End SelectionLaws.

Lemma base_toggleSelectAll_keys (value : bool)
  (filtered : list AccessSettings.Collaborators) (selected : Selection text) :
  base_toggleSelectAll value filtered selected =
  fold_left (fun s k => selection_set text_eqb k value s)
            (map AccessSettings.id filtered) selected.
Proof.
  unfold base_toggleSelectAll. revert selected.
  induction filtered as [| c filtered IH]; intros selected; cbn; auto.
Qed.

(** X9. In the base table, with distinct collaborators listed and a
    selection that holds no key but theirs, the select-all box is
    reported checked exactly when there is a row and every row is
    selected.  Checking or unchecking it gives every listed row that
    value, so afterwards it reads as it was set, except on an empty
    table, where it always reads unchecked.  After a search has made the
    list shorter, it reads unchecked although every row still shown is
    selected. *)
Theorem selectAll_toggle
  (filtered : list AccessSettings.Collaborators) (selected : Selection text) :
  NoDup (map AccessSettings.id filtered) ->
  NoDup (map fst selected) ->
  incl (map fst selected) (map AccessSettings.id filtered) ->
  (selectAll_get selected (length filtered) = true <->
   filtered <> [] /\
   forall c, In c filtered ->
             selection_get text_eqb (AccessSettings.id c) selected = Some true) /\
  (forall value,
     let selected' := base_toggleSelectAll value filtered selected in
     (forall c, In c filtered ->
                selection_get text_eqb (AccessSettings.id c) selected' = Some value) /\
     NoDup (map fst selected') /\
     incl (map fst selected') (map AccessSettings.id filtered) /\
     selectAll_get selected' (length filtered) =
       value && negb (length filtered =? 0)%nat /\
     (forall shown : list AccessSettings.Collaborators,
         (length shown < length filtered)%nat ->
         selectAll_get selected' (length shown) = false)).
Proof.
  intros Hids Hsel Hincl.
  pose proof (selectAll_get_rows _ text_eqb text_eqb_eq
                (map AccessSettings.id filtered)) as Hrows.
  assert (Hrows' : forall sel,
             NoDup (map fst sel) ->
             incl (map fst sel) (map AccessSettings.id filtered) ->
             selectAll_get sel (length filtered) = true <->
             filtered <> [] /\
             forall c, In c filtered ->
                       selection_get text_eqb (AccessSettings.id c) sel = Some true).
  { intros sel Hn Hi. specialize (Hrows sel Hids Hn Hi).
    rewrite length_map in Hrows. rewrite Hrows. split.
    - intros [Hne Hall]. split; [now destruct filtered |].
      intros c Hc. apply Hall. now apply in_map.
    - intros [Hne Hall]. split; [now destruct filtered |].
      intros k Hk. apply in_map_iff in Hk as (c & <- & Hc). now apply Hall. }
  split; [now apply Hrows' |].
  intros value selected'. subst selected'. rewrite base_toggleSelectAll_keys.
  destruct (toggle_keys _ text_eqb text_eqb_eq (map AccessSettings.id filtered)
              (map AccessSettings.id filtered) value selected
              (incl_refl _) Hsel Hincl) as [Hnd' Hincl'].
  set (selected' := fold_left _ _ selected) in *.
  assert (Hget : forall c, In c filtered ->
                   selection_get text_eqb (AccessSettings.id c) selected' = Some value).
  { intros c Hc. apply (toggle_get _ text_eqb text_eqb_eq).
    left. now apply in_map. }
  assert (Hlen : length selected' = length filtered).
  { rewrite <- (length_map fst selected'), <- (length_map AccessSettings.id filtered).
    apply Nat.le_antisymm; apply NoDup_incl_length; auto.
    intros k Hk. apply in_map_iff in Hk as (c & <- & Hc).
    apply Hget, (selection_get_Some _ text_eqb text_eqb_eq) in Hc.
    apply in_map_iff. now exists (AccessSettings.id c, value). }
  split; [exact Hget |]. split; [exact Hnd' |]. split; [exact Hincl' |]. split.
  - destruct (selectAll_get selected' (length filtered)) eqn:Hall.
    + apply Hrows' in Hall as [Hne Hall]; auto.
      destruct filtered as [| c filtered]; [congruence |].
      specialize (Hall c (or_introl eq_refl)).
      rewrite Hget in Hall by now left. injection Hall as ->. reflexivity.
    + destruct value; [| reflexivity].
      destruct filtered as [| c filtered]; [reflexivity |].
      exfalso. apply not_true_iff_false in Hall. apply Hall.
      apply Hrows'; auto. split; [discriminate | exact Hget].
  - intros shown Hshown. unfold selectAll_get. rewrite !length_map, Hlen.
    destruct (Nat.eqb_spec (length filtered) (length shown)); [lia |].
    apply andb_false_r.
Qed.

Lemma selectAll_toggle_witness :
  let ann :=
    {| AccessSettings.id := lit "u1"; AccessSettings.email := lit "ann@x.io";
       AccessSettings.display_name := Some (lit "Ann");
       AccessSettings.roles := lit "editor" |} in
  let bob :=
    {| AccessSettings.id := lit "u2"; AccessSettings.email := lit "bob@x.io";
       AccessSettings.display_name := None;
       AccessSettings.roles := lit "viewer" |} in
  selectAll_get (base_toggleSelectAll true [ann; bob] []) 2 = true /\
  selectAll_get (base_toggleSelectAll true [ann; bob] []) 1 = false.
Proof.
  intros ann bob.
  assert (Hids : NoDup (map AccessSettings.id [ann; bob])).
  { repeat constructor; cbn; intuition discriminate. }
  destruct (proj2 (selectAll_toggle [ann; bob] [] Hids (NoDup_nil _)
                     (incl_nil_l _)) true)
    as (_ & _ & _ & Hall & Hshort).
  split; [exact Hall |]. apply (Hshort [ann]). cbn. lia.
Defined.

(** ** Changing the role of a member of a base *)

Lemma find_first (members pre post : list BaseMembers.Member)
  (cur : BaseMembers.Member) (i : text) :
  members = pre ++ cur :: post ->
  BaseMembers.id cur = i ->
  (forall m, In m pre -> BaseMembers.id m <> i) ->
  find (fun coll => text_eqb (BaseMembers.id coll) i) members = Some cur /\
  forall m', BaseMembers.replace_first i m' members = pre ++ m' :: post.
Proof.
  intros -> Hid Hpre. induction pre as [| m pre IH]; cbn.
  - assert (E : text_eqb (BaseMembers.id cur) i = true) by now apply text_eqb_eq.
    rewrite E. auto.
  - assert (E : text_eqb (BaseMembers.id m) i = false).
    { apply not_true_iff_false. intros E. apply text_eqb_eq in E.
      now apply (Hpre m (or_introl eq_refl)). }
    rewrite E. destruct IH as [Hfind Hrep].
    + intros m0 Hm0. apply Hpre. now right.
    + split; [exact Hfind |]. intros m'. now rewrite Hrep.
Qed.

Lemma same_as_inherited_spec `{BaseMembers.Constants}
  (cur : BaseMembers.Member) (role : text) :
  BaseMembers.same_as_inherited cur role = true <->
  BaseMembers.isEeUI = true /\
  exists w, BaseMembers.workspace_roles cur = Some w /\ w <> [] /\
            BaseMembers.WorkspaceRolesToProjectRoles w = Some role.
Proof.
  unfold BaseMembers.same_as_inherited, BaseMembers.truthy_opt.
  destruct (BaseMembers.workspace_roles cur) as [w |]; cbn.
  - rewrite !andb_true_iff. split.
    + intros [[Hw Hmap] He]. split; [exact He |]. exists w.
      destruct (BaseMembers.WorkspaceRolesToProjectRoles w) as [r |];
        [| discriminate].
      apply text_eqb_eq in Hmap. subst r.
      repeat split; auto. now destruct w.
    + intros (He & w' & E & Hw & Hmap). injection E as <-.
      rewrite Hmap. repeat split; auto.
      * now destruct w.
      * now apply text_eqb_eq.
  - split; [discriminate | intros (_ & w & E & _); discriminate].
Qed.

(** X10. [updateCollaborator] on a member of the list makes one call and
    writes to the first member with the given id only.  The role is
    removed when the chosen role is empty, when it is no access outside
    the enterprise UI, or when, in the enterprise UI, it is the role the
    member inherits from the workspace: the call is the removal, and only
    when it succeeds the member loses its base role and shows the
    inherited role or no access.  Otherwise the member shows the chosen
    role at once, before the call is known to succeed, and the call
    updates a member that has a base role and creates one for a member
    that has none, which then gets the chosen role as its base role.  The
    list is reloaded exactly when the call fails. *)
Theorem updateCollaborator_effect `{BaseMembers.Constants}
  (api : BaseMembers.ApiCall -> bool) (role : text)
  (pre post : list BaseMembers.Member) (cur : BaseMembers.Member)
  (users : option (list BaseMembers.Member)) :
  (forall m, In m pre -> BaseMembers.id m <> BaseMembers.id cur) ->
  let inherits :=
    BaseMembers.isEeUI = true /\
    exists w, BaseMembers.workspace_roles cur = Some w /\ w <> [] /\
              BaseMembers.WorkspaceRolesToProjectRoles w = Some role in
  let removal :=
    role = [] \/
    (role = BaseMembers.NO_ACCESS /\ BaseMembers.isEeUI = false) \/ inherits in
  exists r cur',
    BaseMembers.updateCollaborator api (BaseMembers.id cur) role
      (pre ++ cur :: post) users = Some r /\
    BaseMembers.collaborators r = pre ++ cur' :: post /\
    BaseMembers.id cur' = BaseMembers.id cur /\
    BaseMembers.workspace_roles cur' = BaseMembers.workspace_roles cur /\
    BaseMembers.reloads r = negb (api (BaseMembers.call r)) /\
    (removal ->
     BaseMembers.call r = BaseMembers.removeProjectUser cur /\
     (api (BaseMembers.call r) = false -> cur' = cur) /\
     (api (BaseMembers.call r) = true ->
      BaseMembers.base_roles cur' = None /\
      (inherits -> BaseMembers.roles cur' = role) /\
      (~ inherits -> BaseMembers.roles cur' = BaseMembers.NO_ACCESS))) /\
    (~ removal ->
     BaseMembers.roles cur' = role /\
     (forall b, BaseMembers.base_roles cur = Some b -> b <> [] ->
                BaseMembers.base_roles cur' = Some b /\
                BaseMembers.call r = BaseMembers.updateProjectUser cur') /\
     (BaseMembers.base_roles cur = None \/ BaseMembers.base_roles cur = Some [] ->
      BaseMembers.base_roles cur' = Some role /\
      BaseMembers.call r = BaseMembers.createProjectUser cur')) /\
    (api (BaseMembers.call r) = false -> BaseMembers.baseUsers r = users) /\
    (api (BaseMembers.call r) = true ->
     forall us, users = Some us ->
                BaseMembers.baseUsers r =
                Some (map (fun user =>
                             if text_eqb (BaseMembers.id user) (BaseMembers.id cur)
                             then {| BaseMembers.id := BaseMembers.id user;
                                     BaseMembers.roles := BaseMembers.roles cur';
                                     BaseMembers.base_roles := BaseMembers.base_roles user;
                                     BaseMembers.workspace_roles :=
                                       BaseMembers.workspace_roles user |}
                             else user) us)).
Proof.
  intros Hpre inherits removal.
  destruct (find_first (pre ++ cur :: post) pre post cur (BaseMembers.id cur)
              eq_refl eq_refl Hpre) as [Hfind Hreplace].
  pose proof (same_as_inherited_spec cur role) as Hinh. fold inherits in Hinh.
  assert (Hrem : negb (truthy role)
                 || (text_eqb role BaseMembers.NO_ACCESS && negb BaseMembers.isEeUI)
                 || BaseMembers.same_as_inherited cur role = true <-> removal).
  { subst removal. rewrite !orb_true_iff, andb_true_iff, negb_true_iff, negb_true_iff.
    rewrite Hinh, text_eqb_eq.
    assert (truthy role = false <-> role = [])
      by (destruct role; cbn; split; congruence).
    tauto. }
  assert (Husers : forall (c : BaseMembers.Member) (us : list BaseMembers.Member),
             match us with
             | u :: us' =>
                 Some (map (fun user =>
                              if text_eqb (BaseMembers.id user) (BaseMembers.id c)
                              then BaseMembers.set_roles (BaseMembers.roles c) user
                              else user) (u :: us'))
             | [] => Some []
             end =
             Some (map (fun user =>
                          if text_eqb (BaseMembers.id user) (BaseMembers.id c)
                          then BaseMembers.set_roles (BaseMembers.roles c) user
                          else user) us)).
  { intros c [| u us]; reflexivity. }
  unfold BaseMembers.updateCollaborator. rewrite Hfind.
  unfold BaseMembers.change_role.
  destruct (negb (truthy role)
            || (text_eqb role BaseMembers.NO_ACCESS && negb BaseMembers.isEeUI)
            || BaseMembers.same_as_inherited cur role) eqn:Hbranch.
  - (* the role is removed *)
    assert (Hr : removal) by now apply Hrem.
    destruct (api (BaseMembers.removeProjectUser cur)) eqn:Hapi.
    + rewrite Hreplace. eexists. eexists. split; [reflexivity |].
      cbn [BaseMembers.collaborators BaseMembers.call BaseMembers.reloads
           BaseMembers.baseUsers].
      rewrite Hapi.
      split; [reflexivity |].
      split; [now destruct (BaseMembers.same_as_inherited cur role) |].
      split; [now destruct (BaseMembers.same_as_inherited cur role) |].
      split; [reflexivity |].
      split; [| split; [tauto | split; [discriminate |]]].
      * intros _. split; [reflexivity |]. split; [discriminate |]. intros _.
        split; [now destruct (BaseMembers.same_as_inherited cur role) |]. split.
        -- intros Hi. pose proof (proj2 Hinh Hi) as E. rewrite E.
           cbn. unfold BaseMembers.mapped_role.
           destruct Hi as (_ & w & -> & _ & ->). reflexivity.
        -- intros Hi.
           destruct (BaseMembers.same_as_inherited cur role) eqn:E;
             [exfalso; apply Hi; now apply Hinh | reflexivity].
      * intros _ us ->.
        destruct us as [| u us]; [reflexivity |].
        now destruct (BaseMembers.same_as_inherited cur role).
    + exists
        {| BaseMembers.collaborators := pre ++ cur :: post;
           BaseMembers.baseUsers := users;
           BaseMembers.call := BaseMembers.removeProjectUser cur;
           BaseMembers.reloads := true |}, cur.
      cbn. rewrite Hapi.
      split; [now rewrite Hreplace |].
      do 4 (split; [reflexivity |]).
      split; [| split; [tauto | split; [reflexivity | discriminate]]].
      intros _. split; [reflexivity |]. split; [reflexivity | discriminate].
  - (* the role is set *)
    assert (Hr : ~ removal).
    { intros Hr. apply Hrem in Hr. congruence. }
    destruct (BaseMembers.truthy_opt (BaseMembers.base_roles cur)) eqn:Hbase.
    + set (cur' := BaseMembers.set_roles role cur).
      rewrite Hreplace.
      exists {| BaseMembers.collaborators := pre ++ cur' :: post;
                BaseMembers.baseUsers :=
                  if api (BaseMembers.updateProjectUser cur')
                  then match users with
                       | Some (u :: us) =>
                           Some (map (fun user =>
                                        if text_eqb (BaseMembers.id user)
                                                    (BaseMembers.id cur')
                                        then BaseMembers.set_roles
                                               (BaseMembers.roles cur') user
                                        else user) (u :: us))
                       | other => other
                       end
                  else users;
                BaseMembers.call := BaseMembers.updateProjectUser cur';
                BaseMembers.reloads := negb (api (BaseMembers.updateProjectUser cur')) |},
             cur'.
      split; [now destruct (api (BaseMembers.updateProjectUser cur')) |].
      cbn [BaseMembers.collaborators BaseMembers.call BaseMembers.reloads
           BaseMembers.baseUsers].
      do 4 (split; [reflexivity |]).
      split; [intros Hrm; contradiction |]. split; [| split].
      * intros _. split; [reflexivity |]. split.
        -- intros b E Hb. split; [exact E | reflexivity].
        -- intros [E | E]; rewrite E in Hbase; discriminate.
      * intros E. now rewrite E.
      * intros E us ->. rewrite E. destruct us; reflexivity.
    + set (cur' := BaseMembers.set_base_roles (Some role)
                     (BaseMembers.set_roles role cur)).
      rewrite Hreplace.
      exists {| BaseMembers.collaborators := pre ++ cur' :: post;
                BaseMembers.baseUsers :=
                  if api (BaseMembers.createProjectUser cur')
                  then match users with
                       | Some (u :: us) =>
                           Some (map (fun user =>
                                        if text_eqb (BaseMembers.id user)
                                                    (BaseMembers.id cur')
                                        then BaseMembers.set_roles
                                               (BaseMembers.roles cur') user
                                        else user) (u :: us))
                       | other => other
                       end
                  else users;
                BaseMembers.call := BaseMembers.createProjectUser cur';
                BaseMembers.reloads := negb (api (BaseMembers.createProjectUser cur')) |},
             cur'.
      split; [now destruct (api (BaseMembers.createProjectUser cur')) |].
      cbn [BaseMembers.collaborators BaseMembers.call BaseMembers.reloads
           BaseMembers.baseUsers].
      do 4 (split; [reflexivity |]).
      split; [intros Hrm; contradiction |]. split; [| split].
      * intros _. split; [reflexivity |]. split.
        -- intros b E Hb. rewrite E in Hbase.
           destruct b; [congruence | discriminate].
        -- intros _. split; reflexivity.
      * intros E. now rewrite E.
      * intros E us ->. rewrite E. destruct us; reflexivity.
Qed.

Lemma updateCollaborator_effect_witness :
  exists r cur',
    @BaseMembers.updateCollaborator BaseMembers.sample_constants (fun _ => false)
      (lit "u1") (lit "editor") [BaseMembers.sample_member] None = Some r /\
    BaseMembers.collaborators r = [cur'] /\
    BaseMembers.roles cur' = lit "editor" /\
    BaseMembers.base_roles cur' = Some (lit "editor") /\
    BaseMembers.call r = BaseMembers.createProjectUser cur' /\
    BaseMembers.reloads r = true.
Proof.
  destruct (@updateCollaborator_effect BaseMembers.sample_constants
              (fun _ => false) (lit "editor") [] [] BaseMembers.sample_member None)
    as (r & cur' & Hrun & Hlist & _ & _ & Hreload & _ & Hset & _).
  - intros m [].
  - exists r, cur'. split; [exact Hrun |]. split; [exact Hlist |].
    destruct Hset as (Hrole & _ & Hcreate).
    + intros [E | [[E _] | [_ (w & Ew & _ & E)]]]; try discriminate.
      injection Ew as <-. vm_compute in E. discriminate.
    + destruct (Hcreate (or_introl eq_refl)) as [Hbase Hcall].
      repeat split; assumption.
Defined.

(** ** When the cursor moves *)



